(** * terminal_donut: the rendering core of [main.cpp]

    A shallow embedding of the software rasterizer of [main.cpp]:
    the vector helpers, [FrameBuffer], [renderTorus],
    [blitVirtualToCurses], and the sizing of the buffer and the loop
    of [main].

    The C++ type [float] is IEEE-754 binary32.  It is modelled by the
    Standard Library's [spec_float] at precision 24 and maximal
    exponent 128, so that every arithmetic operation of the source
    ([+], [-], [*], [/], [std::sqrt], comparisons, conversions) rounds
    exactly as the hardware does (round to nearest, ties to even, one
    rounding per operation, no contraction into fused multiply-add).
    Only [std::cos] and [std::sin] are not fixed by IEEE-754: they are
    parameters of the development.

    The C++ type [int] is modelled by [Z]; a conversion from [float]
    that has no value in [int] is undefined behaviour in C++ and is
    [None] here.

    The properties that bound the geometry and the lengths of vectors
    are stated over the real value of the binary32 results, with the
    rounding of every operation accounted for. *)

From Stdlib Require Import ZArith Zpower List Bool Lia Ascii String.
From Stdlib Require Import Reals Lra Psatz.
From Stdlib Require Import Floats.SpecFloat.
From stdpp Require Import base list.

Local Open Scope Z_scope.

(** ** Binary32 arithmetic *)

Module F32.

Definition prec : Z := 24.
Definition emax : Z := 128.

Definition float : Type := spec_float.

Definition fadd : float -> float -> float := SFadd prec emax.
Definition fsub : float -> float -> float := SFsub prec emax.
Definition fmul : float -> float -> float := SFmul prec emax.
Definition fdiv : float -> float -> float := SFdiv prec emax.
Definition fsqrt : float -> float := SFsqrt prec emax.
Definition fneg : float -> float := SFopp.

(** [a < b] and [a > b] of C++; both are false when an operand is NaN. *)
Definition flt (a b : float) : bool := SFltb a b.
Definition fgt (a b : float) : bool := SFltb b a.
Definition fle (a b : float) : bool := SFleb a b.

(** [static_cast<float>(n)] for an [int] n: the nearest binary32. *)
Definition of_int (n : Z) : float := binary_normalize prec emax n 0 false.

(** A decimal literal [n/d] of the source, correctly rounded: both
    [n] and [d] are small integers, exact in binary32, and IEEE
    division rounds the exact quotient once. *)
Definition lit (n d : Z) : float := fdiv (of_int n) (of_int d).

Definition fzero : float := S754_zero false.
Definition fone : float := of_int 1.

Definition int_min : Z := - 2 ^ 31.
Definition int_max : Z := 2 ^ 31 - 1.

(** The integer part of a finite float, rounded toward zero. *)
Definition trunc_Z (f : float) : option Z :=
  match f with
  | S754_zero _ => Some 0
  | S754_finite s m e =>
      let a := match e with
               | Zneg p => Z.shiftr (Zpos m) (Zpos p)
               | _ => Z.shiftl (Zpos m) e
               end in
      Some (if s then - a else a)
  | _ => None
  end.

(** [static_cast<int>(f)]: truncation toward zero; undefined ([None])
    for NaN, the infinities and values that do not fit [int]. *)
Definition to_int (f : float) : option Z :=
  match trunc_Z f with
  | Some z => if (int_min <=? z) && (z <=? int_max) then Some z else None
  | None => None
  end.

(** [std::round] on [float]: nearest integral value, halfway cases
    away from zero; the sign of the argument is kept. *)
Definition roundf (f : float) : float :=
  match f with
  | S754_finite s m (Zneg p) =>
      let q := Z.shiftr (Zpos m + Z.shiftl 1 (Zpos p - 1)) (Zpos p) in
      match q with
      | Z0 => S754_zero s
      | _ => if s then fneg (of_int q) else of_int q
      end
  | _ => f
  end.

(** [std::min], [std::max] and [std::clamp] as the standard defines
    them from [<]. *)
Definition fmin (a b : float) : float := if flt b a then b else a.
Definition fmax (a b : float) : float := if flt a b then b else a.

Definition clamp (v lo hi : Z) : Z :=
  if v <? lo then lo else if hi <? v then hi else v.

(** Widening of a [float] to [double] (exact), used where the source
    compares a [float] with a [double] constant. *)
Definition to_double (f : float) : spec_float :=
  match f with
  | S754_finite s m e => binary_round 53 1024 s m e
  | _ => f
  end.

End F32.

Import F32.

(** ** Results of running a piece of the program

    [Undefined] is C++ undefined behaviour (a conversion to [int] that
    has no value, a vector access out of range).  [OutOfFuel] only
    concerns the model: the loops take a bound on their iterations. *)

Inductive outcome (A : Type) : Type :=
  | Done (a : A)
  | Undefined
  | OutOfFuel.

Arguments Done {A} a.
Arguments Undefined {A}.
Arguments OutOfFuel {A}.

Definition obind {A B : Type} (r : outcome A) (k : A -> outcome B) : outcome B :=
  match r with
  | Done a => k a
  | Undefined => Undefined
  | OutOfFuel => OutOfFuel
  end.

Definition defined {A : Type} (o : option A) : outcome A :=
  match o with
  | Some a => Done a
  | None => Undefined
  end.

#[global] Instance outcome_ret : MRet outcome := fun _ a => Done a.
#[global] Instance outcome_bind : MBind outcome := fun _ _ k r => obind r k.

(** ** Vector math (main.cpp lines 9-25) *)

Record Vec3 : Type := mkVec3 { vec_x : float; vec_y : float; vec_z : float }.

Definition dot (a b : Vec3) : float :=
  fadd (fadd (fmul (vec_x a) (vec_x b)) (fmul (vec_y a) (vec_y b)))
       (fmul (vec_z a) (vec_z b)).

Definition normalize (v : Vec3) : Vec3 :=
  let m := fsqrt (dot v v) in
  if fgt m fzero
  then mkVec3 (fdiv (vec_x v) m) (fdiv (vec_y v) m) (fdiv (vec_z v) m)
  else mkVec3 fzero fzero fzero.

(** ** The frame buffer (main.cpp lines 27-41) *)

Definition blank : ascii := " "%char.

(** The literal [-1e9f]; 10^9 = 1953125 * 2^9 is exact in binary32. *)
Definition sentinel : float := of_int (-1000000000).

Module FrameBuffer.

Record t : Type := mk
  { w : Z;
    h : Z;
    chars : list ascii;
    depth : list float }.

(** The constructor [FrameBuffer(W, H)]. *)
Definition new (W H : Z) : t :=
  mk W H (replicate (Z.to_nat (W * H)) blank)
         (replicate (Z.to_nat (W * H)) sentinel).

(** [std::fill] over both vectors. *)
Definition clear (fb : t) : t :=
  mk (w fb) (h fb)
     (replicate (length (chars fb)) blank)
     (replicate (length (depth fb)) sentinel).

(** [set] indexes both vectors at [y*w + x] and checks nothing:
    an index outside the vectors is undefined behaviour. *)
Definition set (fb : t) (x y : Z) (invZ : float) (c : ascii) : option t :=
  let idx := y * w fb + x in
  if (idx <? 0) || (Z.of_nat (length (chars fb)) <=? idx) then None else
  match depth fb !! Z.to_nat idx with
  | None => None
  | Some d =>
      if fgt invZ d
      then Some (mk (w fb) (h fb)
                    (<[Z.to_nat idx := c]> (chars fb))
                    (<[Z.to_nat idx := invZ]> (depth fb)))
      else Some fb
  end.

Definition get (fb : t) (x y : Z) : option ascii :=
  let idx := y * w fb + x in
  if idx <? 0 then None else chars fb !! Z.to_nat idx.

(** Both vectors hold [w*h] cells, as the constructor builds them. *)
Definition wf (fb : t) : Prop :=
  0 <= w fb /\ 0 <= h fb /\
  length (chars fb) = Z.to_nat (w fb * h fb) /\
  length (depth fb) = Z.to_nat (w fb * h fb).


End FrameBuffer.

(** ** The surface rasterizer (main.cpp lines 57-108) *)

(** Constants of [renderTorus]. *)
Definition R_major : float := of_int 1.
Definition R_minor : float := lit 1 2.
Definition K2 : float := of_int 3.
Definition xCellAspect : float := of_int 2.
Definition dTheta : float := lit 7 100.
Definition dPhi : float := lit 2 100.

Definition K1 (w h : Z) : float :=
  fmul (lit 3 4) (fmin (of_int h) (fdiv (of_int w) (of_int 2))).

Definition light : Vec3 :=
  normalize (mkVec3 (fneg (lit 1 2)) (lit 1 2) (fneg (of_int 1))).

(** The ramp [" .:-=+*#%@"], darkest first. *)
Definition shades : list ascii :=
  list_ascii_of_string " .:-=+*#%@".

Definition shadeMax : Z := Z.of_nat (length shades) - 1.

(** [M_PI] of <cmath>, a [double]: 0x400921FB54442D18. *)
Definition M_PI : spec_float := S754_finite false 7074237752028440 (-51).

(** The loop bound [2.0f * M_PI], computed in [double]. *)
Definition two_pi : spec_float :=
  SFmul 53 1024 (to_double (of_int 2)) M_PI.

(** The loop header [for (float a = a0; a < 2.0f * M_PI; a += step)]. *)
Fixpoint for_angle {S : Type} (fuel : nat) (step : float)
    (body : float -> S -> outcome S) (a : float) (s : S) : outcome S :=
  if flt (to_double a) two_pi then
    match fuel with
    | O => OutOfFuel
    | Datatypes.S fuel' =>
        match body a s with
        | Done s' => for_angle fuel' step body (fadd a step) s'
        | r => r
        end
    end
  else Done s.

(** Lambert shading of a unit normal (lines 101-103): the luminance,
    its quantisation and the glyph of the ramp. *)
Definition luminance (n : Vec3) : float := fmax fzero (dot n light).

Definition shadeIdx (lum : float) : option Z :=
  i ← to_int (fmul lum (of_int shadeMax));
  Some (clamp i 0 shadeMax).

Definition glyph_of (lum : float) : option ascii :=
  i ← shadeIdx lum;
  Some (nth (Z.to_nat i) shades blank).

(** The test of line 98. *)
Definition out_of_bounds (w h x y : Z) : bool :=
  (x <? 0) || (w <=? x) || (y <? 0) || (h <=? y).

Section Rasterizer.

(** [std::cos] and [std::sin] on [float]. *)
Variables cosf sinf : float -> float.

Definition rotateX (v : Vec3) (a : float) : Vec3 :=
  let c := cosf a in
  let s := sinf a in
  mkVec3 (vec_x v)
         (fsub (fmul c (vec_y v)) (fmul s (vec_z v)))
         (fadd (fmul s (vec_y v)) (fmul c (vec_z v))).

Definition rotateY (v : Vec3) (a : float) : Vec3 :=
  let c := cosf a in
  let s := sinf a in
  mkVec3 (fadd (fmul c (vec_x v)) (fmul s (vec_z v)))
         (vec_y v)
         (fadd (fmul (fneg s) (vec_x v)) (fmul c (vec_z v))).

(** Lines 82-84: the torus point and its normal direction. *)
Definition pObj (theta phi : float) : Vec3 :=
  let ct := cosf theta in
  let st := sinf theta in
  let cp := cosf phi in
  let sp := sinf phi in
  let circle := fadd R_major (fmul R_minor ct) in
  mkVec3 (fmul circle cp) (fmul circle sp) (fmul R_minor st).

Definition nObj (theta phi : float) : Vec3 :=
  let ct := cosf theta in
  let st := sinf theta in
  let cp := cosf phi in
  let sp := sinf phi in
  mkVec3 (fmul (fmul R_minor ct) cp) (fmul (fmul R_minor ct) sp)
         (fmul R_minor st).

(** Lines 87-93: rotation and perspective projection. *)
Definition rotated_p (Ax Ay theta phi : float) : Vec3 :=
  rotateY (rotateX (pObj theta phi) Ax) Ay.

Definition rotated_n (Ax Ay theta phi : float) : Vec3 :=
  normalize (rotateY (rotateX (nObj theta phi) Ax) Ay).

Definition denominator (Ax Ay theta phi : float) : float :=
  fadd K2 (vec_z (rotated_p Ax Ay theta phi)).

Definition invZ (Ax Ay theta phi : float) : float :=
  fdiv fone (denominator Ax Ay theta phi).

Definition x_proj (Ax Ay theta phi : float) : float :=
  fmul (vec_x (rotated_p Ax Ay theta phi)) (invZ Ax Ay theta phi).

Definition y_proj (Ax Ay theta phi : float) : float :=
  fmul (vec_y (rotated_p Ax Ay theta phi)) (invZ Ax Ay theta phi).

(** Lines 95-96: the operands of the two casts to [int]. *)
Definition x_float (w h : Z) (Ax Ay theta phi : float) : float :=
  fadd (fmul (of_int w) (lit 1 2))
       (fmul (fmul (K1 w h) xCellAspect) (x_proj Ax Ay theta phi)).

Definition y_float (w h : Z) (Ax Ay theta phi : float) : float :=
  fsub (fmul (of_int h) (lit 1 2))
       (fmul (K1 w h) (y_proj Ax Ay theta phi)).

Definition cell_x (w h : Z) (Ax Ay theta phi : float) : option Z :=
  to_int (x_float w h Ax Ay theta phi).

Definition cell_y (w h : Z) (Ax Ay theta phi : float) : option Z :=
  to_int (y_float w h Ax Ay theta phi).

(** The glyph of a sample (lines 101-103). *)
Definition sample_glyph (Ax Ay theta phi : float) : option ascii :=
  glyph_of (luminance (rotated_n Ax Ay theta phi)).

(** One pass of the inner loop body (lines 79-105). *)
Definition plot (Ax Ay theta phi : float) (fb : FrameBuffer.t)
    : outcome FrameBuffer.t :=
  let w := FrameBuffer.w fb in
  let h := FrameBuffer.h fb in
  x ← defined (cell_x w h Ax Ay theta phi);
  y ← defined (cell_y w h Ax Ay theta phi);
  if out_of_bounds w h x y then Done fb else
  ch ← defined (sample_glyph Ax Ay theta phi);
  defined (FrameBuffer.set fb x y (invZ Ax Ay theta phi) ch).

Definition renderTorus (fuel : nat) (fb : FrameBuffer.t) (Ax Ay : float)
    : outcome FrameBuffer.t :=
  let fb := FrameBuffer.clear fb in
  for_angle fuel dTheta
    (fun theta fb => for_angle fuel dPhi (plot Ax Ay theta) fzero fb)
    fzero fb.

End Rasterizer.

(** ** The display compositor (main.cpp lines 110-138) *)

(** The terminal after [erase] and the two loops: one row of glyphs
    per terminal line, as [mvaddch] writes them. *)
Abbreviation screen := (list (list ascii)).

Definition cell_of (scr : screen) (y x : Z) : option ascii :=
  if (y <? 0) || (x <? 0) then None
  else row ← scr !! Z.to_nat y; row !! Z.to_nat x.

Section Compositor.

Variable fb : FrameBuffer.t.
Variables rows cols : Z.

Definition scale_s : float :=
  let sx := fdiv (of_int cols) (of_int (FrameBuffer.w fb)) in
  let sy := fdiv (of_int rows) (of_int (FrameBuffer.h fb)) in
  fmax sx sy.

Definition invS : float := fdiv fone scale_s.

Definition viewW : option Z :=
  r ← to_int (roundf (fmul (of_int cols) invS)); Some (Z.max 1 r).

Definition viewH : option Z :=
  r ← to_int (roundf (fmul (of_int rows) invS)); Some (Z.max 1 r).

(** [int] division truncates toward zero. *)
Definition x0 : option Z := vw ← viewW; Some ((FrameBuffer.w fb - vw) ÷ 2).
Definition y0 : option Z := vh ← viewH; Some ((FrameBuffer.h fb - vh) ÷ 2).

(** Lines 130 and 132: the buffer coordinate sampled for a terminal
    coordinate. *)
Definition sample_coord (origin : Z) (i : Z) (limit : Z) : option Z :=
  k ← to_int (fmul (of_int i) invS);
  Some (clamp (origin + k) 0 (limit - 1)).

(** Line 134: a NUL glyph is shown as a blank. *)
Definition shown (c : ascii) : ascii :=
  if Ascii.eqb c Ascii.zero then blank else c.

Definition blit_row (x0 vy : Z) : option (list ascii) :=
  mapM (fun x =>
          vx ← sample_coord x0 x (FrameBuffer.w fb);
          c ← FrameBuffer.get fb vx vy;
          Some (shown c))
       (seqZ 0 cols).

Definition blitVirtualToCurses : option screen :=
  x0 ← x0;
  y0 ← y0;
  mapM (fun y =>
          vy ← sample_coord y0 y (FrameBuffer.h fb);
          blit_row x0 vy)
       (seqZ 0 rows).

End Compositor.

(** ** Sizing of the virtual buffer (main.cpp lines 146-151) *)

Definition baseW : Z := 160.
Definition baseH : Z := 90.
Definition overscan : float := lit 115 100.

Definition aspect (rows cols : Z) : float :=
  if 0 <? rows then fdiv (of_int cols) (of_int rows) else fone.

Definition fbW (rows cols : Z) : option Z :=
  to_int (fmul (fmul (of_int baseW) (fmax fone (aspect rows cols))) overscan).

Definition fbH (rows cols : Z) : option Z :=
  to_int (fmul (fmul (of_int baseH)
                     (fmax fone (fdiv fone (aspect rows cols)))) overscan).

Definition initial_buffer (rows cols : Z) : option FrameBuffer.t :=
  W ← fbW rows cols; H ← fbH rows cols; Some (FrameBuffer.new W H).

(** ** The main loop (main.cpp lines 152-189) *)

Definition spinX : float := lit 7 10.
Definition spinY : float := lit 11 10.

(** [FrameBuffer(fbW, fbH)] as [main] calls it.  The number of cells
    [W*H] is computed in [int]: no buffer is built when the product
    overflows (undefined behaviour) or is negative (the vectors cannot
    be allocated). *)
Definition construct (W H : Z) : option FrameBuffer.t :=
  if (0 <=? W * H) && (W * H <=? int_max)
  then Some (FrameBuffer.new W H) else None.

Record loop_state : Type := mkLoop
  { buffer : FrameBuffer.t;
    lastRows : Z;
    lastCols : Z;
    angleX : float;
    angleY : float }.

(** Lines 144-158: the state before the first pass. *)
Definition initial_state (initRows initCols : Z) : option loop_state :=
  W ← fbW initRows initCols;
  H ← fbH initRows initCols;
  fb ← construct W H;
  Some (mkLoop fb initRows initCols fzero fzero).

(** Lines 167-175: the buffer is rebuilt when the terminal size
    changed. *)
Definition resize (st : loop_state) (curRows curCols : Z)
    : option loop_state :=
  if negb (curRows =? lastRows st) || negb (curCols =? lastCols st) then
    W ← fbW curRows curCols;
    H ← fbH curRows curCols;
    fb ← construct W H;
    Some (mkLoop fb curRows curCols (angleX st) (angleY st))
  else Some st.

(** The keys ['q'] and ['Q']. *)
Definition key_q : Z := 113.
Definition key_Q : Z := 81.

(** One pass of the loop of [main] (lines 163-189).  Its inputs are
    what the pass reads from outside: the key [getch] returns, the
    terminal size [main] reads, the time [dt] since the last pass, and
    the terminal size the compositor reads.  [None] is the [break]. *)
Definition iteration (cosf sinf : float -> float) (fuel : nat)
    (st : loop_state) (key curRows curCols : Z) (dt : float)
    (rows cols : Z) : outcome (option (loop_state * screen)) :=
  if (key =? key_q) || (key =? key_Q) then Done None else
  st1 ← defined (resize st curRows curCols);
  let Ax := fadd (angleX st1) (fmul spinX dt) in
  let Ay := fadd (angleY st1) (fmul spinY dt) in
  fb ← renderTorus cosf sinf fuel (buffer st1) Ax Ay;
  scr ← defined (blitVirtualToCurses fb rows cols);
  Done (Some (mkLoop fb (lastRows st1) (lastCols st1) Ax Ay, scr)).

(** The buffer has the size [main] computes for the terminal size it
    saw last. *)
Definition sized (st : loop_state) : Prop :=
  FrameBuffer.wf (buffer st) /\
  fbW (lastRows st) (lastCols st) = Some (FrameBuffer.w (buffer st)) /\
  fbH (lastRows st) (lastCols st) = Some (FrameBuffer.h (buffer st)).

(** * Vocabulary of the properties *)

(** ** Cells of the buffer *)

(** Linear index of the cell [(x, y)]. *)
Definition index (fb : FrameBuffer.t) (x y : Z) : nat :=
  Z.to_nat (y * FrameBuffer.w fb + x).

(** The buffer after an accepted write at index [i]. *)
Definition written (fb : FrameBuffer.t) (i : nat) (invZ : float) (c : ascii)
    : FrameBuffer.t :=
  FrameBuffer.mk (FrameBuffer.w fb) (FrameBuffer.h fb)
                 (<[i := c]> (FrameBuffer.chars fb))
                 (<[i := invZ]> (FrameBuffer.depth fb)).

Definition in_bounds (fb : FrameBuffer.t) (x y : Z) : Prop :=
  0 <= x < FrameBuffer.w fb /\ 0 <= y < FrameBuffer.h fb.

(** Every glyph of the buffer is a glyph of the ramp. *)
Definition ramp_only (fb : FrameBuffer.t) : Prop :=
  Forall (fun c => In c shades) (FrameBuffer.chars fb).

(** Bit-identical or numerically equal ([+0] and [-0]). *)
Definition same_depth (a b : float) : Prop := a = b \/ SFeqb a b = true.

(** A depth a cell can hold during a frame: the sentinel of [clear],
    or a value that compared above it. *)
Definition above_sentinel (d : float) : Prop :=
  d = sentinel \/ flt sentinel d = true.

(** ** The samples of a frame

    The angles a loop visits do not depend on what its body does, so
    a frame is the run of [plot] over a fixed list of samples. *)

Fixpoint angles (fuel : nat) (step a : float) : option (list float) :=
  if flt (to_double a) two_pi then
    match fuel with
    | O => None
    | S fuel' => l ← angles fuel' step (fadd a step); Some (a :: l)
    end
  else Some [].

Fixpoint run {S A : Type} (body : A -> S -> outcome S) (l : list A) (s : S)
    : outcome S :=
  match l with
  | [] => Done s
  | a :: l' => s' ← body a s; run body l' s'
  end.

Definition thetas : list float := default [] (angles 90 dTheta fzero).
Definition phis : list float := default [] (angles 315 dPhi fzero).

(** The samples of one frame, in the order of the two loops. *)
Definition frame_angles : list (float * float) :=
  flat_map (fun theta => map (pair theta) phis) thetas.

Section FrameVocabulary.

Variables cosf sinf : float -> float.
Variables Ax Ay : float.

(** The sample [s = (theta, phi)] lands on the cell [(x, y)] of a
    buffer of size [w] by [h]. *)
Definition maps_to (w h x y : Z) (s : float * float) : Prop :=
  cell_x cosf sinf w h Ax Ay s.1 s.2 = Some x /\
  cell_y cosf sinf w h Ax Ay s.1 s.2 = Some y.

(** [(d, g)] is the content of a cell that held [(d0, g0)] before
    the samples [l] were written: no sample of the cell is nearer than
    [d], and [(d, g)] is either the old content or a sample of [l]. *)
Record nearest_of (w h x y : Z) (l : list (float * float))
    (d0 : float) (g0 : ascii) (d : float) (g : ascii) : Prop :=
  { no_nearer : forall s, In s l -> maps_to w h x y s ->
                flt d (invZ cosf sinf Ax Ay s.1 s.2) = false;
    not_below : flt d d0 = false;
    attained : (d = d0 /\ g = g0) \/
               exists s, In s l /\ maps_to w h x y s /\
                         invZ cosf sinf Ax Ay s.1 s.2 = d /\
                         sample_glyph cosf sinf Ax Ay s.1 s.2 = Some g }.

End FrameVocabulary.

(** ** A libm for concrete runs

    Every libm returns [cos 0 = 1] and [sin 0 = 0] exactly.  The
    concrete runs below only use the angle 0, where the constant
    functions agree with every libm. *)

Definition cos_at_zero : float -> float := fun _ => fone.
Definition sin_at_zero : float -> float := fun _ => fzero.

(** ** The exact value of a float

    The exact value of a finite float [f] is
    [mantissa f * 2 ^ exponent f]. *)

Definition mantissa (f : float) : Z :=
  match f with
  | S754_finite s m _ => if s then Zneg m else Zpos m
  | _ => 0
  end.

Definition exponent (f : float) : Z :=
  match f with
  | S754_finite _ _ e => e
  | _ => 0
  end.

Definition is_finite (f : float) : Prop :=
  match f with
  | S754_zero _ | S754_finite _ _ _ => True
  | _ => False
  end.

(** [+0], a positive number or [+inf]. *)
Definition plus_signed (f : float) : Prop :=
  match f with
  | S754_zero false | S754_finite false _ _ | S754_infinity false => True
  | _ => False
  end.

(** [z] is the number [n * 2^e] rounded toward zero. *)
Definition truncates (n e z : Z) : Prop :=
  if 0 <=? e then z = n * 2 ^ e
  else (0 <= n -> z * 2 ^ (- e) <= n < (z + 1) * 2 ^ (- e)) /\
       (n <= 0 -> (z - 1) * 2 ^ (- e) < n <= z * 2 ^ (- e)).

(** A binary32 number with a positive sign. *)
Definition canonical (m : positive) (e : Z) : Prop :=
  valid_binary prec emax (S754_finite false m e) = true.

(** A binary32 with a full 24-bit mantissa that holds the integer [x]. *)
Definition holds (f : float) (x : Z) : Prop :=
  exists (m : positive) (e : Z),
    f = S754_finite false m e /\
    Z.pos (digits2_pos m) = 24 /\ -23 <= e <= 0 /\
    Z.pos m = x * 2 ^ (- e).

(** ** The real value of a float *)

(** The number a float stands for; 0 for the infinities and NaN. *)
Definition B2R (f : float) : R :=
  (IZR (mantissa f) * powerRZ 2 (exponent f))%R.

(** A number of the format: finite, with a mantissa and an exponent
    binary32 allows. *)
Definition number (f : float) : Prop :=
  is_finite f /\ valid_binary prec emax f = true.

(** One unit in the last place of a number in [1, 2), and the smallest
    positive binary32. *)
Definition ulp_one : R := (/ 8388608)%R.
Definition eta : R := powerRZ 2 (-149).

(** The float [f] is a number within [err] of the real [x]. *)
Definition near (f : float) (x err : R) : Prop :=
  number f /\ (Rabs (B2R f - x) <= err)%R.

(** [f] is [x] rounded to one of the two floats around it. *)
Definition rounds (f : float) (x : R) : Prop :=
  near f x (Rabs x * ulp_one + eta).

(** A magnitude with the sign of a float. *)
Definition signed (s : bool) (x : R) : R := if s then (- x)%R else x.

(** ** The accuracy of a libm

    The bound on the error of [std::cos] and [std::sin] the properties
    below need: 2^-20, eight units in the last place of a result near
    1.  The libm of a C++ implementation is far more accurate. *)
Definition libm_error : R := (/ 1048576)%R.

(** Both functions return numbers within [libm_error] of the cosine
    and the sine of the finite angle [a]. *)
Definition accurate (cosf sinf : float -> float) (a : float) : Prop :=
  is_finite a /\
  near (cosf a) (cos (B2R a)) libm_error /\
  near (sinf a) (sin (B2R a)) libm_error.

(** ** A libm for a quarter turn

    The binary32 nearest to pi/2, and the values a correctly rounded
    libm returns there: [cos] is -4.3711388e-08 and [sin] is 1.  At 0
    the table returns [cos 0 = 1] and [sin 0 = 0]. *)
Definition half_pi : float := S754_finite false 13176795 (-23).

Definition cos_table (a : float) : float :=
  if SFeqb a half_pi then S754_finite true 12303662 (-48) else fone.

Definition sin_table (a : float) : float :=
  if SFeqb a half_pi then fone else fzero.

(** ** What the spec words say of the cell of a sample

    The operand of the cast, rounded to the nearest integer. *)

Definition cell_x_rounded (cosf sinf : float -> float) (w h : Z)
    (Ax Ay theta phi : float) : option Z :=
  to_int (roundf (x_float cosf sinf w h Ax Ay theta phi)).


(** ** The glyph the compositor shows for a buffer cell *)

Definition shown_at (fb : FrameBuffer.t) (x y : Z) : ascii :=
  shown (default blank (FrameBuffer.get fb x y)).

(** ** Rounding of binary32

    What [binary_round_aux] of [SpecFloat] does to an exact positive
    number [m * 2^e]: the mantissa is shifted to the exponent of the
    format, rounded to nearest even, and renormalised. *)

Module Rounding.

(** [m / 2^n] rounded to the nearest integer, ties to even. *)
Definition rne (m n : Z) : Z :=
  let q := m / 2 ^ n in
  match 2 * (m mod 2 ^ n) ?= 2 ^ n with
  | Lt => q
  | Eq => if Z.even q then q else q + 1
  | Gt => q + 1
  end.

(** The exponent binary32 gives to a number below [2^x]. *)
Definition fexp32 (x : Z) : Z := Z.max (x - 24) (-149).

Definition target_exp (m : positive) (e : Z) : Z :=
  fexp32 (Z.pos (digits2_pos m) + e).

(** The float for the rounded mantissa [M] at exponent [E]: a carry
    into the 25th bit moves to the next exponent, an exponent above
    the largest one overflows to infinity. *)
Definition finish (s : bool) (M E : Z) : spec_float :=
  match M with
  | Z0 => S754_zero s
  | Zpos p =>
      if M =? 2 ^ 24
      then (if E + 1 <=? 104 then S754_finite s (2 ^ 23) (E + 1)
            else S754_infinity s)
      else (if E <=? 104 then S754_finite s p E else S754_infinity s)
  | Zneg _ => S754_nan
  end.

(** The rounded value of [m * 2^e], in units of [2^e]. *)
Definition rounded (m : positive) (e : Z) : Z :=
  rne (Z.pos m) (target_exp m e - e) * 2 ^ (target_exp m e - e).

End Rounding.

(** * Properties *)

(** ** The order of [float] values

    [flt] is a strict order on all of [spec_float] (NaN is related to
    nothing), which is all the depth test needs. *)

Section FloatOrder.

Lemma SFcompare_finite_pos (m1 m2 : positive) (e1 e2 : Z) :
  SFcompare (S754_finite false m1 e1) (S754_finite false m2 e2) =
  Some match e1 ?= e2 with
       | Lt => Lt
       | Gt => Gt
       | Eq => (m1 ?= m2)%positive
       end.
Proof. reflexivity. Qed.

Lemma SFcompare_finite_neg (m1 m2 : positive) (e1 e2 : Z) :
  SFcompare (S754_finite true m1 e1) (S754_finite true m2 e2) =
  Some match e1 ?= e2 with
       | Lt => Gt
       | Gt => Lt
       | Eq => CompOpp (m1 ?= m2)%positive
       end.
Proof. reflexivity. Qed.

Lemma fgt_flt (a b : float) : fgt a b = flt b a.
Proof. reflexivity. Qed.

Lemma flt_irrefl (a : float) : flt a a = false.
Proof.
  unfold flt, SFltb.
  destruct a as [s|s| |s m e]; try destruct s; try reflexivity.
  - rewrite SFcompare_finite_neg, Z.compare_refl, Pos.compare_refl. reflexivity.
  - rewrite SFcompare_finite_pos, Z.compare_refl, Pos.compare_refl. reflexivity.
Qed.

Lemma flt_finite_pos (m1 m2 : positive) (e1 e2 : Z) :
  flt (S754_finite false m1 e1) (S754_finite false m2 e2) = true <->
  e1 < e2 \/ (e1 = e2 /\ (m1 < m2)%positive).
Proof.
  unfold flt, SFltb. rewrite SFcompare_finite_pos.
  destruct (Z.compare_spec e1 e2); destruct (Pos.compare_spec m1 m2);
    split; intros; try discriminate; try lia; reflexivity.
Qed.

Lemma flt_finite_neg (m1 m2 : positive) (e1 e2 : Z) :
  flt (S754_finite true m1 e1) (S754_finite true m2 e2) = true <->
  e2 < e1 \/ (e1 = e2 /\ (m2 < m1)%positive).
Proof.
  unfold flt, SFltb. rewrite SFcompare_finite_neg.
  destruct (Z.compare_spec e1 e2); destruct (Pos.compare_spec m1 m2);
    simpl; split; intros; try discriminate; try lia; reflexivity.
Qed.

Lemma flt_trans (a b c : float) :
  flt a b = true -> flt b c = true -> flt a c = true.
Proof.
  destruct a as [sa|sa| |sa ma ea], b as [sb|sb| |sb mb eb],
           c as [sc|sc| |sc mc ec];
    try destruct sa; try destruct sb; try destruct sc;
    try (intros; discriminate); try (intros; reflexivity).
  - rewrite !flt_finite_neg. lia.
  - rewrite !flt_finite_pos. lia.
Qed.

Lemma flt_asym (a b : float) : flt a b = true -> flt b a = false.
Proof.
  intros Hab. destruct (flt b a) eqn:Hba; [|reflexivity].
  pose proof (flt_trans _ _ _ Hab Hba) as H.
  rewrite flt_irrefl in H. discriminate.
Qed.

(** Numerically equal values (this identifies [+0] and [-0]) are not
    ordered by [flt]. *)
Lemma feq_not_flt (a b : float) : SFeqb a b = true -> flt b a = false.
Proof.
  unfold SFeqb, flt, SFltb.
  destruct a as [sa|sa| |sa ma ea], b as [sb|sb| |sb mb eb];
    try destruct sa; try destruct sb; try discriminate; try reflexivity.
  - rewrite !SFcompare_finite_neg, (Z.compare_antisym ea eb),
      (Pos.compare_antisym ma mb).
    destruct (ea ?= eb); simpl; try discriminate.
    destruct (ma ?= mb)%positive; simpl; try discriminate. reflexivity.
  - rewrite !SFcompare_finite_pos, (Z.compare_antisym ea eb),
      (Pos.compare_antisym ma mb).
    destruct (ea ?= eb); simpl; try discriminate.
    destruct (ma ?= mb)%positive; simpl; try discriminate. reflexivity.
Qed.

End FloatOrder.

(** ** The depth-tested write *)

Module FrameBufferFacts.
Import FrameBuffer.

Lemma out_of_bounds_false (fb : t) (x y : Z) :
  out_of_bounds (w fb) (h fb) x y = false <-> in_bounds fb x y.
Proof. unfold out_of_bounds, in_bounds. lia. Qed.

Lemma index_range (fb : t) (x y : Z) :
  wf fb -> in_bounds fb x y ->
  0 <= y * w fb + x < w fb * h fb.
Proof. unfold wf, in_bounds. intros (Hw & Hh & _) [Hx Hy]. nia. Qed.

Lemma index_lt_chars (fb : t) (x y : Z) :
  wf fb -> in_bounds fb x y -> (index fb x y < length (chars fb))%nat.
Proof.
  intros Hwf Hb. pose proof (index_range _ _ _ Hwf Hb).
  destruct Hwf as (_ & _ & Hc & _). unfold index. lia.
Qed.

Lemma index_lt_depth (fb : t) (x y : Z) :
  wf fb -> in_bounds fb x y -> (index fb x y < length (depth fb))%nat.
Proof.
  intros Hwf Hb. pose proof (index_range _ _ _ Hwf Hb).
  destruct Hwf as (_ & _ & _ & Hd). unfold index. lia.
Qed.

(** Distinct cells have distinct indices. *)
Lemma index_inj (fb : t) (x y x' y' : Z) :
  wf fb -> in_bounds fb x y -> in_bounds fb x' y' ->
  index fb x y = index fb x' y' -> x = x' /\ y = y'.
Proof.
  intros Hwf Hb Hb' Hi.
  pose proof (index_range _ _ _ Hwf Hb).
  pose proof (index_range _ _ _ Hwf Hb').
  unfold index in Hi. unfold in_bounds in *.
  assert (y * w fb + x = y' * w fb + x') as E by lia.
  assert (y = y') by nia. subst. lia.
Qed.

Lemma wf_new (W H : Z) : 0 <= W -> 0 <= H -> wf (new W H).
Proof.
  intros. unfold wf, new; simpl. rewrite !length_replicate. auto.
Qed.

Lemma wf_clear (fb : t) : wf fb -> wf (clear fb).
Proof.
  unfold wf, clear; simpl. rewrite !length_replicate. auto.
Qed.

Lemma wf_written (fb : t) (i : nat) (d : float) (c : ascii) :
  wf fb -> wf (written fb i d c).
Proof.
  unfold wf, written; simpl. rewrite !length_insert. auto.
Qed.

(** What [set] does on a cell of the buffer. *)
Lemma set_in_bounds (fb : t) (x y : Z) (invZ : float) (c : ascii) :
  wf fb -> in_bounds fb x y ->
  exists d0 : float,
    depth fb !! index fb x y = Some d0 /\
    set fb x y invZ c =
      Some (if flt d0 invZ then written fb (index fb x y) invZ c else fb).
Proof.
  intros Hwf Hb.
  pose proof (index_range _ _ _ Hwf Hb) as Hr.
  pose proof (index_lt_chars _ _ _ Hwf Hb) as Hc.
  pose proof (index_lt_depth _ _ _ Hwf Hb) as Hd.
  destruct (lookup_lt_is_Some_2 _ _ Hd) as [d0 Hd0].
  exists d0. split; [exact Hd0|].
  unfold set. fold (index fb x y).
  replace ((y * w fb + x <? 0) ||
           (Z.of_nat (length (chars fb)) <=? y * w fb + x)) with false.
  - rewrite Hd0. unfold fgt, flt. destruct (SFltb d0 invZ); reflexivity.
  - symmetry. apply orb_false_iff. unfold index in Hc. split; lia.
Qed.

Lemma set_wf (fb fb' : t) (x y : Z) (invZ : float) (c : ascii) :
  wf fb -> in_bounds fb x y -> set fb x y invZ c = Some fb' ->
  wf fb' /\ w fb' = w fb /\ h fb' = h fb.
Proof.
  intros Hwf Hb Hs.
  destruct (set_in_bounds fb x y invZ c Hwf Hb) as (d0 & _ & E).
  rewrite E in Hs. injection Hs as <-.
  destruct (flt d0 invZ); auto using wf_written.
Qed.

End FrameBufferFacts.

Import FrameBufferFacts.

Section PlotFacts.

Variables cosf sinf : float -> float.

(** A sample is either discarded or handed to [set] at a cell of the
    buffer. *)
Lemma plot_done (Ax Ay theta phi : float) (fb fb' : FrameBuffer.t) :
  plot cosf sinf Ax Ay theta phi fb = Done fb' ->
  exists x y : Z,
    cell_x cosf sinf (FrameBuffer.w fb) (FrameBuffer.h fb) Ax Ay theta phi = Some x /\
    cell_y cosf sinf (FrameBuffer.w fb) (FrameBuffer.h fb) Ax Ay theta phi = Some y /\
    ((~ in_bounds fb x y /\ fb' = fb) \/
     (in_bounds fb x y /\
      exists ch : ascii,
        sample_glyph cosf sinf Ax Ay theta phi = Some ch /\
        FrameBuffer.set fb x y (invZ cosf sinf Ax Ay theta phi) ch = Some fb')).
Proof.
  unfold plot. intros H.
  destruct (cell_x cosf sinf _ _ Ax Ay theta phi) as [x|]; [|discriminate].
  destruct (cell_y cosf sinf _ _ Ax Ay theta phi) as [y|]; [|discriminate].
  exists x, y. do 2 (split; [reflexivity|]).
  cbn in H.
  destruct (out_of_bounds _ _ x y) eqn:Hoob.
  - left. split.
    + intros Hb. apply out_of_bounds_false in Hb. congruence.
    + congruence.
  - right. apply out_of_bounds_false in Hoob. split; [exact Hoob|].
    destruct (sample_glyph cosf sinf Ax Ay theta phi) as [ch|]; [|discriminate].
    exists ch. split; [reflexivity|]. cbn in H.
    destruct (FrameBuffer.set fb x y _ ch); [|discriminate].
    cbn in H. congruence.
Qed.

Lemma plot_discards (Ax Ay theta phi : float) (fb : FrameBuffer.t) (x y : Z) :
  cell_x cosf sinf (FrameBuffer.w fb) (FrameBuffer.h fb) Ax Ay theta phi = Some x ->
  cell_y cosf sinf (FrameBuffer.w fb) (FrameBuffer.h fb) Ax Ay theta phi = Some y ->
  ~ in_bounds fb x y ->
  plot cosf sinf Ax Ay theta phi fb = Done fb.
Proof.
  intros Hx Hy Hb. unfold plot. rewrite Hx, Hy. cbn.
  destruct (out_of_bounds _ _ x y) eqn:Hoob; [reflexivity|].
  apply out_of_bounds_false in Hoob. contradiction.
Qed.

(** A sample whose cell is in the buffer is handed to [set]. *)
Lemma plot_in_bounds (Ax Ay theta phi : float) (fb : FrameBuffer.t)
    (x y : Z) (ch : ascii) :
  cell_x cosf sinf (FrameBuffer.w fb) (FrameBuffer.h fb) Ax Ay theta phi = Some x ->
  cell_y cosf sinf (FrameBuffer.w fb) (FrameBuffer.h fb) Ax Ay theta phi = Some y ->
  in_bounds fb x y ->
  sample_glyph cosf sinf Ax Ay theta phi = Some ch ->
  plot cosf sinf Ax Ay theta phi fb =
  defined (FrameBuffer.set fb x y (invZ cosf sinf Ax Ay theta phi) ch).
Proof.
  intros Hx Hy Hb Hg. unfold plot. rewrite Hx, Hy.
  change (defined (Some x) ≫= ?k) with (k x). cbv beta.
  change (defined (Some y) ≫= ?k) with (k y). cbv beta.
  rewrite (proj2 (out_of_bounds_false fb x y) Hb), Hg.
  reflexivity.
Qed.

End PlotFacts.

(** ** The loops of [renderTorus] *)

Section Loops.

Context {S : Type}.

Lemma angles_fuel (fuel fuel' : nat) (step a : float) (l : list float) :
  angles fuel step a = Some l -> (fuel <= fuel')%nat ->
  angles fuel' step a = Some l.
Proof.
  revert fuel' a l. induction fuel as [|fuel IH]; intros fuel' a l H Hle.
  - simpl in H. destruct fuel'; simpl;
      destruct (flt (to_double a) two_pi); congruence.
  - destruct fuel' as [|fuel']; [lia|]. simpl in *.
    destruct (flt (to_double a) two_pi); [|exact H].
    destruct (angles fuel step (fadd a step)) as [l0|] eqn:E; [|discriminate].
    rewrite (IH fuel' _ l0 E) by lia. exact H.
Qed.

Lemma for_angle_run (fuel : nat) (step : float)
    (body : float -> S -> outcome S) (a : float) (l : list float) (s : S) :
  angles fuel step a = Some l ->
  for_angle fuel step body a s = run body l s.
Proof.
  revert a l s. induction fuel as [|fuel IH]; intros a l s H; simpl in *.
  - destruct (flt (to_double a) two_pi); [discriminate|].
    injection H as <-. reflexivity.
  - destruct (flt (to_double a) two_pi).
    + destruct (angles fuel step (fadd a step)) as [l0|] eqn:E; [|discriminate].
      injection H as <-. simpl.
      destruct (body a s) as [s'| |]; try reflexivity.
      cbn. apply IH. exact E.
    + injection H as <-. reflexivity.
Qed.

Lemma run_app {A : Type} (body : A -> S -> outcome S) (l1 l2 : list A) (s : S) :
  run body (l1 ++ l2) s = (s' ← run body l1 s; run body l2 s').
Proof.
  revert s. induction l1 as [|a l1 IH]; intros s; simpl; [reflexivity|].
  destruct (body a s) as [s'| |]; cbn; auto.
Qed.

Lemma run_map_pair {A B : Type} (body : A -> B -> S -> outcome S)
    (a : A) (lb : list B) (s : S) :
  run (body a) lb s =
  run (fun ab s => body ab.1 ab.2 s) (map (pair a) lb) s.
Proof.
  revert s. induction lb as [|b lb IH]; intros s; simpl; [reflexivity|].
  destruct (body a b s); cbn; auto.
Qed.

Lemma run_flat {A B : Type} (body : A -> B -> S -> outcome S)
    (la : list A) (lb : list B) (s : S) :
  run (fun a s => run (body a) lb s) la s =
  run (fun ab s => body ab.1 ab.2 s) (flat_map (fun a => map (pair a) lb) la) s.
Proof.
  revert s. induction la as [|a la IH]; intros s; simpl; [reflexivity|].
  rewrite run_app, run_map_pair.
  destruct (run _ (map (pair a) lb) s) as [s'| |]; cbn; auto.
Qed.

Lemma run_never_out_of_fuel {A : Type} (body : A -> S -> outcome S)
    (l : list A) (s : S) :
  (forall a s0, body a s0 <> OutOfFuel) -> run body l s <> OutOfFuel.
Proof.
  intros Hb. revert s. induction l as [|a l IH]; intros s; simpl; [discriminate|].
  destruct (body a s) as [s'| |] eqn:E; cbn; [apply IH|discriminate|].
  exfalso. exact (Hb _ _ E).
Qed.

(** A body that ignores its argument and is idempotent after one
    pass. *)
Lemma run_settles {A : Type} (body : A -> S -> outcome S) (l : list A)
    (s0 s1 : S) :
  l <> [] ->
  (forall a, body a s0 = Done s1) -> (forall a, body a s1 = Done s1) ->
  run body l s0 = Done s1.
Proof.
  intros Hl H0 H1. destruct l as [|a l]; [contradiction|]. simpl.
  rewrite H0. cbn. clear Hl H0.
  induction l as [|b l IH]; simpl; [reflexivity|].
  rewrite H1. cbn. exact IH.
Qed.

Lemma run_ext {A : Type} (f g : A -> S -> outcome S) (l : list A) (s : S) :
  (forall a s0, f a s0 = g a s0) -> run f l s = run g l s.
Proof.
  intros E. revert s. induction l as [|a l IH]; intros s; simpl; [reflexivity|].
  rewrite E. destruct (g a s); cbn; auto.
Qed.

End Loops.

Lemma thetas_angles : angles 90 dTheta fzero = Some thetas.
Proof. vm_compute. reflexivity. Qed.

Lemma phis_angles : angles 315 dPhi fzero = Some phis.
Proof. vm_compute. reflexivity. Qed.

Lemma thetas_length : length thetas = 90%nat.
Proof. vm_compute. reflexivity. Qed.

Lemma phis_length : length phis = 315%nat.
Proof. vm_compute. reflexivity. Qed.

Section FrameFacts.

Variables cosf sinf : float -> float.

Lemma plot_not_out_of_fuel (Ax Ay theta phi : float) (fb : FrameBuffer.t) :
  plot cosf sinf Ax Ay theta phi fb <> OutOfFuel.
Proof.
  unfold plot.
  destruct (cell_x cosf sinf _ _ Ax Ay theta phi); [|discriminate].
  destruct (cell_y cosf sinf _ _ Ax Ay theta phi); [|discriminate]. cbn.
  destruct (out_of_bounds _ _ _ _); [discriminate|].
  destruct (sample_glyph cosf sinf Ax Ay theta phi); [|discriminate]. cbn.
  destruct (FrameBuffer.set _ _ _ _ _); discriminate.
Qed.

(** With fuel for the 315 passes of the longer loop, a frame is the
    run of [plot] over [frame_angles] from the cleared buffer. *)
Lemma renderTorus_run (fuel : nat) (fb : FrameBuffer.t) (Ax Ay : float) :
  (315 <= fuel)%nat ->
  renderTorus cosf sinf fuel fb Ax Ay =
  run (fun s fb => plot cosf sinf Ax Ay s.1 s.2 fb) frame_angles
      (FrameBuffer.clear fb).
Proof.
  intros Hf. unfold renderTorus.
  rewrite (for_angle_run fuel dTheta _ fzero thetas)
    by (apply (angles_fuel 90); [apply thetas_angles|lia]).
  unfold frame_angles.
  rewrite <- (run_flat (fun theta phi fb0 => plot cosf sinf Ax Ay theta phi fb0)).
  apply run_ext. intros theta fb0.
  apply for_angle_run.
  apply (angles_fuel 315); [apply phis_angles|lia].
Qed.

Lemma renderTorus_terminates (fuel : nat) (fb : FrameBuffer.t) (Ax Ay : float) :
  (315 <= fuel)%nat -> renderTorus cosf sinf fuel fb Ax Ay <> OutOfFuel.
Proof.
  intros Hf. rewrite renderTorus_run by exact Hf.
  apply run_never_out_of_fuel. intros a s0. apply plot_not_out_of_fuel.
Qed.

End FrameFacts.

(** ** Depth-test correctness of a frame *)

Section DepthTest.

Variables cosf sinf : float -> float.
Variables Ax Ay : float.

Lemma nearest_of_nil (w h x y : Z) (d0 : float) (g0 : ascii) :
  nearest_of cosf sinf Ax Ay w h x y [] d0 g0 d0 g0.
Proof.
  split.
  - intros s [].
  - apply flt_irrefl.
  - left. auto.
Qed.

(** A further sample that does not land on the cell changes nothing. *)
Lemma nearest_of_miss (w h x y : Z) (l : list (float * float))
    (s : float * float) (d0 d : float) (g0 g : ascii) :
  nearest_of cosf sinf Ax Ay w h x y l d0 g0 d g -> ~ maps_to cosf sinf Ax Ay w h x y s ->
  nearest_of cosf sinf Ax Ay w h x y (l ++ [s]) d0 g0 d g.
Proof.
  intros [Hn Hb Ha] Hs. split.
  - intros s' Hin Hm. apply in_app_iff in Hin as [Hin|[<-|[]]]; auto.
    contradiction.
  - exact Hb.
  - destruct Ha as [Ha|(s' & Hin & Hm)]; [left; exact Ha|].
    right. exists s'. split; [apply in_app_iff; auto|exact Hm].
Qed.

(** A further sample of the cell that fails the depth test. *)
Lemma nearest_of_reject (w h x y : Z) (l : list (float * float))
    (s : float * float) (d0 d : float) (g0 g : ascii) :
  nearest_of cosf sinf Ax Ay w h x y l d0 g0 d g ->
  flt d (invZ cosf sinf Ax Ay s.1 s.2) = false ->
  nearest_of cosf sinf Ax Ay w h x y (l ++ [s]) d0 g0 d g.
Proof.
  intros [Hn Hb Ha] Hs. split.
  - intros s' Hin Hm. apply in_app_iff in Hin as [Hin|[<-|[]]]; auto.
  - exact Hb.
  - destruct Ha as [Ha|(s' & Hin & Hm)]; [left; exact Ha|].
    right. exists s'. split; [apply in_app_iff; auto|exact Hm].
Qed.

(** A further sample of the cell that passes the depth test. *)
Lemma nearest_of_accept (w h x y : Z) (l : list (float * float))
    (s : float * float) (d0 d : float) (g0 g ch : ascii) :
  nearest_of cosf sinf Ax Ay w h x y l d0 g0 d g -> maps_to cosf sinf Ax Ay w h x y s ->
  sample_glyph cosf sinf Ax Ay s.1 s.2 = Some ch ->
  flt d (invZ cosf sinf Ax Ay s.1 s.2) = true ->
  nearest_of cosf sinf Ax Ay w h x y (l ++ [s]) d0 g0 (invZ cosf sinf Ax Ay s.1 s.2) ch.
Proof.
  intros [Hn Hb Ha] Hm Hg Hlt. split.
  - intros s' Hin Hm'. apply in_app_iff in Hin as [Hin|[<-|[]]].
    + destruct (flt (invZ cosf sinf Ax Ay s.1 s.2)
                    (invZ cosf sinf Ax Ay s'.1 s'.2)) eqn:E; [|reflexivity].
      rewrite <- (Hn s' Hin Hm'). symmetry. eapply flt_trans; eassumption.
    + apply flt_irrefl.
  - destruct (flt (invZ cosf sinf Ax Ay s.1 s.2) d0) eqn:E; [|reflexivity].
    rewrite <- Hb. symmetry. eapply flt_trans; eassumption.
  - right. exists s. split; [apply in_app_iff; simpl; auto|auto].
Qed.

Lemma run_plot_nearest (l : list (float * float)) (fb fb' : FrameBuffer.t) :
  FrameBuffer.wf fb ->
  run (fun s fb => plot cosf sinf Ax Ay s.1 s.2 fb) l fb = Done fb' ->
  FrameBuffer.wf fb' /\
  FrameBuffer.w fb' = FrameBuffer.w fb /\
  FrameBuffer.h fb' = FrameBuffer.h fb /\
  forall x y, in_bounds fb x y ->
  forall d0 g0,
    FrameBuffer.depth fb !! index fb x y = Some d0 ->
    FrameBuffer.chars fb !! index fb x y = Some g0 ->
    exists d g,
      FrameBuffer.depth fb' !! index fb x y = Some d /\
      FrameBuffer.chars fb' !! index fb x y = Some g /\
      nearest_of cosf sinf Ax Ay (FrameBuffer.w fb) (FrameBuffer.h fb) x y l d0 g0 d g.
Proof.
  intros Hwf. revert fb'.
  induction l as [|s l IH] using rev_ind; intros fb' Hrun.
  - simpl in Hrun. injection Hrun as <-.
    do 3 (split; [auto|]). intros x y Hb d0 g0 Hd Hg.
    exists d0, g0. auto using nearest_of_nil.
  - rewrite run_app in Hrun.
    destruct (run _ l fb) as [fb1| |] eqn:Hl; try discriminate.
    destruct (IH fb1 eq_refl) as (Hwf1 & Hw1 & Hh1 & Hcells). clear IH.
    cbn in Hrun.
    destruct (plot cosf sinf Ax Ay s.1 s.2 fb1) as [fb2| |] eqn:Hp;
      try discriminate.
    cbn in Hrun. injection Hrun as <-.
    apply plot_done in Hp as (xs & ys & Hxs & Hys & Hcase).
    rewrite Hw1, Hh1 in Hxs, Hys.
    assert (forall x y, in_bounds fb1 x y <-> in_bounds fb x y) as Hbeq
      by (intros; unfold in_bounds; rewrite Hw1, Hh1; tauto).
    assert (forall x y, index fb1 x y = index fb x y) as Hieq
      by (intros; unfold index; rewrite Hw1; reflexivity).
    destruct Hcase as [[Hout ->]|(Hin & ch & Hch & Hset)].
    + (* the sample is discarded *)
      do 3 (split; [auto|]). intros x y Hb d0 g0 Hd Hg.
      destruct (Hcells x y Hb d0 g0 Hd Hg) as (d & g & Hd1 & Hg1 & Hn).
      exists d, g. do 2 (split; [auto|]).
      apply nearest_of_miss; [exact Hn|].
      intros [Hx Hy]. apply Hout, Hbeq.
      rewrite Hxs in Hx. rewrite Hys in Hy. congruence.
    + (* the sample reaches [set] *)
      destruct (set_in_bounds fb1 xs ys (invZ cosf sinf Ax Ay s.1 s.2) ch
                  Hwf1 Hin) as (d1 & Hd1 & Eset).
      rewrite Eset in Hset. injection Hset as <-.
      split; [destruct (flt d1 _); auto using wf_written|].
      split; [destruct (flt d1 _); auto|].
      split; [destruct (flt d1 _); auto|].
      intros x y Hb d0 g0 Hd Hg.
      destruct (Hcells x y Hb d0 g0 Hd Hg) as (d & g & Hdc & Hgc & Hn).
      destruct (decide (x = xs /\ y = ys)) as [[-> ->]|Hne].
      * (* on the cell *)
        rewrite Hieq in Hd1. rewrite Hd1 in Hdc. injection Hdc as <-.
        destruct (flt d1 _) eqn:Hlt.
        -- exists (invZ cosf sinf Ax Ay s.1 s.2), ch. simpl.
           rewrite Hieq.
           rewrite !list_lookup_insert_eq.
           ++ do 2 (split; [reflexivity|]).
              eapply nearest_of_accept; eauto. split; assumption.
           ++ rewrite <- Hieq. apply index_lt_chars; auto.
           ++ rewrite <- Hieq. apply index_lt_depth; auto.
        -- exists d1, g. do 2 (split; [auto|]).
           apply nearest_of_reject; assumption.
      * (* on another cell *)
        assert (index fb1 xs ys <> index fb x y) as Hidx.
        { rewrite <- (Hieq x y). intros E.
          apply index_inj in E; auto; [|apply Hbeq; exact Hb].
          apply Hne. destruct E; auto. }
        exists d, g.
        split; [|split].
        -- destruct (flt d1 _); simpl; auto.
           rewrite list_lookup_insert_ne; auto.
        -- destruct (flt d1 _); simpl; auto.
           rewrite list_lookup_insert_ne; auto.
        -- apply nearest_of_miss; [exact Hn|].
           intros [Hx Hy]. apply Hne.
           rewrite Hxs in Hx. rewrite Hys in Hy. split; congruence.
Qed.

End DepthTest.

(** ** Two writes to one cell *)

Section TwoWrites.
Import FrameBuffer.

Lemma written_written (fb : t) (i : nat) (d1 d2 : float) (c1 c2 : ascii) :
  written (written fb i d1 c1) i d2 c2 = written fb i d2 c2.
Proof.
  unfold written; simpl. rewrite !list_insert_insert_eq. reflexivity.
Qed.

(** [set] on a cell whose stored depth is known. *)
Lemma set_stored (fb : t) (x y : Z) (d0 invZ : float) (c : ascii) :
  wf fb -> in_bounds fb x y ->
  depth fb !! index fb x y = Some d0 ->
  set fb x y invZ c =
    Some (if flt d0 invZ then written fb (index fb x y) invZ c else fb).
Proof.
  intros Hwf Hb Hd.
  destruct (set_in_bounds fb x y invZ c Hwf Hb) as (d & Hd' & E).
  rewrite Hd in Hd'. injection Hd' as <-. exact E.
Qed.

Lemma depth_written (fb : t) (x y : Z) (d : float) (c : ascii) :
  wf fb -> in_bounds fb x y ->
  depth (written fb (index fb x y) d c) !! index fb x y = Some d /\
  chars (written fb (index fb x y) d c) !! index fb x y = Some c.
Proof.
  intros Hwf Hb. simpl. split; apply list_lookup_insert_eq.
  - apply index_lt_depth; assumption.
  - apply index_lt_chars; assumption.
Qed.

(** [set] again on the cell just written. *)
Lemma set_after_written (fb : t) (x y : Z) (d1 d2 : float) (c1 c2 : ascii) :
  wf fb -> in_bounds fb x y ->
  set (written fb (index fb x y) d1 c1) x y d2 c2 =
    Some (if flt d1 d2 then written fb (index fb x y) d2 c2
          else written fb (index fb x y) d1 c1).
Proof.
  intros Hwf Hb.
  rewrite (set_stored (written fb (index fb x y) d1 c1) x y d1).
  - change (index (written fb (index fb x y) d1 c1) x y) with (index fb x y).
    rewrite written_written. reflexivity.
  - apply wf_written, Hwf.
  - exact Hb.
  - change (index (written fb (index fb x y) d1 c1) x y) with (index fb x y).
    apply depth_written; assumption.
Qed.

(** The order of two writes of distinct depth does not matter. *)
Lemma two_writes_commute (fb : t) (x y : Z) (d1 d2 : float) (c1 c2 : ascii) :
  wf fb -> in_bounds fb x y -> flt d1 d2 = true ->
  exists fb' : t,
    (fb1 ← set fb x y d1 c1; set fb1 x y d2 c2) = Some fb' /\
    (fb2 ← set fb x y d2 c2; set fb2 x y d1 c1) = Some fb' /\
    forall d0, depth fb !! index fb x y = Some d0 -> flt d0 d2 = true ->
      depth fb' !! index fb x y = Some d2 /\
      chars fb' !! index fb x y = Some c2.
Proof.
  intros Hwf Hb H12.
  destruct (set_in_bounds fb x y d1 c1 Hwf Hb) as (d0 & Hd0 & _).
  rewrite !(set_stored fb x y d0) by assumption.
  pose proof (flt_asym _ _ H12) as H21.
  destruct (flt d0 d1) eqn:H01.
  - rewrite (flt_trans _ _ _ H01 H12). cbn.
    rewrite !set_after_written by assumption. rewrite H12, H21.
    eexists. split; [reflexivity|]. split; [reflexivity|].
    intros d0' _ _. apply depth_written; assumption.
  - destruct (flt d0 d2) eqn:H02; cbn.
    + rewrite set_after_written by assumption.
      rewrite (set_stored fb x y d0) by assumption. rewrite H02, H21.
      eexists. split; [reflexivity|]. split; [reflexivity|].
      intros d0' _ _. apply depth_written; assumption.
    + rewrite !(set_stored fb x y d0) by assumption. rewrite H01, H02.
      eexists. split; [reflexivity|]. split; [reflexivity|].
      intros d0' Hd0' Hlt. rewrite Hd0 in Hd0'. injection Hd0' as <-.
      congruence.
Qed.

End TwoWrites.

(** ** A frame at the angle 0

    With [cos_at_zero] and [sin_at_zero] every sample of the frame is
    the sample [theta = phi = 0]: the first pass writes it, the others
    fail the strict depth test. *)

Lemma length_succ_cons {A : Type} (l : list A) (n : nat) :
  length l = S n -> exists a l', l = a :: l'.
Proof. destruct l as [|a l']; [discriminate|eauto]. Qed.

Lemma frame_angles_nonempty : frame_angles <> [].
Proof.
  unfold frame_angles.
  destruct (length_succ_cons thetas 89 thetas_length) as (theta & ts & ->).
  destruct (length_succ_cons phis 314 phis_length) as (phi & ps & ->).
  discriminate.
Qed.

Lemma renderTorus_at_zero :
  renderTorus cos_at_zero sin_at_zero 315 (FrameBuffer.new 4 2) fzero fzero
  = Done (written (FrameBuffer.new 4 2) 7 (lit 1 3) blank).
Proof.
  rewrite renderTorus_run by lia.
  apply run_settles.
  - exact frame_angles_nonempty.
  - intros s. vm_compute. reflexivity.
  - intros s. vm_compute. reflexivity.
Qed.

(** * The claims *)

(** C1. Depth-test correctness.  With fuel for the longest loop the
    rasterizer never runs out of fuel, and in every frame it produces,
    every cell of the buffer holds a depth [d] and a glyph [g] such
    that no sample of the frame that landed on the cell has an inverse
    depth above [d], [d] is not below the sentinel, and [(d, g)] is
    either the sentinel and the blank (when no sample of the cell beat
    the sentinel, in particular when none landed there) or the inverse
    depth and the glyph of one sample that landed there.  Moreover two
    writes of distinct inverse depth to one cell give the same buffer
    in either order, and the nearer glyph is the one stored when it is
    nearer than what the cell held. *)
Theorem depth_test_keeps_nearest
    (cosf sinf : float -> float) (fuel : nat) (fb : FrameBuffer.t)
    (Ax Ay : float) :
  (315 <= fuel)%nat -> FrameBuffer.wf fb ->
  renderTorus cosf sinf fuel fb Ax Ay <> OutOfFuel /\
  (forall fb', renderTorus cosf sinf fuel fb Ax Ay = Done fb' ->
   forall x y, in_bounds fb x y ->
   exists d g,
     FrameBuffer.depth fb' !! index fb x y = Some d /\
     FrameBuffer.chars fb' !! index fb x y = Some g /\
     (forall s, In s frame_angles ->
        maps_to cosf sinf Ax Ay (FrameBuffer.w fb) (FrameBuffer.h fb) x y s ->
        flt d (invZ cosf sinf Ax Ay s.1 s.2) = false) /\
     flt d sentinel = false /\
     ((d = sentinel /\ g = blank) \/
      exists s, In s frame_angles /\
        maps_to cosf sinf Ax Ay (FrameBuffer.w fb) (FrameBuffer.h fb) x y s /\
        invZ cosf sinf Ax Ay s.1 s.2 = d /\
        sample_glyph cosf sinf Ax Ay s.1 s.2 = Some g) /\
     ((forall s, In s frame_angles ->
         ~ maps_to cosf sinf Ax Ay (FrameBuffer.w fb) (FrameBuffer.h fb) x y s) ->
      d = sentinel /\ g = blank) /\
     ((exists s, In s frame_angles /\
         maps_to cosf sinf Ax Ay (FrameBuffer.w fb) (FrameBuffer.h fb) x y s /\
         flt sentinel (invZ cosf sinf Ax Ay s.1 s.2) = true) ->
      exists s, In s frame_angles /\
        maps_to cosf sinf Ax Ay (FrameBuffer.w fb) (FrameBuffer.h fb) x y s /\
        invZ cosf sinf Ax Ay s.1 s.2 = d /\
        sample_glyph cosf sinf Ax Ay s.1 s.2 = Some g)) /\
  (forall x y d1 c1 d2 c2, in_bounds fb x y -> flt d1 d2 = true ->
   exists fb',
     (fb1 ← FrameBuffer.set fb x y d1 c1; FrameBuffer.set fb1 x y d2 c2)
       = Some fb' /\
     (fb2 ← FrameBuffer.set fb x y d2 c2; FrameBuffer.set fb2 x y d1 c1)
       = Some fb' /\
     forall d0, FrameBuffer.depth fb !! index fb x y = Some d0 ->
       flt d0 d2 = true ->
       FrameBuffer.depth fb' !! index fb x y = Some d2 /\
       FrameBuffer.chars fb' !! index fb x y = Some c2).
Proof.
  intros Hfuel Hwf. split; [apply renderTorus_terminates; exact Hfuel|].
  split; [|intros; apply two_writes_commute; assumption].
  intros fb' Hrun x y Hb.
  rewrite renderTorus_run in Hrun by exact Hfuel.
  apply run_plot_nearest in Hrun as (_ & _ & _ & Hcells);
    [|apply wf_clear; exact Hwf].
  assert (index (FrameBuffer.clear fb) x y = index fb x y) as Hi by reflexivity.
  assert (in_bounds (FrameBuffer.clear fb) x y) as Hbc by exact Hb.
  destruct (Hcells x y Hbc sentinel blank) as (d & g & Hd & Hg & Hn).
  - rewrite Hi. simpl. apply lookup_replicate_2.
    apply index_lt_depth; assumption.
  - rewrite Hi. simpl. apply lookup_replicate_2.
    apply index_lt_chars; assumption.
  - rewrite Hi in Hd, Hg. simpl in Hn. destruct Hn as [Hno Hlow Hatt].
    exists d, g. do 5 (split; [assumption|]). split.
    + intros Hnone. destruct Hatt as [Hatt|(s & Hin & Hm & _)]; [exact Hatt|].
      exfalso. exact (Hnone s Hin Hm).
    + intros (s & Hin & Hm & Hlt).
      destruct Hatt as [[-> _]|Hatt]; [|exact Hatt].
      rewrite (Hno s Hin Hm) in Hlt. discriminate.
Qed.

Lemma depth_test_keeps_nearest_witness :
  exists fb' d g,
    renderTorus cos_at_zero sin_at_zero 315 (FrameBuffer.new 4 2) fzero fzero
      = Done fb' /\
    FrameBuffer.depth fb' !! index (FrameBuffer.new 4 2) 3 1 = Some d /\
    FrameBuffer.chars fb' !! index (FrameBuffer.new 4 2) 3 1 = Some g /\
    flt d sentinel = false.
Proof.
  destruct (depth_test_keeps_nearest cos_at_zero sin_at_zero 315
              (FrameBuffer.new 4 2) fzero fzero) as (_ & Hframe & _).
  - lia.
  - apply wf_new; lia.
  - destruct (Hframe _ renderTorus_at_zero 3 1)
      as (d & g & Hd & Hg & _ & Hlow & _).
    + unfold in_bounds; simpl; lia.
    + eexists _, d, g. split; [exact renderTorus_at_zero|]. auto.
Defined.

(** C2, as the code has it.  [FrameBuffer::set] only performs the
    depth test: on a cell of the buffer it overwrites glyph and depth
    exactly when the new inverse depth exceeds the stored one, and is
    otherwise a no-op.  The bounds are checked by its caller: a sample
    of [renderTorus] whose cell is outside the buffer leaves the buffer
    unchanged without calling [set], and every call of [set] that
    [renderTorus] makes is on a cell of the buffer. *)
Theorem depth_test_in_set_bounds_in_caller
    (cosf sinf : float -> float) (fb : FrameBuffer.t) :
  FrameBuffer.wf fb ->
  (forall x y d c, in_bounds fb x y ->
   exists d0,
     FrameBuffer.depth fb !! index fb x y = Some d0 /\
     FrameBuffer.set fb x y d c =
       Some (if fgt d d0 then written fb (index fb x y) d c else fb)) /\
  (forall Ax Ay theta phi x y,
     cell_x cosf sinf (FrameBuffer.w fb) (FrameBuffer.h fb) Ax Ay theta phi
       = Some x ->
     cell_y cosf sinf (FrameBuffer.w fb) (FrameBuffer.h fb) Ax Ay theta phi
       = Some y ->
     ~ in_bounds fb x y ->
     plot cosf sinf Ax Ay theta phi fb = Done fb) /\
  (forall Ax Ay theta phi fb',
     plot cosf sinf Ax Ay theta phi fb = Done fb' ->
     fb' = fb \/
     exists x y ch,
       in_bounds fb x y /\
       FrameBuffer.set fb x y (invZ cosf sinf Ax Ay theta phi) ch = Some fb').
Proof.
  intros Hwf. split; [|split].
  - intros x y d c Hb. apply set_in_bounds; assumption.
  - intros. apply plot_discards with (x := x) (y := y); assumption.
  - intros Ax Ay theta phi fb' Hp.
    apply plot_done in Hp as (x & y & _ & _ & [[_ ->]|(Hb & ch & _ & Hs)]).
    + left. reflexivity.
    + right. exists x, y, ch. auto.
Qed.

Lemma depth_test_in_set_bounds_in_caller_witness :
  FrameBuffer.wf (FrameBuffer.new 4 2) /\
  exists d0,
    FrameBuffer.depth (FrameBuffer.new 4 2) !! index (FrameBuffer.new 4 2) 3 1
      = Some d0 /\
    FrameBuffer.set (FrameBuffer.new 4 2) 3 1 fone "@" =
      Some (if fgt fone d0
            then written (FrameBuffer.new 4 2) (index (FrameBuffer.new 4 2) 3 1)
                   fone "@"
            else FrameBuffer.new 4 2).
Proof.
  assert (FrameBuffer.wf (FrameBuffer.new 4 2)) as Hwf by (apply wf_new; lia).
  split; [exact Hwf|].
  apply (depth_test_in_set_bounds_in_caller cos_at_zero sin_at_zero
           (FrameBuffer.new 4 2) Hwf).
  unfold in_bounds; simpl; lia.
Defined.

(** C2, counterexample.  [set] itself does not check the bounds: on a
    2 by 2 buffer the call [set(2, 0, 0.0f, '@')], whose [x] is out of
    bounds, is not a no-op: it overwrites the cell [(0, 1)]. *)
Lemma set_out_of_bounds_writes :
  ~ in_bounds (FrameBuffer.new 2 2) 2 0 /\
  exists fb',
    FrameBuffer.set (FrameBuffer.new 2 2) 2 0 fzero "@" = Some fb' /\
    fb' <> FrameBuffer.new 2 2 /\
    FrameBuffer.get fb' 0 1 = Some "@"%char /\
    FrameBuffer.get (FrameBuffer.new 2 2) 0 1 = Some blank.
Proof.
  split.
  - unfold in_bounds; simpl; lia.
  - eexists. split; [vm_compute; reflexivity|].
    split; [discriminate|]. split; reflexivity.
Qed.

(** ** Equal depths *)

Lemma flt_feq_r (a b c : float) : SFeqb b c = true -> flt a b = flt a c.
Proof.
  unfold SFeqb.
  destruct b as [sb|sb| |sb mb eb], c as [sc|sc| |sc mc ec];
    try destruct sb; try destruct sc; try discriminate;
    try (destruct a as [sa|[]| |[] ma ea]; reflexivity).
  - rewrite SFcompare_finite_neg.
    destruct (Z.compare_spec eb ec); try discriminate.
    destruct (Pos.compare_spec mb mc); try discriminate.
    subst. reflexivity.
  - rewrite SFcompare_finite_pos.
    destruct (Z.compare_spec eb ec); try discriminate.
    destruct (Pos.compare_spec mb mc); try discriminate.
    subst. reflexivity.
Qed.

Lemma same_depth_not_flt (a b : float) : same_depth a b -> flt b a = false.
Proof.
  intros [->|E]; [apply flt_irrefl|apply feq_not_flt; exact E].
Qed.

Lemma same_depth_flt_l (a b c : float) :
  same_depth b c -> flt a c = false -> flt a b = false.
Proof.
  intros [->|E] H; [exact H|]. rewrite (flt_feq_r a b c E). exact H.
Qed.

(** C10. The depth test is strict.  A write whose inverse depth equals
    the depth the cell holds leaves the buffer as it is; hence of two
    writes of equal inverse depth to one cell the second never changes
    anything, and when the first one is accepted its glyph stays. *)
Theorem depth_test_is_strict
    (fb : FrameBuffer.t) (x y : Z) (d0 : float) :
  FrameBuffer.wf fb -> in_bounds fb x y ->
  FrameBuffer.depth fb !! index fb x y = Some d0 ->
  (forall d c, same_depth d d0 ->
     FrameBuffer.set fb x y d c = Some fb) /\
  (forall d d' c1 c2, same_depth d' d ->
   exists fb1,
     FrameBuffer.set fb x y d c1 = Some fb1 /\
     FrameBuffer.set fb1 x y d' c2 = Some fb1 /\
     (fgt d d0 = true ->
      FrameBuffer.chars fb1 !! index fb x y = Some c1 /\
      FrameBuffer.depth fb1 !! index fb x y = Some d)).
Proof.
  intros Hwf Hb Hd0. split.
  - intros d c Hs. rewrite (set_stored fb x y d0) by assumption.
    rewrite (same_depth_not_flt _ _ Hs). reflexivity.
  - intros d d' c1 c2 Hs. rewrite (set_stored fb x y d0) by assumption.
    unfold fgt, flt. fold (flt d0 d).
    destruct (flt d0 d) eqn:Hlt.
    + eexists. split; [reflexivity|].
      rewrite set_after_written by assumption.
      rewrite (same_depth_not_flt _ _ Hs).
      split; [reflexivity|]. intros _.
      destruct (depth_written fb x y d c1 Hwf Hb). auto.
    + exists fb. split; [reflexivity|].
      rewrite (set_stored fb x y d0) by assumption.
      rewrite (same_depth_flt_l d0 d' d Hs Hlt).
      split; [reflexivity|]. discriminate.
Qed.

Lemma depth_test_is_strict_witness :
  exists fb1,
    FrameBuffer.set (FrameBuffer.new 4 2) 3 1 fone "a" = Some fb1 /\
    FrameBuffer.set fb1 3 1 fone "b" = Some fb1 /\
    (fgt fone sentinel = true ->
     FrameBuffer.chars fb1 !! index (FrameBuffer.new 4 2) 3 1 = Some "a"%char /\
     FrameBuffer.depth fb1 !! index (FrameBuffer.new 4 2) 3 1 = Some fone).
Proof.
  apply (depth_test_is_strict (FrameBuffer.new 4 2) 3 1 sentinel).
  - apply wf_new; lia.
  - unfold in_bounds; simpl; lia.
  - reflexivity.
  - left. reflexivity.
Defined.

(** ** Shading of unlit samples *)

Lemma luminance_clamps (n : Vec3) :
  flt fzero (dot n light) = false -> luminance n = fzero.
Proof. unfold luminance, fmax. intros ->. reflexivity. Qed.

Lemma glyph_of_zero : glyph_of fzero = Some blank.
Proof. reflexivity. Qed.

(** C9. The darkest glyph of the ramp is the blank that [clear]
    stores in every cell.  A sample whose luminance clamps to 0
    (its normal does not face the light) and that passes the depth
    test on a cell is therefore written as a blank, yet its inverse
    depth is recorded, and any later write to that cell that is not
    nearer is rejected. *)
Theorem unlit_sample_is_blank_but_occludes
    (cosf sinf : float -> float) (Ax Ay theta phi : float)
    (fb : FrameBuffer.t) (x y : Z) (d0 : float) :
  FrameBuffer.wf fb -> in_bounds fb x y ->
  cell_x cosf sinf (FrameBuffer.w fb) (FrameBuffer.h fb) Ax Ay theta phi
    = Some x ->
  cell_y cosf sinf (FrameBuffer.w fb) (FrameBuffer.h fb) Ax Ay theta phi
    = Some y ->
  fgt (dot (rotated_n cosf sinf Ax Ay theta phi) light) fzero = false ->
  FrameBuffer.depth fb !! index fb x y = Some d0 ->
  fgt (invZ cosf sinf Ax Ay theta phi) d0 = true ->
  head shades = Some blank /\
  (forall i, (i < length (FrameBuffer.chars fb))%nat ->
     FrameBuffer.chars (FrameBuffer.clear fb) !! i = Some blank) /\
  luminance (rotated_n cosf sinf Ax Ay theta phi) = fzero /\
  sample_glyph cosf sinf Ax Ay theta phi = Some blank /\
  exists fb',
    plot cosf sinf Ax Ay theta phi fb = Done fb' /\
    FrameBuffer.chars fb' !! index fb x y = Some blank /\
    FrameBuffer.depth fb' !! index fb x y
      = Some (invZ cosf sinf Ax Ay theta phi) /\
    forall d' c', fgt d' (invZ cosf sinf Ax Ay theta phi) = false ->
      FrameBuffer.set fb' x y d' c' = Some fb'.
Proof.
  intros Hwf Hb Hx Hy Hdot Hd0 Hlt.
  rewrite fgt_flt in Hdot, Hlt.
  pose proof (luminance_clamps _ Hdot) as Hlum.
  assert (sample_glyph cosf sinf Ax Ay theta phi = Some blank) as Hg
    by (unfold sample_glyph; rewrite Hlum; apply glyph_of_zero).
  split; [reflexivity|].
  split; [intros i Hi; simpl; apply lookup_replicate_2; exact Hi|].
  split; [exact Hlum|]. split; [exact Hg|].
  exists (written fb (index fb x y) (invZ cosf sinf Ax Ay theta phi) blank).
  split; [|split; [|split]].
  - rewrite (plot_in_bounds cosf sinf Ax Ay theta phi fb x y blank)
      by assumption.
    rewrite (set_stored fb x y d0), Hlt by assumption. reflexivity.
  - apply depth_written; assumption.
  - apply depth_written; assumption.
  - intros d' c' Hd'. rewrite fgt_flt in Hd'.
    rewrite set_after_written, Hd' by assumption. reflexivity.
Qed.

Lemma unlit_sample_is_blank_but_occludes_witness :
  sample_glyph cos_at_zero sin_at_zero fzero fzero fzero fzero = Some blank /\
  exists fb',
    plot cos_at_zero sin_at_zero fzero fzero fzero fzero (FrameBuffer.new 4 2)
      = Done fb' /\
    FrameBuffer.chars fb' !! index (FrameBuffer.new 4 2) 3 1 = Some blank /\
    FrameBuffer.depth fb' !! index (FrameBuffer.new 4 2) 3 1
      = Some (invZ cos_at_zero sin_at_zero fzero fzero fzero fzero) /\
    forall d' c',
      fgt d' (invZ cos_at_zero sin_at_zero fzero fzero fzero fzero) = false ->
      FrameBuffer.set fb' 3 1 d' c' = Some fb'.
Proof.
  apply (unlit_sample_is_blank_but_occludes cos_at_zero sin_at_zero
           fzero fzero fzero fzero (FrameBuffer.new 4 2) 3 1 sentinel).
  - apply wf_new; lia.
  - unfold in_bounds; simpl; lia.
  - vm_compute; reflexivity.
  - vm_compute; reflexivity.
  - vm_compute; reflexivity.
  - vm_compute; reflexivity.
  - vm_compute; reflexivity.
Defined.

(** ** Conversion to [int] is truncation *)

Lemma trunc_Z_truncates (f : float) (z : Z) :
  trunc_Z f = Some z -> is_finite f /\ truncates (mantissa f) (exponent f) z.
Proof.
  destruct f as [s|s| |s m e]; try discriminate.
  - intros [= <-]. split; [exact I|]. reflexivity.
  - unfold trunc_Z, mantissa, exponent, truncates.
    intros [= <-]. split; [exact I|].
    destruct e as [|p|p].
    + rewrite Z.shiftl_0_r. change (0 <=? 0) with true. cbv iota.
      rewrite Z.pow_0_r. destruct s; lia.
    + change (0 <=? Z.pos p) with true. cbv iota.
      rewrite Z.shiftl_mul_pow2 by lia. destruct s; lia.
    + change (0 <=? Z.neg p) with false. cbv iota.
      rewrite Z.shiftr_div_pow2 by lia.
      change (- Z.neg p) with (Z.pos p).
      assert (0 < 2 ^ Z.pos p) as HP by (apply Z.pow_pos_nonneg; lia).
      pose proof (Z.div_mod (Z.pos m) (2 ^ Z.pos p) ltac:(lia)) as Hdm.
      pose proof (Z.mod_pos_bound (Z.pos m) (2 ^ Z.pos p) HP) as Hmod.
      set (P := 2 ^ Z.pos p) in *. set (q := Z.pos m / P) in *.
      destruct s; split; intros; nia.
Qed.

Lemma to_int_truncates (f : float) (z : Z) :
  to_int f = Some z ->
  is_finite f /\ truncates (mantissa f) (exponent f) z /\
  int_min <= z <= int_max.
Proof.
  unfold to_int. destruct (trunc_Z f) as [z0|] eqn:E; [|discriminate].
  destruct ((int_min <=? z0) && (z0 <=? int_max)) eqn:Hr; [|discriminate].
  intros [= <-]. apply trunc_Z_truncates in E as [Hf Ht].
  split; [exact Hf|]. split; [exact Ht|]. lia.
Qed.

(** C3, as the code has it.  The cell of a sample is the operand
    [W/2 + scale * aspect * xProjected] (resp. [H/2 - scale *
    yProjected]) truncated toward zero, as [static_cast<int>] does, and
    a sample whose cell is outside the buffer is discarded: the buffer
    is left unchanged. *)
Theorem cell_is_truncation
    (cosf sinf : float -> float) (fb : FrameBuffer.t)
    (Ax Ay theta phi : float) (x y : Z) :
  cell_x cosf sinf (FrameBuffer.w fb) (FrameBuffer.h fb) Ax Ay theta phi
    = Some x ->
  cell_y cosf sinf (FrameBuffer.w fb) (FrameBuffer.h fb) Ax Ay theta phi
    = Some y ->
  let xf := x_float cosf sinf (FrameBuffer.w fb) (FrameBuffer.h fb)
              Ax Ay theta phi in
  let yf := y_float cosf sinf (FrameBuffer.w fb) (FrameBuffer.h fb)
              Ax Ay theta phi in
  truncates (mantissa xf) (exponent xf) x /\
  truncates (mantissa yf) (exponent yf) y /\
  (~ in_bounds fb x y -> plot cosf sinf Ax Ay theta phi fb = Done fb).
Proof.
  intros Hx Hy xf yf.
  split; [apply (to_int_truncates xf x Hx)|].
  split; [apply (to_int_truncates yf y Hy)|].
  intros Hb. apply plot_discards with (x := x) (y := y); assumption.
Qed.

Lemma cell_is_truncation_witness :
  truncates 12574720 (-15) 383 /\ truncates 13500416 (-18) 51.
Proof.
  destruct (cell_is_truncation cos_at_zero sin_at_zero
              (FrameBuffer.new 613 103) fzero fzero fzero fzero 383 51)
    as (Hx & Hy & _).
  - vm_compute; reflexivity.
  - vm_compute; reflexivity.
  - split; [exact Hx|exact Hy].
Defined.

(** C3, counterexample.  On the 613 by 103 buffer of an 80 by 24
    terminal, the sample [theta = phi = 0] at [Ax = Ay = 0] has the
    operand 383.75: the code stores it in column 383, the nearest
    integer is 384. *)
Lemma cell_x_is_not_rounded :
  fbW 24 80 = Some 613 /\ fbH 24 80 = Some 103 /\
  x_float cos_at_zero sin_at_zero 613 103 fzero fzero fzero fzero
    = lit 38375 100 /\
  cell_x cos_at_zero sin_at_zero 613 103 fzero fzero fzero fzero = Some 383 /\
  cell_x_rounded cos_at_zero sin_at_zero 613 103 fzero fzero fzero fzero
    = Some 384.
Proof. vm_compute. auto 10. Qed.

(** ** The sample at [theta = phi = 0] of the unrotated torus *)

Section FirstSample.

Variables cosf sinf : float -> float.
Hypothesis cos_0 : cosf fzero = fone.
Hypothesis sin_0 : sinf fzero = fzero.









End FirstSample.

(** ** Rounding of binary32, from [SpecFloat] *)

Module RoundingFacts.
Import Rounding.

Section Digits.

Lemma digits2_pos_bounds (m : positive) :
  2 ^ (Z.pos (digits2_pos m) - 1) <= Z.pos m < 2 ^ Z.pos (digits2_pos m).
Proof.
  induction m as [m IH|m IH|]; simpl digits2_pos.
  - rewrite Pos2Z.inj_succ.
    replace (Z.succ (Z.pos (digits2_pos m)) - 1) with (Z.pos (digits2_pos m)) by lia.
    rewrite Z.pow_succ_r by lia.
    assert (2 ^ Z.pos (digits2_pos m) = 2 * 2 ^ (Z.pos (digits2_pos m) - 1)) as E.
    { rewrite <- Z.pow_succ_r by lia. f_equal. lia. }
    lia.
  - rewrite Pos2Z.inj_succ.
    replace (Z.succ (Z.pos (digits2_pos m)) - 1) with (Z.pos (digits2_pos m)) by lia.
    rewrite Z.pow_succ_r by lia.
    assert (2 ^ Z.pos (digits2_pos m) = 2 * 2 ^ (Z.pos (digits2_pos m) - 1)) as E.
    { rewrite <- Z.pow_succ_r by lia. f_equal. lia. }
    lia.
  - simpl. lia.
Qed.

Lemma pow2_lt_inv (a b : Z) : 0 <= a -> 0 <= b -> 2 ^ a < 2 ^ b -> a < b.
Proof.
  intros Ha Hb H. destruct (Z_lt_le_dec a b) as [|Hle]; [assumption|].
  pose proof (Z.pow_le_mono_r 2 b a ltac:(lia) Hle). lia.
Qed.

(** The number of binary digits is determined by the binade. *)
Lemma digits2_pos_unique (m : positive) (d : Z) :
  2 ^ (d - 1) <= Z.pos m < 2 ^ d -> Z.pos (digits2_pos m) = d.
Proof.
  intros [Hlo Hhi]. pose proof (digits2_pos_bounds m) as [Hlo' Hhi'].
  assert (0 < d) as Hd.
  { destruct (Z_lt_le_dec 0 d); [assumption|].
    assert (2 ^ d <= 2 ^ 0) by (destruct (Z.eq_dec d 0) as [->|]; [lia|rewrite Z.pow_neg_r by lia; simpl; lia]).
    simpl in *. lia. }
  assert (Z.pos (digits2_pos m) - 1 < d).
  { apply pow2_lt_inv; lia. }
  assert (d - 1 < Z.pos (digits2_pos m)).
  { apply pow2_lt_inv; lia. }
  lia.
Qed.

Lemma digits2_pos_mono (m m' : positive) :
  (m <= m')%positive -> Z.pos (digits2_pos m) <= Z.pos (digits2_pos m').
Proof.
  intros H. pose proof (digits2_pos_bounds m) as [Hlo _].
  pose proof (digits2_pos_bounds m') as [_ Hhi].
  assert (Z.pos (digits2_pos m) - 1 < Z.pos (digits2_pos m')); [|lia].
  apply pow2_lt_inv; lia.
Qed.

End Digits.

Section Shift.

Lemma iter_pos_nat {A : Type} (f : A -> A) (p : positive) (x : A) :
  SpecFloat.iter_pos f p x = Nat.iter (Pos.to_nat p) f x.
Proof.
  revert x. induction p as [p IH|p IH|]; intros x; simpl SpecFloat.iter_pos.
  - rewrite !IH, Pos2Nat.inj_xI.
    replace (S (2 * Pos.to_nat p)) with (Pos.to_nat p + (Pos.to_nat p + 1))%nat by lia.
    rewrite !Nat.iter_add. reflexivity.
  - rewrite !IH, Pos2Nat.inj_xO.
    replace (2 * Pos.to_nat p)%nat with (Pos.to_nat p + Pos.to_nat p)%nat by lia.
    rewrite Nat.iter_add. reflexivity.
  - reflexivity.
Qed.

Lemma shr_1_nonneg (m : Z) (r s : bool) :
  0 <= m ->
  shr_1 (Build_shr_record m r s) = Build_shr_record (m / 2) (Z.odd m) (r || s).
Proof.
  intros Hm. rewrite <- Z.div2_div.
  destruct m as [|[p|p|]|p]; try reflexivity. lia.
Qed.

(** The record after [j + 1] single shifts of an exact mantissa. *)
Lemma shr_iter (m : Z) (j : nat) :
  0 <= m ->
  Nat.iter (S j) shr_1 (Build_shr_record m false false) =
  Build_shr_record (m / 2 ^ Z.of_nat (S j))
                   (Z.odd (m / 2 ^ Z.of_nat j))
                   (negb (m mod 2 ^ Z.of_nat j =? 0)).
Proof.
  intros Hm. induction j as [|j IH].
  - change (Nat.iter 1 shr_1 (Build_shr_record m false false))
      with (shr_1 (Build_shr_record m false false)).
    rewrite shr_1_nonneg by exact Hm.
    change (2 ^ Z.of_nat 1) with 2. change (2 ^ Z.of_nat 0) with 1.
    rewrite Z.div_1_r, Z.mod_1_r. reflexivity.
  - rewrite Nat.iter_succ, IH.
    assert (0 < 2 ^ Z.of_nat j) as Hj by (apply Z.pow_pos_nonneg; lia).
    assert (2 ^ Z.of_nat (S j) = 2 ^ Z.of_nat j * 2) as Ej
      by (rewrite Nat2Z.inj_succ, Z.pow_succ_r by lia; lia).
    assert (2 ^ Z.of_nat (S (S j)) = 2 ^ Z.of_nat (S j) * 2) as Ej'
      by (rewrite (Nat2Z.inj_succ (S j)), Z.pow_succ_r by lia; lia).
    rewrite shr_1_nonneg by (apply Z.div_pos; lia).
    f_equal.
    + rewrite Ej', Z.div_div by lia. reflexivity.
    + rewrite Ej, Z.rem_mul_r by lia.
      rewrite (Zmod_odd (m / 2 ^ Z.of_nat j)).
      pose proof (Z.mod_pos_bound m (2 ^ Z.of_nat j) Hj) as Hb.
      destruct (Z.odd (m / 2 ^ Z.of_nat j)); simpl.
      * symmetry. apply negb_true_iff, Z.eqb_neq. lia.
      * rewrite Z.mul_0_r, Z.add_0_r. reflexivity.
Qed.

(** Shifting an exact mantissa right by [n > 0] and rounding it is
    rounding the quotient to nearest even. *)
Lemma shr_round (m e n : Z) :
  0 <= m -> 0 < n ->
  let '(mrs, e') := shr (Build_shr_record m false false) e n in
  round_nearest_even (shr_m mrs) (loc_of_shr_record mrs) = rne m n /\
  e' = e + n.
Proof.
  intros Hm Hn. destruct n as [|p|p]; try lia. unfold shr.
  split; [|reflexivity].
  rewrite iter_pos_nat.
  destruct (Pos.to_nat p) as [|j] eqn:Ep; [lia|].
  rewrite shr_iter by exact Hm.
  assert (Z.pos p = Z.of_nat (S j)) as -> by lia.
  assert (0 < 2 ^ Z.of_nat j) as Hj by (apply Z.pow_pos_nonneg; lia).
  assert (2 ^ Z.of_nat (S j) = 2 ^ Z.of_nat j * 2) as Ej
    by (rewrite Nat2Z.inj_succ, Z.pow_succ_r by lia; lia).
  unfold rne. set (q := m / 2 ^ Z.of_nat (S j)).
  rewrite Ej at 1. rewrite Z.rem_mul_r by lia.
  rewrite (Zmod_odd (m / 2 ^ Z.of_nat j)).
  pose proof (Z.mod_pos_bound m (2 ^ Z.of_nat j) Hj) as Hb.
  destruct (Z.odd (m / 2 ^ Z.of_nat j)).
  - destruct (Z.eqb_spec (m mod 2 ^ Z.of_nat j) 0) as [E0|E0];
      cbv [shr_m shr_r shr_s loc_of_shr_record round_nearest_even negb].
    + replace (2 * (m mod 2 ^ Z.of_nat j + 2 ^ Z.of_nat j * 1) ?= 2 ^ Z.of_nat (S j))
        with Eq by (symmetry; apply Z.compare_eq_iff; lia).
      reflexivity.
    + replace (2 * (m mod 2 ^ Z.of_nat j + 2 ^ Z.of_nat j * 1) ?= 2 ^ Z.of_nat (S j))
        with Gt by (symmetry; apply Z.compare_gt_iff; lia).
      reflexivity.
  - replace (2 * (m mod 2 ^ Z.of_nat j + 2 ^ Z.of_nat j * 0) ?= 2 ^ Z.of_nat (S j))
      with Lt by (symmetry; apply Z.compare_lt_iff; lia).
    destruct (m mod 2 ^ Z.of_nat j =? 0); reflexivity.
Qed.

End Shift.

Lemma fexp_32 (x : Z) : fexp prec emax x = fexp32 x.
Proof. reflexivity. Qed.

Lemma rne_0 (m : Z) : rne m 0 = m.
Proof.
  unfold rne. rewrite Z.pow_0_r, Z.mod_1_r, Z.div_1_r. reflexivity.
Qed.

Lemma rne_bounds (m n : Z) :
  0 <= m -> 0 <= n -> m / 2 ^ n <= rne m n <= m / 2 ^ n + 1.
Proof.
  intros Hm Hn. unfold rne.
  destruct (2 * (m mod 2 ^ n) ?= 2 ^ n); [destruct (Z.even _)| |]; lia.
Qed.

Lemma rne_nonneg (m n : Z) : 0 <= m -> 0 <= n -> 0 <= rne m n.
Proof.
  intros Hm Hn. pose proof (rne_bounds m n Hm Hn).
  assert (0 <= m / 2 ^ n) by (apply Z.div_pos; [lia|apply Z.pow_pos_nonneg; lia]).
  lia.
Qed.

(** The rounded mantissa has at most 24 bits, or is 2^24. *)
Lemma rne_target_le (m : positive) (e : Z) :
  e <= target_exp m e ->
  rne (Z.pos m) (target_exp m e - e) <= 2 ^ 24.
Proof.
  intros Hn. set (n := target_exp m e - e).
  pose proof (rne_bounds (Z.pos m) n ltac:(lia) ltac:(lia)) as [_ Hhi].
  pose proof (digits2_pos_bounds m) as [_ Hd].
  set (d := Z.pos (digits2_pos m)) in *.
  assert (d - 24 <= n) as Hdn by (unfold n, target_exp, fexp32; fold d; lia).
  assert (Z.pos m / 2 ^ n < 2 ^ 24); [|lia].
  apply Z.div_lt_upper_bound; [apply Z.pow_pos_nonneg; lia|].
  rewrite <- Z.pow_add_r by lia.
  eapply Z.lt_le_trans; [exact Hd|]. apply Z.pow_le_mono_r; lia.
Qed.

(** Second stage of [binary_round_aux]: the rounded mantissa is put
    back into 24 bits. *)
Lemma renormalise (s : bool) (M E : Z) :
  -149 <= E -> 0 <= M <= 2 ^ 24 ->
  (let '(mrs, e') := shr_fexp prec emax M E loc_Exact in
   match shr_m mrs with
   | Z0 => S754_zero s
   | Zpos m => if e' <=? emax - prec then S754_finite s m e'
               else S754_infinity s
   | Zneg _ => S754_nan
   end) = finish s M E.
Proof.
  intros HE HM. unfold shr_fexp. change (fexp prec emax) with fexp32.
  change (emax - prec) with 104.
  destruct M as [|p|p]; [| |lia].
  - simpl Zdigits2.
    assert (fexp32 (0 + E) - E <= 0) as Hn2 by (unfold fexp32; lia).
    unfold shr. destruct (fexp32 (0 + E) - E) as [|k|k]; try lia; reflexivity.
  - simpl Zdigits2. unfold finish.
    destruct (Z.eqb_spec (Z.pos p) (2 ^ 24)) as [Ep|Ep].
    + assert (p = 16777216%positive) as -> by lia.
      assert (fexp32 (Z.pos (digits2_pos 16777216) + E) - E = 1) as ->
        by (change (digits2_pos 16777216) with 25%positive;
            unfold fexp32; lia).
      reflexivity.
    + pose proof (digits2_pos_bounds p) as [Hlo _].
      assert (Z.pos (digits2_pos p) <= 24) as Hd.
      { assert (Z.pos (digits2_pos p) - 1 < 24); [|lia].
        apply pow2_lt_inv; lia. }
      assert (fexp32 (Z.pos (digits2_pos p) + E) - E <= 0) as Hn2
        by (unfold fexp32; lia).
      unfold shr.
      destruct (fexp32 (Z.pos (digits2_pos p) + E) - E) as [|k|k]; try lia;
        reflexivity.
Qed.

(** First stage: the mantissa is shifted to the target exponent. *)
Lemma shift_to_target (m : positive) (e : Z) :
  e <= target_exp m e ->
  exists mrs : shr_record,
    shr_fexp prec emax (Z.pos m) e loc_Exact = (mrs, target_exp m e) /\
    round_nearest_even (shr_m mrs) (loc_of_shr_record mrs)
      = rne (Z.pos m) (target_exp m e - e).
Proof.
  intros Hn. unfold shr_fexp. change (fexp prec emax) with fexp32.
  simpl Zdigits2. fold (target_exp m e).
  set (E := target_exp m e) in *. set (n := E - e) in *.
  change (shr_record_of_loc (Z.pos m) loc_Exact)
    with (Build_shr_record (Z.pos m) false false).
  destruct (Z.eq_dec n 0) as [E0|E0].
  - rewrite E0. exists (Build_shr_record (Z.pos m) false false).
    split; [simpl; f_equal; lia|]. rewrite rne_0. reflexivity.
  - pose proof (shr_round (Z.pos m) e n ltac:(lia) ltac:(lia)) as H.
    destruct (shr _ e n) as [mrs e'] eqn:Es. destruct H as [H1 H2].
    exists mrs. split; [f_equal; lia|exact H1].
Qed.

Lemma binary_round_aux_exact (s : bool) (m : positive) (e : Z) :
  e <= target_exp m e ->
  binary_round_aux prec emax s (Z.pos m) e loc_Exact =
  finish s (rne (Z.pos m) (target_exp m e - e)) (target_exp m e).
Proof.
  intros Hn. unfold binary_round_aux.
  destruct (shift_to_target m e Hn) as (mrs & -> & ->).
  apply renormalise.
  - unfold target_exp, fexp32; lia.
  - split; [apply rne_nonneg; lia|apply rne_target_le; exact Hn].
Qed.

Lemma pow2_pos (n : Z) : 0 <= n -> 0 < 2 ^ n.
Proof. intros. apply Z.pow_pos_nonneg; lia. Qed.

(** *** Rounding to nearest even is monotone and scale invariant *)

Lemma rne_mono (a b n : Z) :
  0 <= a <= b -> 0 <= n -> rne a n <= rne b n.
Proof.
  intros Hab Hn. pose proof (pow2_pos n Hn) as HP.
  pose proof (Z.div_le_mono a b (2 ^ n) HP ltac:(lia)) as Hq.
  destruct (Z.eq_dec (a / 2 ^ n) (b / 2 ^ n)) as [Eq|Ne].
  - pose proof (Z.div_mod a (2 ^ n) ltac:(lia)) as Ha.
    pose proof (Z.div_mod b (2 ^ n) ltac:(lia)) as Hb.
    assert (a mod 2 ^ n <= b mod 2 ^ n) as Hr by (rewrite Eq in Ha; lia).
    unfold rne. rewrite Eq.
    destruct (Z.compare_spec (2 * (a mod 2 ^ n)) (2 ^ n));
      destruct (Z.compare_spec (2 * (b mod 2 ^ n)) (2 ^ n));
      destruct (Z.even (b / 2 ^ n)); lia.
  - pose proof (rne_bounds a n ltac:(lia) Hn).
    pose proof (rne_bounds b n ltac:(lia) Hn). lia.
Qed.

Lemma rne_scale (m n j : Z) :
  0 <= n -> 0 <= j -> rne (m * 2 ^ j) (n + j) = rne m n.
Proof.
  intros Hn Hj. pose proof (pow2_pos n Hn). pose proof (pow2_pos j Hj).
  unfold rne. rewrite Z.pow_add_r by lia.
  rewrite Z.div_mul_cancel_r by lia.
  rewrite Z.mul_mod_distr_r by lia.
  replace (2 * (m mod 2 ^ n * 2 ^ j)) with (2 * (m mod 2 ^ n) * 2 ^ j) by ring.
  rewrite <- Zmult_compare_compat_r by lia. reflexivity.
Qed.

(** *** The integer part of a rounded product *)

Lemma trunc_Z_finish (M E z : Z) :
  0 <= M <= 2 ^ 24 ->
  trunc_Z (finish false M E) = Some z -> z = Z.shiftl M E.
Proof.
  intros HM. unfold finish. destruct M as [|p|p]; [| |lia].
  - intros [= <-]. rewrite Z.shiftl_0_l. reflexivity.
  - destruct (Z.eqb_spec (Z.pos p) (2 ^ 24)) as [Ep|Ep].
    + destruct (E + 1 <=? 104); [|discriminate].
      intros [= <-]. rewrite Ep.
      change (2 ^ 24) with (Z.shiftl (2 ^ 23) 1).
      rewrite Z.shiftl_shiftl by lia. rewrite (Z.add_comm 1 E).
      destruct (E + 1) as [|k|k]; reflexivity.
    + destruct (E <=? 104); [|discriminate].
      intros [= <-]. destruct E as [|k|k]; reflexivity.
Qed.

Lemma shiftl_mono (a b n : Z) : 0 <= a <= b -> Z.shiftl a n <= Z.shiftl b n.
Proof.
  intros Hab. destruct (Z_le_gt_dec 0 n) as [Hn|Hn].
  - rewrite !Z.shiftl_mul_pow2 by lia. pose proof (pow2_pos n Hn). nia.
  - rewrite !Z.shiftl_div_pow2 by lia.
    apply Z.div_le_mono; [apply pow2_pos|]; lia.
Qed.

Lemma shiftl_scale (M n E : Z) :
  0 <= n -> Z.shiftl (M * 2 ^ n) (E - n) = Z.shiftl M E.
Proof.
  intros Hn. rewrite <- Z.shiftl_mul_pow2 by lia.
  rewrite Z.shiftl_shiftl by lia. f_equal. lia.
Qed.

(** *** The rounded value in units of the input exponent *)

Lemma fexp32_mono (a b : Z) : a <= b -> fexp32 a <= fexp32 b.
Proof. unfold fexp32. lia. Qed.

Lemma rounded_mono (m m' : positive) (e : Z) :
  e <= target_exp m e -> (m <= m')%positive ->
  rounded m e <= rounded m' e.
Proof.
  intros Hn Hm. unfold rounded.
  pose proof (digits2_pos_mono m m' Hm) as Hd.
  pose proof (digits2_pos_bounds m) as [Hlo Hhi].
  pose proof (digits2_pos_bounds m') as [Hlo' Hhi'].
  assert (target_exp m e <= target_exp m' e) as HE
    by (apply fexp32_mono; lia).
  set (d := Z.pos (digits2_pos m)) in *.
  set (d' := Z.pos (digits2_pos m')) in *.
  set (n := target_exp m e - e) in *.
  set (n' := target_exp m' e - e) in *.
  destruct (Z.eq_dec n n') as [En|En].
  - rewrite <- En. pose proof (pow2_pos n ltac:(lia)).
    pose proof (rne_mono (Z.pos m) (Z.pos m') n ltac:(lia) ltac:(lia)). nia.
  - assert (n < n') as Hlt by lia.
    assert (n' = d' - 24) as En'
      by (unfold n', n, target_exp, fexp32 in *; fold d d' in Hlt |- *; lia).
    assert (d < d') as Hdd.
    { destruct (Z.eq_dec d d') as [Edd|]; [|lia].
      exfalso. unfold n', n, target_exp in Hlt. fold d d' in Hlt.
      rewrite Edd in Hlt. lia. }
    pose proof (pow2_pos n ltac:(lia)) as HPn.
    pose proof (pow2_pos n' ltac:(lia)) as HPn'.
    (* both sides are separated by 2^(d'-1) *)
    assert (2 ^ (d' - 1) = 2 ^ (d' - 1 - n) * 2 ^ n) as Esplit
      by (rewrite <- Z.pow_add_r by lia; f_equal; lia).
    assert (2 ^ (d' - 1) = 2 ^ 23 * 2 ^ n') as Esplit'
      by (rewrite <- Z.pow_add_r by lia; f_equal; lia).
    assert (Z.pos m < 2 ^ (d' - 1)) as Hm1.
    { eapply Z.lt_le_trans; [exact Hhi|]. apply Z.pow_le_mono_r; lia. }
    assert (Z.pos m / 2 ^ n < 2 ^ (d' - 1 - n)) as Hq
      by (apply Z.div_lt_upper_bound; lia).
    assert (2 ^ 23 <= Z.pos m' / 2 ^ n') as Hq'
      by (apply Z.div_le_lower_bound; lia).
    pose proof (rne_bounds (Z.pos m) n ltac:(lia) ltac:(lia)) as [_ Hr].
    pose proof (rne_bounds (Z.pos m') n' ltac:(lia) ltac:(lia)) as [Hr' _].
    apply Z.le_trans with (2 ^ (d' - 1)).
    + rewrite Esplit. apply Z.mul_le_mono_nonneg_r; lia.
    + rewrite Esplit'. apply Z.mul_le_mono_nonneg_r; lia.
Qed.

(** The integer part of the float an exact product rounds to. *)
Lemma trunc_Z_round (m : positive) (e z : Z) :
  e <= target_exp m e ->
  trunc_Z (binary_round_aux prec emax false (Z.pos m) e loc_Exact) = Some z ->
  z = Z.shiftl (rounded m e) e.
Proof.
  intros Hn H. rewrite binary_round_aux_exact in H by exact Hn.
  apply trunc_Z_finish in H.
  - rewrite H. unfold rounded.
    rewrite <- (shiftl_scale _ (target_exp m e - e) (target_exp m e)) by lia.
    f_equal. lia.
  - split; [apply rne_nonneg; lia|apply rne_target_le; exact Hn].
Qed.

(** The same number written with a larger mantissa rounds to the
    same float. *)
Lemma binary_round_aux_scale (m p : positive) (e j : Z) :
  0 <= j -> e <= target_exp m e -> Z.pos p = Z.pos m * 2 ^ j ->
  binary_round_aux prec emax false (Z.pos p) (e - j) loc_Exact =
  binary_round_aux prec emax false (Z.pos m) e loc_Exact.
Proof.
  intros Hj Hn Hp.
  assert (Z.pos (digits2_pos p) = Z.pos (digits2_pos m) + j) as Hd.
  { apply digits2_pos_unique. rewrite Hp.
    pose proof (digits2_pos_bounds m) as [Hlo Hhi].
    pose proof (pow2_pos j Hj).
    replace (Z.pos (digits2_pos m) + j - 1)
      with (Z.pos (digits2_pos m) - 1 + j) by lia.
    rewrite !Z.pow_add_r by lia. nia. }
  assert (target_exp p (e - j) = target_exp m e) as HE
    by (unfold target_exp; rewrite Hd; f_equal; lia).
  rewrite !binary_round_aux_exact by (rewrite ?HE; lia).
  rewrite HE, Hp.
  replace (target_exp m e - (e - j)) with (target_exp m e - e + j) by lia.
  rewrite rne_scale by lia. reflexivity.
Qed.

End RoundingFacts.

(** ** Monotonicity of the shading *)

Section Shading.
Import Rounding RoundingFacts.

(** [shadeMax] as a float: 9 = 9437184 * 2^-20. *)
Lemma fmul_shadeMax (m : positive) (e : Z) :
  fmul (S754_finite false m e) (of_int shadeMax) =
  binary_round_aux prec emax false (Z.pos (m * 9437184)) (e + -20) loc_Exact.
Proof. reflexivity. Qed.

Lemma target_exp_product (m : positive) (e : Z) :
  e - 20 <= target_exp (m * 9437184) (e - 20).
Proof.
  unfold target_exp, fexp32.
  assert (24 <= Z.pos (digits2_pos (m * 9437184))); [|lia].
  change 24 with (Z.pos (digits2_pos 9437184)).
  apply digits2_pos_mono. nia.
Qed.

Lemma to_int_trunc_Z (f : float) (z : Z) : to_int f = Some z -> trunc_Z f = Some z.
Proof.
  unfold to_int. destruct (trunc_Z f) as [z0|]; [|discriminate].
  destruct ((int_min <=? z0) && (z0 <=? int_max)); congruence.
Qed.

Lemma rounded_nonneg (m : positive) (e : Z) :
  e <= target_exp m e -> 0 <= rounded m e.
Proof.
  intros Hn. unfold rounded.
  pose proof (rne_nonneg (Z.pos m) (target_exp m e - e) ltac:(lia) ltac:(lia)).
  pose proof (pow2_pos (target_exp m e - e) ltac:(lia)). nia.
Qed.

Lemma canonical_digits (m : positive) (e : Z) :
  canonical m e ->
  Z.pos (digits2_pos m) <= 24 /\ -149 <= e /\
  (-149 < e -> Z.pos (digits2_pos m) = 24).
Proof.
  unfold canonical, valid_binary, bounded, canonical_mantissa.
  change (fexp prec emax) with fexp32. unfold fexp32.
  intros H. apply andb_true_iff in H as [H _]. apply Z.eqb_eq in H. lia.
Qed.

Lemma clamp_mono (a b lo hi : Z) :
  lo <= hi -> a <= b -> clamp a lo hi <= clamp b lo hi.
Proof.
  unfold clamp. intros Hlh Hab.
  destruct (Z.ltb_spec a lo), (Z.ltb_spec b lo), (Z.ltb_spec hi a),
    (Z.ltb_spec hi b); lia.
Qed.

(** The integer part of [lum * shadeMax] grows with [lum]. *)
Lemma scaled_luminance_mono (m1 m2 : positive) (e1 e2 z1 z2 : Z) :
  canonical m1 e1 -> canonical m2 e2 ->
  e1 < e2 \/ (e1 = e2 /\ (m1 <= m2)%positive) ->
  to_int (fmul (S754_finite false m1 e1) (of_int shadeMax)) = Some z1 ->
  to_int (fmul (S754_finite false m2 e2) (of_int shadeMax)) = Some z2 ->
  z1 <= z2.
Proof.
  intros Hc1 Hc2 Hle H1 H2.
  apply to_int_trunc_Z in H1, H2. rewrite fmul_shadeMax in H1, H2.
  change (e1 + -20) with (e1 - 20) in H1.
  change (e2 + -20) with (e2 - 20) in H2.
  pose proof (target_exp_product m1 e1) as Hn1.
  pose proof (target_exp_product m2 e2) as Hn2.
  apply trunc_Z_round in H1; [|exact Hn1].
  destruct Hle as [Hlt|[<- Hm]].
  - (* a smaller exponent: write the larger number at that exponent *)
    destruct (canonical_digits m1 e1 Hc1) as (Hd1 & He1 & _).
    destruct (canonical_digits m2 e2 Hc2) as (_ & _ & Hd2).
    specialize (Hd2 ltac:(lia)).
    pose proof (digits2_pos_bounds m1) as [_ Hhi1].
    pose proof (digits2_pos_bounds m2) as [Hlo2 _].
    rewrite Hd2 in Hlo2. change (2 ^ (24 - 1)) with 8388608 in Hlo2.
    assert (Z.pos m1 < 16777216) as Hm1.
    { eapply Z.lt_le_trans; [exact Hhi1|].
      change 16777216 with (2 ^ 24). apply Z.pow_le_mono_r; lia. }
    set (j := e2 - e1).
    pose proof (pow2_pos j ltac:(lia)) as HPj.
    assert (2 <= 2 ^ j) as HPj2
      by (change 2 with (2 ^ 1) at 1; apply Z.pow_le_mono_r; lia).
    set (p := Z.to_pos (Z.pos (m2 * 9437184) * 2 ^ j)).
    assert (Z.pos p = Z.pos (m2 * 9437184) * 2 ^ j) as Hp
      by (unfold p; rewrite Z2Pos.id; lia).
    rewrite <- (binary_round_aux_scale (m2 * 9437184) p (e2 - 20) j)
      in H2 by (try exact Hn2; try exact Hp; lia).
    replace (e2 - 20 - j) with (e1 - 20) in H2 by lia.
    assert (e1 - 20 <= target_exp p (e1 - 20)) as Hnp.
    { unfold target_exp, fexp32.
      assert (24 <= Z.pos (digits2_pos p)); [|lia].
      change 24 with (Z.pos (digits2_pos 9437184)).
      apply digits2_pos_mono. nia. }
    apply trunc_Z_round in H2; [|exact Hnp].
    subst z1 z2. apply shiftl_mono.
    split; [apply rounded_nonneg; exact Hn1|].
    apply rounded_mono; [exact Hn1|]. nia.
  - apply trunc_Z_round in H2; [|exact Hn2].
    subst z1 z2. apply shiftl_mono.
    split; [apply rounded_nonneg; exact Hn1|].
    apply rounded_mono; [exact Hn1|]. nia.
Qed.

Lemma fle_not_fgt (a b : float) : fle a b = true -> fgt a b = false.
Proof.
  unfold fle, fgt, SFleb, SFltb.
  destruct a as [sa|sa| |sa ma ea], b as [sb|sb| |sb mb eb];
    try destruct sa; try destruct sb; try discriminate; try reflexivity.
  - rewrite !SFcompare_finite_neg, (Z.compare_antisym ea eb),
      (Pos.compare_antisym ma mb).
    destruct (ea ?= eb); simpl; try discriminate; try reflexivity.
    destruct (ma ?= mb)%positive; simpl; try discriminate; reflexivity.
  - rewrite !SFcompare_finite_pos, (Z.compare_antisym ea eb),
      (Pos.compare_antisym ma mb).
    destruct (ea ?= eb); simpl; try discriminate; try reflexivity.
    destruct (ma ?= mb)%positive; simpl; try discriminate; reflexivity.
Qed.

Lemma fle_finite_pos (m1 m2 : positive) (e1 e2 : Z) :
  fle (S754_finite false m1 e1) (S754_finite false m2 e2) = true ->
  e1 < e2 \/ (e1 = e2 /\ (m1 <= m2)%positive).
Proof.
  unfold fle, SFleb. rewrite SFcompare_finite_pos.
  destruct (Z.compare_spec e1 e2); destruct (Pos.compare_spec m1 m2);
    intros; try discriminate; lia.
Qed.

Lemma shadeIdx_range (lum : float) (i : Z) :
  shadeIdx lum = Some i -> 0 <= i <= shadeMax.
Proof.
  unfold shadeIdx. destruct (to_int _) as [z|]; [|discriminate].
  intros [= <-]. unfold clamp. change shadeMax with 9.
  destruct (Z.ltb_spec z 0), (Z.ltb_spec 9 z); lia.
Qed.

End Shading.

(** C7. The shading is monotone.  For two normals whose dot products
    with the light are binary32 numbers [d1 <= d2], the ramp index of
    the first is at most the ramp index of the second; and for every
    normal whose dot product is [<= 0] the luminance is 0 and the
    index-0 glyph, the darkest of the ramp, is selected. *)
Theorem shading_is_monotone (n1 n2 : Vec3) (i1 i2 : Z) :
  valid_binary prec emax (dot n1 light) = true ->
  valid_binary prec emax (dot n2 light) = true ->
  fle (dot n1 light) (dot n2 light) = true ->
  shadeIdx (luminance n1) = Some i1 ->
  shadeIdx (luminance n2) = Some i2 ->
  i1 <= i2 /\
  (forall n, fle (dot n light) fzero = true ->
     luminance n = fzero /\
     shadeIdx (luminance n) = Some 0 /\
     glyph_of (luminance n) = head shades).
Proof.
  intros Hv1 Hv2 Hle H1 H2. split.
  - unfold luminance, fmax in H1, H2.
    pose proof (shadeIdx_range _ _ H2) as Hr2.
    destruct (flt fzero (dot n1 light)) eqn:Hpos1.
    + destruct (dot n1 light) as [s1|s1| |s1 m1 e1]; try discriminate;
        destruct s1; try discriminate.
      destruct (dot n2 light) as [s2|s2| |s2 m2 e2]; try discriminate;
        destruct s2; try discriminate.
      change (flt fzero (S754_finite false m2 e2)) with true in H2.
      cbv iota in H2. unfold shadeIdx in H1, H2.
      destruct (to_int (fmul (S754_finite false m1 e1) (of_int shadeMax)))
        as [z1|] eqn:Ez1; [|discriminate].
      destruct (to_int (fmul (S754_finite false m2 e2) (of_int shadeMax)))
        as [z2|] eqn:Ez2; [|discriminate].
      injection H1 as <-. injection H2 as <-.
      apply clamp_mono; [unfold shadeMax; simpl; lia|].
      apply (scaled_luminance_mono m1 m2 e1 e2 z1 z2 Hv1 Hv2
               (fle_finite_pos _ _ _ _ Hle) Ez1 Ez2).
    + assert (i1 = 0) as -> by (vm_compute in H1; congruence). lia.
  - intros n Hn. apply fle_not_fgt in Hn.
    rewrite (luminance_clamps n Hn). repeat split; reflexivity.
Qed.

Lemma shading_is_monotone_witness :
  0 <= 3 /\
  luminance (mkVec3 fone fzero fzero) = fzero.
Proof.
  destruct (shading_is_monotone (mkVec3 fone fzero fzero)
              (mkVec3 (fneg fone) fzero fzero) 0 3) as [Hle Hdark].
  - vm_compute; reflexivity.
  - vm_compute; reflexivity.
  - vm_compute; reflexivity.
  - vm_compute; reflexivity.
  - vm_compute; reflexivity.
  - split; [exact Hle|].
    apply (Hdark (mkVec3 fone fzero fzero)). vm_compute; reflexivity.
Defined.

(** ** Integers below 2^24 in binary32 *)

Import Rounding RoundingFacts.

Section ExactIntegers.

Lemma shl_align_spec (p : positive) (e e' : Z) :
  e' <= e ->
  exists mz : positive,
    shl_align p e e' = (mz, e') /\ Z.pos mz = Z.pos p * 2 ^ (e - e').
Proof.
  intros Hle. unfold shl_align.
  destruct (e' - e) as [|d|d] eqn:Ed; try lia.
  - exists p. assert (e = e') as -> by lia.
    rewrite Z.sub_diag, Z.pow_0_r. split; [reflexivity|lia].
  - exists (Pos.iter xO p d). split; [reflexivity|].
    change (Pos.iter xO p d) with (shift_pos d p).
    rewrite shift_pos_correct.
    replace (e - e') with (Z.pos d) by lia.
    change (Zpower_pos 2 d) with (2 ^ Z.pos d). ring.
Qed.

(** [static_cast<float>] is exact on integers below 2^24. *)
Lemma of_int_holds (x : Z) : 0 < x < 2 ^ 24 -> holds (of_int x) x.
Proof.
  intros Hx. destruct x as [|p|p]; try lia.
  unfold of_int, binary_normalize, binary_round.
  change (fexp prec emax) with fexp32.
  pose proof (digits2_pos_bounds p) as [Hlo Hhi].
  set (d := Z.pos (digits2_pos p)) in *.
  assert (d <= 24) as Hd.
  { assert (d - 1 < 24); [|lia]. apply pow2_lt_inv; lia. }
  assert (fexp32 (d + 0) = d - 24) as -> by (unfold fexp32; lia).
  destruct (shl_align_spec p 0 (d - 24) ltac:(lia)) as (mz & -> & Hmz).
  replace (0 - (d - 24)) with (24 - d) in Hmz by lia.
  assert (Z.pos (digits2_pos mz) = 24) as Hdz.
  { apply digits2_pos_unique. rewrite Hmz.
    pose proof (pow2_pos (24 - d) ltac:(lia)).
    replace (2 ^ (24 - 1)) with (2 ^ (d - 1) * 2 ^ (24 - d))
      by (rewrite <- Z.pow_add_r by lia; f_equal; lia).
    replace (2 ^ 24) with (2 ^ d * 2 ^ (24 - d))
      by (rewrite <- Z.pow_add_r by lia; f_equal; lia).
    nia. }
  assert (target_exp mz (d - 24) = d - 24) as HE
    by (unfold target_exp, fexp32; rewrite Hdz; lia).
  rewrite binary_round_aux_exact by (rewrite HE; lia).
  rewrite HE, Z.sub_diag, rne_0. unfold finish.
  pose proof (digits2_pos_bounds mz) as [_ Hz]. rewrite Hdz in Hz.
  replace (Z.pos mz =? 2 ^ 24) with false by (symmetry; apply Z.eqb_neq; lia).
  replace (d - 24 <=? 104) with true by (symmetry; apply Z.leb_le; lia).
  exists mz, (d - 24). split; [reflexivity|]. split; [exact Hdz|].
  split; [lia|]. rewrite Hmz. f_equal. f_equal. lia.
Qed.

(** A float divided by itself is 1. *)
Lemma fdiv_self (m : positive) (e : Z) :
  Z.pos (digits2_pos m) = 24 ->
  fdiv (S754_finite false m e) (S754_finite false m e) = fone.
Proof.
  intros Hd. unfold fdiv, SFdiv, SFdiv_core_binary.
  change (fexp prec emax) with fexp32. simpl Zdigits2. rewrite Hd.
  rewrite !Z.sub_diag.
  change (Z.min (fexp32 0) 0) with (-24). change (0 - -24) with 24.
  cbv iota.
  rewrite Z.shiftl_mul_pow2 by lia.
  pose proof (Z.div_eucl_eq (Z.pos m * 2 ^ 24) (Z.pos m) ltac:(lia)) as Heq.
  assert (Z.div_eucl (Z.pos m * 2 ^ 24) (Z.pos m) = (2 ^ 24, 0)) as ->.
  { pose proof (Z_div_mod (Z.pos m * 2 ^ 24) (Z.pos m) ltac:(lia)) as Hdm.
    destruct (Z.div_eucl (Z.pos m * 2 ^ 24) (Z.pos m)) as [q r].
    destruct Hdm as [Hq Hr].
    assert (q = 2 ^ 24) by nia. assert (r = 0) by nia. congruence. }
  unfold new_location, new_location_even, new_location_odd.
  change (0 =? 0) with true. cbv iota.
  destruct (Z.even (Z.pos m)); reflexivity.
Qed.

(** Multiplying by 1 changes nothing. *)
Lemma fmul_one (m : positive) (e : Z) :
  Z.pos (digits2_pos m) = 24 -> -149 <= e <= 104 ->
  fmul (S754_finite false m e) fone = S754_finite false m e.
Proof.
  intros Hd He.
  change (fmul (S754_finite false m e) fone)
    with (binary_round_aux prec emax false (Z.pos (m * 8388608)) (e + -23)
            loc_Exact).
  assert (target_exp m e = e) as HE
    by (unfold target_exp, fexp32; rewrite Hd; lia).
  change (e + -23) with (e - 23).
  rewrite (binary_round_aux_scale m (m * 8388608) e 23)
    by (rewrite ?HE; lia).
  rewrite binary_round_aux_exact by (rewrite HE; lia).
  rewrite HE, Z.sub_diag, rne_0. unfold finish.
  pose proof (digits2_pos_bounds m) as [_ Hz]. rewrite Hd in Hz.
  replace (Z.pos m =? 2 ^ 24) with false by (symmetry; apply Z.eqb_neq; lia).
  replace (e <=? 104) with true by (symmetry; apply Z.leb_le; lia).
  reflexivity.
Qed.

Lemma to_int_holds (f : float) (x : Z) :
  holds f x -> 0 < x < 2 ^ 24 -> to_int f = Some x.
Proof.
  intros (m & e & -> & Hd & He & Hm) Hx.
  unfold to_int, trunc_Z.
  assert ((match e with
           | Z.neg p => Z.shiftr (Z.pos m) (Z.pos p)
           | _ => Z.shiftl (Z.pos m) e
           end) = x) as ->.
  { destruct e as [|p|p]; try lia.
    - rewrite Z.shiftl_0_r. simpl in Hm. lia.
    - rewrite Z.shiftr_div_pow2 by lia. rewrite Hm.
      change (- Z.neg p) with (Z.pos p).
      apply Z.div_mul. pose proof (pow2_pos (Z.pos p) ltac:(lia)). lia. }
  replace ((int_min <=? x) && (x <=? int_max)) with true; [reflexivity|].
  symmetry. apply andb_true_iff. unfold int_min, int_max.
  change (2 ^ 24) with 16777216 in Hx. change (2 ^ 31) with 2147483648.
  split; [apply Z.leb_le|apply Z.leb_le]; lia.
Qed.

(** [std::round] leaves a float that holds an integer as it is, up to
    the way [of_int] writes that integer. *)
Lemma roundf_holds (f : float) (x : Z) :
  holds f x -> 0 < x < 2 ^ 24 -> holds (roundf f) x.
Proof.
  intros (m & e & -> & Hd & He & Hm) Hx.
  destruct e as [|p|p]; try lia.
  - exists m, 0. auto.
  - unfold roundf.
    assert (Z.shiftr (Z.pos m + Z.shiftl 1 (Z.pos p - 1)) (Z.pos p) = x) as ->.
    { rewrite Z.shiftr_div_pow2, Z.shiftl_mul_pow2, Hm by lia.
      change (- Z.neg p) with (Z.pos p).
      pose proof (pow2_pos (Z.pos p - 1) ltac:(lia)) as HP.
      assert (2 ^ Z.pos p = 2 * 2 ^ (Z.pos p - 1)) as E
        by (rewrite <- Z.pow_succ_r by lia; f_equal; lia).
      symmetry. apply Z.div_unique with (r := 2 ^ (Z.pos p - 1)); lia. }
    destruct x as [|q|q]; try lia.
    apply of_int_holds. exact Hx.
Qed.

Lemma fdiv_of_int_self (n : Z) :
  0 < n < 2 ^ 24 -> fdiv (of_int n) (of_int n) = fone.
Proof.
  intros Hn. destruct (of_int_holds n Hn) as (m & e & -> & Hd & _).
  apply fdiv_self. exact Hd.
Qed.

Lemma fmul_of_int_one (n : Z) :
  0 <= n < 2 ^ 24 -> fmul (of_int n) fone = of_int n.
Proof.
  intros Hn. destruct (Z.eq_dec n 0) as [->|Hnz]; [reflexivity|].
  destruct (of_int_holds n ltac:(lia)) as (m & e & -> & Hd & He & _).
  apply fmul_one; [exact Hd|lia].
Qed.

Lemma to_int_of_int (n : Z) : 0 <= n < 2 ^ 24 -> to_int (of_int n) = Some n.
Proof.
  intros Hn. destruct (Z.eq_dec n 0) as [->|Hnz]; [reflexivity|].
  apply to_int_holds; [apply of_int_holds|]; lia.
Qed.

Lemma to_int_roundf_of_int (n : Z) :
  0 < n < 2 ^ 24 -> to_int (roundf (of_int n)) = Some n.
Proof.
  intros Hn. apply to_int_holds; [|exact Hn].
  apply roundf_holds; [apply of_int_holds|]; exact Hn.
Qed.

End ExactIntegers.

Section CompositorFacts.

Variable fb : FrameBuffer.t.
Hypothesis Hwf : FrameBuffer.wf fb.
Hypothesis Hw : 0 < FrameBuffer.w fb < 2 ^ 24.
Hypothesis Hh : 0 < FrameBuffer.h fb < 2 ^ 24.

Lemma scale_s_same_size : scale_s fb (FrameBuffer.h fb) (FrameBuffer.w fb) = fone.
Proof.
  unfold scale_s. rewrite !fdiv_of_int_self by assumption.
  reflexivity.
Qed.

Lemma invS_same_size : invS fb (FrameBuffer.h fb) (FrameBuffer.w fb) = fone.
Proof. unfold invS. rewrite scale_s_same_size. reflexivity. Qed.

Lemma viewW_same_size : viewW fb (FrameBuffer.h fb) (FrameBuffer.w fb) = Some (FrameBuffer.w fb).
Proof.
  unfold viewW. rewrite invS_same_size, fmul_of_int_one by lia.
  rewrite to_int_roundf_of_int by assumption. cbn. f_equal. lia.
Qed.

Lemma viewH_same_size : viewH fb (FrameBuffer.h fb) (FrameBuffer.w fb) = Some (FrameBuffer.h fb).
Proof.
  unfold viewH. rewrite invS_same_size, fmul_of_int_one by lia.
  rewrite to_int_roundf_of_int by assumption. cbn. f_equal. lia.
Qed.

Lemma x0_same_size : x0 fb (FrameBuffer.h fb) (FrameBuffer.w fb) = Some 0.
Proof.
  unfold x0. rewrite viewW_same_size. cbn. rewrite Z.sub_diag.
  reflexivity.
Qed.

Lemma y0_same_size : y0 fb (FrameBuffer.h fb) (FrameBuffer.w fb) = Some 0.
Proof.
  unfold y0. rewrite viewH_same_size. cbn. rewrite Z.sub_diag.
  reflexivity.
Qed.

Lemma sample_coord_same_size (i limit : Z) :
  0 <= i < limit -> limit <= 2 ^ 24 ->
  sample_coord fb (FrameBuffer.h fb) (FrameBuffer.w fb) 0 i limit = Some i.
Proof.
  intros Hi Hl. unfold sample_coord.
  rewrite invS_same_size, fmul_of_int_one, to_int_of_int by lia. cbn.
  f_equal. unfold clamp.
  destruct (Z.ltb_spec (0 + i) 0), (Z.ltb_spec (limit - 1) (0 + i)); lia.
Qed.

End CompositorFacts.

Lemma mapM_total {A B : Type} (f : A -> option B) (g : A -> B) (l : list A) :
  (forall a, a ∈ l -> f a = Some (g a)) -> mapM f l = Some (g <$> l).
Proof.
  intros Hf. apply mapM_Some_2, Forall2_fmap_r, Forall_Forall2_diag.
  apply Forall_forall. exact Hf.
Qed.

Lemma elem_of_seqZ_0 (n i : Z) : i ∈ seqZ 0 n -> 0 <= i < n.
Proof. intros Hi. apply elem_of_seqZ in Hi. lia. Qed.

Lemma get_in_bounds (fb : FrameBuffer.t) (x y : Z) :
  FrameBuffer.wf fb -> in_bounds fb x y ->
  exists c, FrameBuffer.get fb x y = Some c /\
            FrameBuffer.chars fb !! index fb x y = Some c.
Proof.
  intros Hwf Hb. pose proof (index_range fb x y Hwf Hb) as Hr.
  destruct (lookup_lt_is_Some_2 _ _ (index_lt_chars fb x y Hwf Hb)) as [c Hc].
  exists c. split; [|exact Hc]. unfold FrameBuffer.get.
  replace (y * FrameBuffer.w fb + x <? 0) with false
    by (symmetry; apply Z.ltb_ge; lia).
  exact Hc.
Qed.

Lemma blit_same_size (fb : FrameBuffer.t) :
  FrameBuffer.wf fb ->
  0 < FrameBuffer.w fb < 2 ^ 24 -> 0 < FrameBuffer.h fb < 2 ^ 24 ->
  blitVirtualToCurses fb (FrameBuffer.h fb) (FrameBuffer.w fb) =
  Some ((fun y => (fun x => shown_at fb x y) <$> seqZ 0 (FrameBuffer.w fb))
          <$> seqZ 0 (FrameBuffer.h fb)).
Proof.
  intros Hwf Hw Hh. unfold blitVirtualToCurses.
  rewrite x0_same_size, y0_same_size by assumption. cbn.
  apply mapM_total. intros y Hy. apply elem_of_seqZ_0 in Hy.
  rewrite sample_coord_same_size by (try assumption; lia). cbn.
  unfold blit_row. apply mapM_total. intros x Hx. apply elem_of_seqZ_0 in Hx.
  rewrite sample_coord_same_size by (try assumption; lia). cbn.
  destruct (get_in_bounds fb x y Hwf) as (c & Hc & _);
    [unfold in_bounds; lia|].
  unfold shown_at. rewrite Hc. reflexivity.
Qed.

Lemma cell_of_grid (f : Z -> Z -> ascii) (w h x y : Z) :
  0 <= x < w -> 0 <= y < h ->
  cell_of ((fun y => (fun x => f x y) <$> seqZ 0 w) <$> seqZ 0 h) y x
    = Some (f x y).
Proof.
  intros Hx Hy. unfold cell_of.
  replace ((y <? 0) || (x <? 0)) with false
    by (symmetry; apply orb_false_iff; split; apply Z.ltb_ge; lia).
  rewrite list_lookup_fmap, lookup_seqZ_lt by lia. cbn.
  rewrite list_lookup_fmap, lookup_seqZ_lt by lia. cbn.
  do 2 f_equal; lia.
Qed.

Lemma shown_ramp (c : ascii) : In c shades -> shown c = c.
Proof.
  intros Hc. unfold shades in Hc. simpl in Hc.
  repeat (destruct Hc as [<-|Hc]; [reflexivity|]). destruct Hc.
Qed.

(** *** The glyphs of a rendered frame *)

Lemma glyph_of_ramp (lum : float) (c : ascii) :
  glyph_of lum = Some c -> In c shades.
Proof.
  unfold glyph_of. destruct (shadeIdx lum) as [i|] eqn:Ei; [|discriminate].
  intros E.
  change (Some (nth (Z.to_nat i) shades blank) = Some c) in E.
  assert (c = nth (Z.to_nat i) shades blank) as -> by congruence.
  apply shadeIdx_range in Ei. apply nth_In.
  change (length shades) with 10%nat. change shadeMax with 9 in Ei. lia.
Qed.

Section RampOnly.

Variables cosf sinf : float -> float.

Lemma sample_glyph_ramp (Ax Ay theta phi : float) (ch : ascii) :
  sample_glyph cosf sinf Ax Ay theta phi = Some ch -> In ch shades.
Proof. unfold sample_glyph. apply glyph_of_ramp. Qed.

Lemma plot_ramp_only (Ax Ay theta phi : float) (fb fb' : FrameBuffer.t) :
  FrameBuffer.wf fb -> ramp_only fb ->
  plot cosf sinf Ax Ay theta phi fb = Done fb' ->
  FrameBuffer.wf fb' /\ ramp_only fb'.
Proof.
  intros Hwf Hr Hp.
  apply plot_done in Hp as (x & y & _ & _ & [[_ ->]|(Hb & ch & Hch & Hs)]);
    [auto|].
  destruct (set_in_bounds fb x y (invZ cosf sinf Ax Ay theta phi) ch Hwf Hb)
    as (d0 & _ & E).
  rewrite E in Hs. injection Hs as <-.
  destruct (flt d0 _); [|auto]. split; [apply wf_written; exact Hwf|].
  unfold ramp_only; simpl. apply Forall_insert; [exact Hr|].
  exact (sample_glyph_ramp _ _ _ _ _ Hch).
Qed.

Lemma run_ramp_only (Ax Ay : float) (l : list (float * float))
    (fb fb' : FrameBuffer.t) :
  FrameBuffer.wf fb -> ramp_only fb ->
  run (fun s fb => plot cosf sinf Ax Ay s.1 s.2 fb) l fb = Done fb' ->
  ramp_only fb'.
Proof.
  revert fb. induction l as [|s l IH]; intros fb Hwf Hr Hrun; simpl in Hrun.
  - congruence.
  - destruct (plot cosf sinf Ax Ay s.1 s.2 fb) as [fb1| |] eqn:Hp;
      try discriminate.
    apply plot_ramp_only in Hp as [Hwf1 Hr1]; try assumption.
    exact (IH fb1 Hwf1 Hr1 Hrun).
Qed.

(** Every frame of the rasterizer holds glyphs of the ramp only. *)
Lemma renderTorus_ramp_only (fuel : nat) (fb fb' : FrameBuffer.t)
    (Ax Ay : float) :
  (315 <= fuel)%nat -> FrameBuffer.wf fb ->
  renderTorus cosf sinf fuel fb Ax Ay = Done fb' -> ramp_only fb'.
Proof.
  intros Hf Hwf Hrun. rewrite renderTorus_run in Hrun by exact Hf.
  apply run_ramp_only in Hrun; [exact Hrun|apply wf_clear; exact Hwf|].
  unfold ramp_only; simpl. apply Forall_replicate. simpl. auto.
Qed.

End RampOnly.

(** C6. When the terminal has the size of the buffer (and that size
    is below 2^24, where binary32 holds every integer), the compositor
    is the identity: the scale is 1, the view window is the whole
    buffer, placed at the origin, and every terminal cell (y, x) shows
    the glyph of the buffer cell (x, y).  The buffer holds glyphs of
    the ramp, as every frame of the rasterizer does. *)
Theorem blit_same_size_is_identity (fb : FrameBuffer.t) :
  FrameBuffer.wf fb ->
  0 < FrameBuffer.w fb < 2 ^ 24 ->
  0 < FrameBuffer.h fb < 2 ^ 24 ->
  ramp_only fb ->
  let rows := FrameBuffer.h fb in
  let cols := FrameBuffer.w fb in
  scale_s fb rows cols = fone /\
  viewW fb rows cols = Some (FrameBuffer.w fb) /\
  viewH fb rows cols = Some (FrameBuffer.h fb) /\
  x0 fb rows cols = Some 0 /\
  y0 fb rows cols = Some 0 /\
  exists scr : screen,
    blitVirtualToCurses fb rows cols = Some scr /\
    forall x y, in_bounds fb x y ->
      is_Some (FrameBuffer.get fb x y) /\
      cell_of scr y x = FrameBuffer.get fb x y.
Proof.
  intros Hwf Hw Hh Hr rows cols.
  split; [apply scale_s_same_size; assumption|].
  split; [apply viewW_same_size; assumption|].
  split; [apply viewH_same_size; assumption|].
  split; [apply x0_same_size; assumption|].
  split; [apply y0_same_size; assumption|].
  eexists. split; [apply blit_same_size; assumption|].
  intros x y Hb. destruct (get_in_bounds fb x y Hwf Hb) as (c & Hc & Hl).
  split; [rewrite Hc; eauto|].
  rewrite cell_of_grid by (unfold in_bounds in Hb; lia).
  unfold shown_at. rewrite Hc. simpl. f_equal. apply shown_ramp.
  unfold ramp_only in Hr. rewrite Forall_forall in Hr.
  apply Hr. apply list_elem_of_lookup. eauto.
Qed.

Lemma blit_same_size_is_identity_witness :
  exists scr : screen,
    blitVirtualToCurses (written (FrameBuffer.new 4 2) 7 fone "@") 2 4
      = Some scr /\
    cell_of scr 1 3 = Some "@"%char.
Proof.
  destruct (blit_same_size_is_identity (written (FrameBuffer.new 4 2) 7 fone "@"))
    as (_ & _ & _ & _ & _ & scr & Hs & Hc).
  - apply wf_written. apply wf_new; lia.
  - simpl; lia.
  - simpl; lia.
  - unfold ramp_only; simpl.
    repeat (apply List.Forall_cons; [simpl; tauto|]). apply List.Forall_nil.
  - exists scr. split; [exact Hs|].
    destruct (Hc 3 1) as [_ ->]; [unfold in_bounds; simpl; lia|reflexivity].
Defined.

(** In binary32 the guard of [normalize] is the same: the components
    are divided by the magnitude only when it compares above 0, so the
    divisor is neither a zero nor a NaN; otherwise the result is the
    zero vector. *)
Lemma normalize_guard (v : Vec3) :
  let m := fsqrt (dot v v) in
  (fgt m fzero = true ->
   SFeqb m fzero = false /\ m <> S754_nan /\
   normalize v = mkVec3 (fdiv (vec_x v) m) (fdiv (vec_y v) m)
                        (fdiv (vec_z v) m)) /\
  (fgt m fzero = false -> normalize v = mkVec3 fzero fzero fzero).
Proof.
  intros m. unfold normalize. fold m. split; intros Hm; rewrite Hm.
  - split; [|split; [|reflexivity]].
    + destruct m as [s|s| |s mm e]; try destruct s; try discriminate;
        reflexivity.
    + intros E. rewrite E in Hm. discriminate.
  - reflexivity.
Qed.

(** * Further properties of the code *)

(** ** The buffer as a grid of cells *)

Section BufferCells.
Import FrameBuffer.

Lemma clear_new (fb : t) : wf fb -> clear fb = new (w fb) (h fb).
Proof.
  intros (_ & _ & Hc & Hd). unfold clear, new. rewrite Hc, Hd. reflexivity.
Qed.

(** On a cell of the buffer [get] reads the glyph at the cell's index. *)
Lemma get_index (fb : t) (x y : Z) :
  wf fb -> in_bounds fb x y -> get fb x y = chars fb !! index fb x y.
Proof.
  intros Hwf Hb. pose proof (index_range fb x y Hwf Hb) as Hr.
  unfold get. replace (y * w fb + x <? 0) with false
    by (symmetry; apply Z.ltb_ge; lia).
  reflexivity.
Qed.

End BufferCells.

(** X1. [clear] puts a buffer back into the state the constructor
    builds for its size: the same buffer as [FrameBuffer(w, h)], every
    cell reads as a blank and holds the sentinel depth, and clearing
    twice is clearing once. *)
Theorem clear_restores_constructor (fb : FrameBuffer.t) :
  FrameBuffer.wf fb ->
  FrameBuffer.clear fb = FrameBuffer.new (FrameBuffer.w fb) (FrameBuffer.h fb) /\
  FrameBuffer.clear (FrameBuffer.clear fb) = FrameBuffer.clear fb /\
  forall x y, in_bounds fb x y ->
    FrameBuffer.get (FrameBuffer.clear fb) x y = Some blank /\
    FrameBuffer.depth (FrameBuffer.clear fb) !! index fb x y = Some sentinel.
Proof.
  intros Hwf. split; [apply clear_new; exact Hwf|].
  split; [unfold FrameBuffer.clear; simpl; rewrite !length_replicate; reflexivity|].
  intros x y Hb.
  assert (in_bounds (FrameBuffer.clear fb) x y) as Hbc by exact Hb.
  rewrite (get_index _ x y (wf_clear fb Hwf) Hbc).
  change (index (FrameBuffer.clear fb) x y) with (index fb x y).
  simpl. split; apply lookup_replicate_2.
  - apply index_lt_chars; assumption.
  - apply index_lt_depth; assumption.
Qed.

Lemma clear_restores_constructor_witness :
  FrameBuffer.get
    (FrameBuffer.clear (written (FrameBuffer.new 4 2) 7 fone "@")) 3 1
  = Some blank.
Proof.
  apply (clear_restores_constructor (written (FrameBuffer.new 4 2) 7 fone "@")).
  - apply wf_written. apply wf_new; lia.
  - unfold in_bounds; simpl; lia.
Defined.

(** X2. A call of [set] on a cell of the buffer keeps the size of the
    buffer and of its two vectors, and leaves the glyph and the depth
    of every other cell as they were. *)
Theorem set_leaves_other_cells
    (fb fb' : FrameBuffer.t) (x y : Z) (d : float) (c : ascii) :
  FrameBuffer.wf fb -> in_bounds fb x y ->
  FrameBuffer.set fb x y d c = Some fb' ->
  FrameBuffer.wf fb' /\
  FrameBuffer.w fb' = FrameBuffer.w fb /\
  FrameBuffer.h fb' = FrameBuffer.h fb /\
  forall x' y', in_bounds fb x' y' -> (x', y') <> (x, y) ->
    FrameBuffer.get fb' x' y' = FrameBuffer.get fb x' y' /\
    FrameBuffer.depth fb' !! index fb x' y'
      = FrameBuffer.depth fb !! index fb x' y'.
Proof.
  intros Hwf Hb Hs.
  destruct (set_wf fb fb' x y d c Hwf Hb Hs) as (Hwf' & Hw' & Hh').
  do 3 (split; [assumption|]).
  intros x' y' Hb' Hne.
  assert (in_bounds fb' x' y') as Hb2
    by (unfold in_bounds; rewrite Hw', Hh'; exact Hb').
  rewrite (get_index fb' x' y' Hwf' Hb2), (get_index fb x' y' Hwf Hb').
  assert (index fb' x' y' = index fb x' y') as ->
    by (unfold index; rewrite Hw'; reflexivity).
  destruct (set_in_bounds fb x y d c Hwf Hb) as (d0 & _ & E).
  rewrite E in Hs. injection Hs as <-.
  destruct (flt d0 d); [|auto].
  assert (index fb x y <> index fb x' y') as Hi.
  { intros Ei. apply index_inj in Ei as [-> ->]; auto. }
  simpl. rewrite !list_lookup_insert_ne by exact Hi. auto.
Qed.

Lemma set_leaves_other_cells_witness :
  FrameBuffer.get (written (FrameBuffer.new 4 2) 7 fone "@") 0 0
  = FrameBuffer.get (FrameBuffer.new 4 2) 0 0.
Proof.
  apply (set_leaves_other_cells (FrameBuffer.new 4 2)
           (written (FrameBuffer.new 4 2) 7 fone "@") 3 1 fone "@").
  - apply wf_new; lia.
  - unfold in_bounds; simpl; lia.
  - vm_compute; reflexivity.
  - unfold in_bounds; simpl; lia.
  - discriminate.
Defined.

(** X3. [set] followed by [get] on the same cell: [get] returns the
    glyph just passed to [set] when its inverse depth exceeded the
    stored one, and the glyph the cell held otherwise; the stored depth
    is the larger of the two accordingly. *)
Theorem set_then_get
    (fb fb' : FrameBuffer.t) (x y : Z) (d d0 : float) (c c0 : ascii) :
  FrameBuffer.wf fb -> in_bounds fb x y ->
  FrameBuffer.depth fb !! index fb x y = Some d0 ->
  FrameBuffer.get fb x y = Some c0 ->
  FrameBuffer.set fb x y d c = Some fb' ->
  FrameBuffer.get fb' x y = Some (if fgt d d0 then c else c0) /\
  FrameBuffer.depth fb' !! index fb x y = Some (if fgt d d0 then d else d0).
Proof.
  intros Hwf Hb Hd Hg Hs.
  destruct (set_wf fb fb' x y d c Hwf Hb Hs) as (Hwf' & Hw' & Hh').
  assert (in_bounds fb' x y) as Hb2
    by (unfold in_bounds; rewrite Hw', Hh'; exact Hb).
  rewrite (get_index fb' x y Hwf' Hb2).
  rewrite (get_index fb x y Hwf Hb) in Hg.
  assert (index fb' x y = index fb x y) as ->
    by (unfold index; rewrite Hw'; reflexivity).
  rewrite (set_stored fb x y d0 d c Hwf Hb Hd) in Hs. injection Hs as <-.
  rewrite fgt_flt. destruct (flt d0 d); [|auto].
  simpl. split; apply list_lookup_insert_eq.
  - apply index_lt_chars; assumption.
  - apply index_lt_depth; assumption.
Qed.

Lemma set_then_get_witness :
  FrameBuffer.get (written (FrameBuffer.new 4 2) 7 fone "@") 3 1
  = Some (if fgt fone sentinel then "@"%char else blank).
Proof.
  apply (set_then_get (FrameBuffer.new 4 2)
           (written (FrameBuffer.new 4 2) 7 fone "@") 3 1 fone sentinel "@" blank).
  - apply wf_new; lia.
  - unfold in_bounds; simpl; lia.
  - reflexivity.
  - reflexivity.
  - vm_compute; reflexivity.
Defined.

(** ** Vector math and shading in binary32 *)

Lemma fmul_comm (a b : float) : fmul a b = fmul b a.
Proof.
  unfold fmul, SFmul.
  destruct a as [sa|sa| |sa ma ea], b as [sb|sb| |sb mb eb];
    try reflexivity; try (rewrite xorb_comm; reflexivity).
  rewrite xorb_comm, Pos.mul_comm, Z.add_comm. reflexivity.
Qed.

(** X4. [dot] is symmetric: [dot(a, b)] is a NaN exactly when
    [dot(b, a)] is, and otherwise the two are the same binary32 value,
    infinities and the sign of a zero included.  The three products do
    not depend on the order of their factors and are added in the same
    order.  (The model has a single NaN: the sign and the payload of a
    NaN result are not compared.) *)
Theorem dot_commutes (a b : Vec3) :
  (dot a b = S754_nan <-> dot b a = S754_nan) /\
  (dot a b <> S754_nan -> dot a b = dot b a).
Proof.
  assert (dot a b = dot b a) as E.
  { unfold dot.
    rewrite (fmul_comm (vec_x a)), (fmul_comm (vec_y a)), (fmul_comm (vec_z a)).
    reflexivity. }
  rewrite E. split; [tauto|reflexivity].
Qed.

(** X5. The luminance [max(0, dot(n, light))] of any vector is [+0] or
    a dot product that compared above 0: it is never negative and
    never a NaN, a NaN dot product shades as the blank, and whenever
    the index [clamp((int)(lum * shadeMax), 0, shadeMax)] is defined
    it is an index of the ramp, so that [shades[shadeIdx]] never reads
    outside the ramp. *)
Theorem luminance_is_never_negative (n : Vec3) :
  (luminance n = fzero \/
   (luminance n = dot n light /\ flt fzero (dot n light) = true)) /\
  flt (luminance n) fzero = false /\
  luminance n <> S754_nan /\
  (dot n light = S754_nan -> glyph_of (luminance n) = Some blank) /\
  (forall i, shadeIdx (luminance n) = Some i ->
     0 <= i < Z.of_nat (length shades) /\
     exists c, glyph_of (luminance n) = Some c /\
               shades !! Z.to_nat i = Some c).
Proof.
  assert (luminance n = fzero \/
          (luminance n = dot n light /\ flt fzero (dot n light) = true)) as H.
  { unfold luminance, fmax. destruct (flt fzero (dot n light)); auto. }
  split; [exact H|]. split; [|split; [|split]].
  - destruct H as [->|[-> H]]; [reflexivity|apply flt_asym; exact H].
  - destruct H as [->|[-> H]]; [discriminate|].
    intros E. rewrite E in H. discriminate.
  - intros E. unfold luminance. rewrite E. reflexivity.
  - intros i Hi. pose proof (shadeIdx_range _ _ Hi) as Hr.
    change shadeMax with 9 in Hr. change (length shades) with 10%nat.
    split; [lia|].
    destruct (lookup_lt_is_Some_2 shades (Z.to_nat i)) as [c Hc];
      [change (length shades) with 10%nat; lia|].
    exists c. split; [|exact Hc].
    unfold glyph_of. rewrite Hi.
    change (Some (nth (Z.to_nat i) shades blank) = Some c).
    rewrite nth_lookup, Hc. reflexivity.
Qed.

(** ** The samples and the cells of a frame *)

Lemma length_flat_map_pair {A B : Type} (la : list A) (lb : list B) :
  length (flat_map (fun a => map (pair a) lb) la)
  = (length la * length lb)%nat.
Proof.
  induction la as [|a la IH]; [reflexivity|].
  cbn [flat_map length]. rewrite length_app, length_map, IH. reflexivity.
Qed.

Lemma frame_angles_length : length frame_angles = (90 * 315)%nat.
Proof.
  unfold frame_angles.
  rewrite length_flat_map_pair, thetas_length, phis_length. reflexivity.
Qed.

(** X6. Both loops of [renderTorus] terminate, whatever the angles,
    the buffer and the libm: [theta] takes 90 values and [phi] 315, so
    that a frame is the run of the loop body over 28350 samples in a
    fixed order, starting from the cleared buffer. *)
Theorem renderTorus_takes_28350_samples
    (cosf sinf : float -> float) (fuel : nat) (fb : FrameBuffer.t)
    (Ax Ay : float) :
  (315 <= fuel)%nat ->
  renderTorus cosf sinf fuel fb Ax Ay =
    run (fun s fb => plot cosf sinf Ax Ay s.1 s.2 fb) frame_angles
        (FrameBuffer.clear fb) /\
  frame_angles = flat_map (fun theta => map (pair theta) phis) thetas /\
  length thetas = 90%nat /\
  length phis = 315%nat /\
  Z.of_nat (length frame_angles) = 28350 /\
  renderTorus cosf sinf fuel fb Ax Ay <> OutOfFuel.
Proof.
  intros Hf. split; [apply renderTorus_run; exact Hf|].
  split; [reflexivity|].
  split; [exact thetas_length|]. split; [exact phis_length|].
  split; [rewrite frame_angles_length; reflexivity|].
  apply renderTorus_terminates. exact Hf.
Qed.

Lemma renderTorus_takes_28350_samples_witness :
  renderTorus cos_at_zero sin_at_zero 315 (FrameBuffer.new 4 2) fzero fzero
    <> OutOfFuel.
Proof.
  apply (renderTorus_takes_28350_samples cos_at_zero sin_at_zero 315
           (FrameBuffer.new 4 2) fzero fzero).
  lia.
Defined.

Section FrameInvariants.

Variables cosf sinf : float -> float.

(** A property of depths that every accepted write keeps is kept by a
    sample, and by a run of samples. *)
Lemma plot_depths (Q : float -> Prop) (Ax Ay theta phi : float)
    (fb fb' : FrameBuffer.t) :
  (forall d0, Q d0 -> flt d0 (invZ cosf sinf Ax Ay theta phi) = true ->
              Q (invZ cosf sinf Ax Ay theta phi)) ->
  FrameBuffer.wf fb -> Forall Q (FrameBuffer.depth fb) ->
  plot cosf sinf Ax Ay theta phi fb = Done fb' ->
  FrameBuffer.wf fb' /\ Forall Q (FrameBuffer.depth fb').
Proof.
  intros HQ Hwf Hd Hp.
  apply plot_done in Hp as (x & y & _ & _ & [[_ ->]|(Hb & ch & _ & Hs)]);
    [auto|].
  destruct (set_in_bounds fb x y (invZ cosf sinf Ax Ay theta phi) ch Hwf Hb)
    as (d0 & Hd0 & E).
  rewrite E in Hs. injection Hs as <-.
  destruct (flt d0 _) eqn:Hlt; [|auto].
  split; [apply wf_written; exact Hwf|].
  simpl. apply Forall_insert; [exact Hd|].
  apply (HQ d0); [|exact Hlt].
  rewrite Forall_forall in Hd. apply Hd.
  apply list_elem_of_lookup. eauto.
Qed.

Lemma run_depths (Q : float -> Prop) (Ax Ay : float)
    (l : list (float * float)) (fb fb' : FrameBuffer.t) :
  (forall theta phi d0,
     Q d0 -> flt d0 (invZ cosf sinf Ax Ay theta phi) = true ->
     Q (invZ cosf sinf Ax Ay theta phi)) ->
  FrameBuffer.wf fb -> Forall Q (FrameBuffer.depth fb) ->
  run (fun s fb => plot cosf sinf Ax Ay s.1 s.2 fb) l fb = Done fb' ->
  Forall Q (FrameBuffer.depth fb').
Proof.
  intros HQ. revert fb.
  induction l as [|s l IH]; intros fb Hwf Hr Hrun; simpl in Hrun.
  - congruence.
  - destruct (plot cosf sinf Ax Ay s.1 s.2 fb) as [fb1| |] eqn:Hp;
      try discriminate.
    apply (plot_depths Q) in Hp as [Hwf1 Hr1]; try assumption; [|apply HQ].
    exact (IH fb1 Hwf1 Hr1 Hrun).
Qed.

(** A frame is defined when the casts of its samples are. *)
Lemma run_plot_defined (Ax Ay : float) (l : list (float * float))
    (fb : FrameBuffer.t) :
  FrameBuffer.wf fb ->
  (forall s, In s l ->
     exists x y,
       cell_x cosf sinf (FrameBuffer.w fb) (FrameBuffer.h fb) Ax Ay s.1 s.2
         = Some x /\
       cell_y cosf sinf (FrameBuffer.w fb) (FrameBuffer.h fb) Ax Ay s.1 s.2
         = Some y /\
       (in_bounds fb x y ->
        is_Some (sample_glyph cosf sinf Ax Ay s.1 s.2))) ->
  exists fb', run (fun s fb => plot cosf sinf Ax Ay s.1 s.2 fb) l fb = Done fb'.
Proof.
  revert fb. induction l as [|s l IH]; intros fb Hwf Hc; simpl.
  - eauto.
  - destruct (Hc s (or_introl eq_refl)) as (x & y & Hx & Hy & Hg).
    assert (exists fb1, plot cosf sinf Ax Ay s.1 s.2 fb = Done fb1 /\
              FrameBuffer.wf fb1 /\
              FrameBuffer.w fb1 = FrameBuffer.w fb /\
              FrameBuffer.h fb1 = FrameBuffer.h fb)
      as (fb1 & -> & Hwf1 & Hw1 & Hh1).
    { destruct (out_of_bounds (FrameBuffer.w fb) (FrameBuffer.h fb) x y)
        eqn:Hoob.
      - exists fb. split; [|auto].
        apply plot_discards with (x := x) (y := y); try assumption.
        intros Hb. apply out_of_bounds_false in Hb. congruence.
      - apply out_of_bounds_false in Hoob.
        destruct (Hg Hoob) as [ch Hch].
        rewrite (plot_in_bounds cosf sinf Ax Ay s.1 s.2 fb x y ch)
          by assumption.
        destruct (set_in_bounds fb x y (invZ cosf sinf Ax Ay s.1 s.2) ch
                    Hwf Hoob) as (d0 & _ & E).
        rewrite E. eexists. split; [reflexivity|].
        destruct (flt d0 _); auto using wf_written. }
    cbn. apply IH; [exact Hwf1|].
    intros s' Hs'. rewrite Hw1, Hh1.
    destruct (Hc s' (or_intror Hs')) as (x' & y' & Hx' & Hy' & Hg').
    exists x', y'. do 2 (split; [assumption|]).
    intros Hb. apply Hg'. unfold in_bounds in *.
    rewrite <- Hw1, <- Hh1. exact Hb.
Qed.

End FrameInvariants.

(** ** Division returns binary32 numbers *)

Section Validity.

Lemma shr_1_m (r : shr_record) :
  0 <= shr_m r -> shr_m (shr_1 r) = shr_m r / 2.
Proof.
  destruct r as [m rb sb]. intros Hm. change (0 <= m) in Hm.
  rewrite shr_1_nonneg by exact Hm. reflexivity.
Qed.

Lemma shr_iter_m (r : shr_record) (j : nat) :
  0 <= shr_m r ->
  shr_m (Nat.iter j shr_1 r) = shr_m r / 2 ^ Z.of_nat j.
Proof.
  intros Hm. induction j as [|j IH].
  - simpl. rewrite Z.div_1_r. reflexivity.
  - rewrite Nat.iter_succ.
    assert (0 < 2 ^ Z.of_nat j) as Hj by (apply pow2_pos; lia).
    rewrite shr_1_m by (rewrite IH; apply Z.div_pos; lia).
    rewrite IH, Z.div_div by lia.
    rewrite Nat2Z.inj_succ, Z.pow_succ_r by lia.
    f_equal. lia.
Qed.

Lemma round_nearest_even_bounds (mx : Z) (lx : location) :
  mx <= round_nearest_even mx lx <= mx + 1.
Proof.
  destruct lx as [|[]]; simpl; try destruct (Z.even mx); lia.
Qed.

(** First stage of [binary_round_aux] on any location: the mantissa is
    divided by the power of two that brings it to the exponent of the
    format. *)
Lemma shr_fexp_m (m e : Z) (l : location) :
  0 <= m -> e <= fexp32 (Zdigits2 m + e) ->
  exists mrs : shr_record,
    shr_fexp prec emax m e l = (mrs, fexp32 (Zdigits2 m + e)) /\
    shr_m mrs = m / 2 ^ (fexp32 (Zdigits2 m + e) - e).
Proof.
  intros Hm Hn. unfold shr_fexp. change (fexp prec emax) with fexp32.
  set (E := fexp32 (Zdigits2 m + e)) in *.
  assert (shr_m (shr_record_of_loc m l) = m) as Hr
    by (destruct l as [|[]]; reflexivity).
  unfold shr. destruct (E - e) as [|p|p] eqn:En; [| |lia].
  - exists (shr_record_of_loc m l). split; [f_equal; lia|].
    rewrite Hr, Z.pow_0_r, Z.div_1_r. reflexivity.
  - exists (SpecFloat.iter_pos shr_1 p (shr_record_of_loc m l)).
    split; [f_equal; lia|].
    rewrite iter_pos_nat, shr_iter_m by (rewrite Hr; exact Hm).
    rewrite Hr. f_equal. f_equal. lia.
Qed.

Lemma shifted_bounds (m e : Z) :
  0 <= m -> e <= fexp32 (Zdigits2 m + e) ->
  0 <= m / 2 ^ (fexp32 (Zdigits2 m + e) - e) < 2 ^ 24 /\
  (-149 < fexp32 (Zdigits2 m + e) ->
   2 ^ 23 <= m / 2 ^ (fexp32 (Zdigits2 m + e) - e)).
Proof.
  intros Hm Hn. destruct m as [|p|p]; [| |lia].
  - rewrite Z.div_0_l by (apply Z.pow_nonzero; lia).
    split; [split; [lia|reflexivity]|].
    intros HE. exfalso. simpl Zdigits2 in *. unfold fexp32 in *. lia.
  - simpl Zdigits2 in *.
    pose proof (digits2_pos_bounds p) as [Hlo Hhi].
    set (d := Z.pos (digits2_pos p)) in *.
    set (n := fexp32 (d + e) - e) in *.
    assert (0 <= n) as Hn0 by (unfold n; lia).
    assert (d - 24 <= n) as Hdn by (unfold n, fexp32; lia).
    pose proof (pow2_pos n Hn0) as HPn.
    split; [split|].
    + apply Z.div_pos; lia.
    + apply Z.div_lt_upper_bound; [lia|].
      rewrite <- Z.pow_add_r by lia.
      eapply Z.lt_le_trans; [exact Hhi|]. apply Z.pow_le_mono_r; lia.
    + intros HE. assert (n = d - 24) as En by (unfold n, fexp32 in *; lia).
      apply Z.div_le_lower_bound; [lia|].
      rewrite <- Z.pow_add_r by lia.
      replace (n + 23) with (d - 1) by lia. exact Hlo.
Qed.

Lemma finish_valid (s : bool) (M E : Z) :
  -149 <= E -> 0 <= M <= 2 ^ 24 -> (-149 < E -> 2 ^ 23 <= M) ->
  valid_binary prec emax (finish s M E) = true.
Proof.
  intros HE HM Hnorm. unfold finish. destruct M as [|p|p]; [reflexivity| |lia].
  assert (forall (q : positive) (e : Z),
            -149 <= e <= 104 -> Z.pos q < 2 ^ 24 ->
            (-149 < e -> 2 ^ 23 <= Z.pos q) ->
            valid_binary prec emax (S754_finite s q e) = true) as Hv.
  { intros q e He Hq Hqn. unfold valid_binary, bounded, canonical_mantissa.
    change (fexp prec emax) with fexp32. change (emax - prec) with 104.
    apply andb_true_iff. split; [|apply Z.leb_le; lia].
    apply Z.eqb_eq.
    destruct (Z.eq_dec e (-149)) as [->|Hne].
    - pose proof (digits2_pos_bounds q) as [Hlo _].
      assert (Z.pos (digits2_pos q) - 1 < 24) by (apply pow2_lt_inv; lia).
      unfold fexp32. lia.
    - rewrite (digits2_pos_unique q 24) by (split; [apply Hqn|]; lia).
      unfold fexp32. lia. }
  destruct (Z.eqb_spec (Z.pos p) (2 ^ 24)) as [Ep|Ep].
  - destruct (Z.leb_spec (E + 1) 104); [|reflexivity].
    apply Hv; [lia|reflexivity|intros _; reflexivity].
  - destruct (Z.leb_spec E 104); [|reflexivity].
    apply Hv; [lia|lia|exact Hnorm].
Qed.

(** [binary_round_aux] on any location, for a mantissa that has the
    digits the format needs: the mantissa is shifted to the exponent of
    the format, moved up by at most one unit, and renormalised. *)
Lemma binary_round_aux_finish (s : bool) (m e : Z) (l : location) :
  0 <= m -> e <= fexp32 (Zdigits2 m + e) ->
  exists M : Z,
    binary_round_aux prec emax s m e l
      = finish s M (fexp32 (Zdigits2 m + e)) /\
    0 <= M <= 2 ^ 24 /\
    (-149 < fexp32 (Zdigits2 m + e) -> 2 ^ 23 <= M).
Proof.
  intros Hm Hn. unfold binary_round_aux.
  destruct (shr_fexp_m m e l Hm Hn) as (mrs & -> & Hmrs).
  destruct (shifted_bounds m e Hm Hn) as [Hb Hnorm].
  rewrite <- Hmrs in Hb, Hnorm.
  pose proof (round_nearest_even_bounds (shr_m mrs) (loc_of_shr_record mrs))
    as HM.
  set (M := round_nearest_even (shr_m mrs) (loc_of_shr_record mrs)) in *.
  assert (-149 <= fexp32 (Zdigits2 m + e)) as HE by (unfold fexp32; lia).
  exists M. rewrite renormalise by lia.
  split; [reflexivity|]. split; [lia|].
  intros H. specialize (Hnorm H). lia.
Qed.

(** The quotient of two finite floats. *)
Lemma fdiv_finite_finish (sa sb : bool) (ma mb : positive) (ea eb : Z) :
  exists M E : Z,
    fdiv (S754_finite sa ma ea) (S754_finite sb mb eb)
      = finish (xorb sa sb) M E /\
    -149 <= E /\ 0 <= M <= 2 ^ 24 /\ (-149 < E -> 2 ^ 23 <= M).
Proof.
  unfold fdiv, SFdiv, SFdiv_core_binary. change (fexp prec emax) with fexp32.
  simpl Zdigits2.
  pose proof (digits2_pos_bounds ma) as [Hloa Hhia].
  pose proof (digits2_pos_bounds mb) as [Hlob Hhib].
  set (d1 := Z.pos (digits2_pos ma)) in *.
  set (d2 := Z.pos (digits2_pos mb)) in *.
  set (e' := Z.min (fexp32 (d1 + ea - (d2 + eb))) (ea - eb)).
  set (sh := ea - eb - e').
  assert (0 <= sh) as Hsh by (unfold sh, e'; lia).
  assert ((match sh with
           | 0 => Z.pos ma
           | Z.pos _ => Z.shiftl (Z.pos ma) sh
           | Z.neg _ => 0
           end) = Z.pos ma * 2 ^ sh) as ->.
  { destruct sh as [|p|p] eqn:Es; [simpl; lia| |lia].
    rewrite Z.shiftl_mul_pow2 by lia. reflexivity. }
  pose proof (pow2_pos sh Hsh) as HPs.
  destruct (Z.div_eucl (Z.pos ma * 2 ^ sh) (Z.pos mb)) as [q r] eqn:Ediv.
  assert (q = Z.pos ma * 2 ^ sh / Z.pos mb) as Eq
    by (unfold Z.div; rewrite Ediv; reflexivity).
  assert (0 <= q) as Hq by (rewrite Eq; apply Z.div_pos; lia).
  assert (e' <= fexp32 (Zdigits2 q + e')) as Hn.
  { destruct (Z_le_gt_dec e' (-149)) as [Hlow|Hhigh];
      [unfold fexp32; lia|].
    assert (24 + d2 - d1 <= sh) as Hs24 by (unfold sh, e', fexp32 in *; lia).
    assert (2 ^ 23 <= q) as Hq23.
    { rewrite Eq. apply Z.div_le_lower_bound; [lia|].
      assert (2 ^ (d2 + 23) <= Z.pos ma * 2 ^ sh) as Hbig.
      { apply Z.le_trans with (2 ^ (d1 - 1) * 2 ^ sh).
        - rewrite <- Z.pow_add_r by lia. apply Z.pow_le_mono_r; lia.
        - apply Z.mul_le_mono_nonneg_r; lia. }
      rewrite Z.pow_add_r in Hbig by lia.
      pose proof (pow2_pos 23 ltac:(lia)). nia. }
    destruct q as [|qp|qp]; [simpl in Hq23; lia| |lia].
    simpl Zdigits2.
    assert (24 <= Z.pos (digits2_pos qp)).
    { pose proof (digits2_pos_bounds qp) as [_ Hhi].
      assert (23 < Z.pos (digits2_pos qp)); [|lia].
      apply pow2_lt_inv; lia. }
    unfold fexp32. lia. }
  destruct (binary_round_aux_finish (xorb sa sb) q e' (new_location (Z.pos mb) r)
              Hq Hn) as (M & -> & HM & Hnorm).
  exists M, (fexp32 (Zdigits2 q + e')).
  split; [reflexivity|]. split; [unfold fexp32; lia|]. auto.
Qed.

(** Division returns a number of the format, whatever its operands. *)
Lemma fdiv_valid (a b : float) : valid_binary prec emax (fdiv a b) = true.
Proof.
  destruct a as [sa|sa| |sa ma ea], b as [sb|sb| |sb mb eb]; try reflexivity.
  destruct (fdiv_finite_finish sa sb ma mb ea eb) as (M & E & -> & HE & HM & Hn).
  apply finish_valid; assumption.
Qed.

(** A quotient of two positive floats is [+0], positive or [+inf]. *)
Lemma finish_nonneg (M E : Z) :
  0 <= M ->
  finish false M E = S754_zero false \/
  finish false M E = S754_infinity false \/
  exists (m : positive) (e : Z), finish false M E = S754_finite false m e.
Proof.
  intros HM. unfold finish. destruct M as [|p|p]; [auto| |lia].
  destruct (Z.pos p =? 2 ^ 24);
    [destruct (E + 1 <=? 104)|destruct (E <=? 104)]; eauto.
Qed.

End Validity.

(** ** Every frame *)

Lemma above_sentinel_next (d0 d : float) :
  above_sentinel d0 -> flt d0 d = true -> above_sentinel d.
Proof.
  intros [->|H0] Hd; right; [exact Hd|].
  exact (flt_trans _ _ _ H0 Hd).
Qed.

Lemma above_sentinel_not_nan (d : float) : above_sentinel d -> d <> S754_nan.
Proof. intros [->|H] E; [discriminate|]. rewrite E in H. discriminate. Qed.

(** X7. A frame depends on the size of the buffer and on the angles
    only: [renderTorus] gives the same result on any two buffers of
    the same size, whatever they held; in particular the frame drawn
    over the previous frame, as [main] does, is the frame drawn on a
    fresh buffer. *)
Theorem frame_depends_on_size_only
    (cosf sinf : float -> float) (fuel : nat) (fb1 fb2 : FrameBuffer.t)
    (Ax Ay : float) :
  FrameBuffer.wf fb1 -> FrameBuffer.wf fb2 ->
  FrameBuffer.w fb1 = FrameBuffer.w fb2 ->
  FrameBuffer.h fb1 = FrameBuffer.h fb2 ->
  renderTorus cosf sinf fuel fb1 Ax Ay = renderTorus cosf sinf fuel fb2 Ax Ay /\
  forall (fuel' : nat) (Ax' Ay' : float) (fb' : FrameBuffer.t),
    (315 <= fuel')%nat ->
    renderTorus cosf sinf fuel' fb1 Ax' Ay' = Done fb' ->
    renderTorus cosf sinf fuel fb' Ax Ay =
    renderTorus cosf sinf fuel
      (FrameBuffer.new (FrameBuffer.w fb1) (FrameBuffer.h fb1)) Ax Ay.
Proof.
  intros Hwf1 Hwf2 Hw Hh. split.
  - unfold renderTorus.
    rewrite (clear_new fb1 Hwf1), (clear_new fb2 Hwf2), Hw, Hh. reflexivity.
  - intros fuel' Ax' Ay' fb' Hf Hrun.
    rewrite renderTorus_run in Hrun by exact Hf.
    apply run_plot_nearest in Hrun as (Hwf' & Hw' & Hh' & _);
      [|apply wf_clear; exact Hwf1].
    change (FrameBuffer.w (FrameBuffer.clear fb1)) with (FrameBuffer.w fb1)
      in Hw'.
    change (FrameBuffer.h (FrameBuffer.clear fb1)) with (FrameBuffer.h fb1)
      in Hh'.
    unfold renderTorus. rewrite (clear_new fb' Hwf'), Hw', Hh'.
    destruct Hwf1 as (Hw0 & Hh0 & _).
    rewrite (clear_new _ (wf_new _ _ Hw0 Hh0)). reflexivity.
Qed.

Lemma frame_depends_on_size_only_witness :
  renderTorus cos_at_zero sin_at_zero 315
    (written (FrameBuffer.new 4 2) 0 fone "@") fzero fzero =
  renderTorus cos_at_zero sin_at_zero 315 (FrameBuffer.new 4 2) fzero fzero.
Proof.
  apply (frame_depends_on_size_only cos_at_zero sin_at_zero 315
           (written (FrameBuffer.new 4 2) 0 fone "@") (FrameBuffer.new 4 2)).
  - apply wf_written. apply wf_new; lia.
  - apply wf_new; lia.
  - reflexivity.
  - reflexivity.
Defined.

(** X8. Every frame keeps the size of the buffer, and each of its
    cells holds a glyph of the ramp, which the compositor shows as it
    is, and a depth that is a binary32 number, not a NaN, and either
    the sentinel or a value that compared above the sentinel. *)
Theorem frame_cells_are_sane
    (cosf sinf : float -> float) (fuel : nat) (fb fb' : FrameBuffer.t)
    (Ax Ay : float) :
  (315 <= fuel)%nat -> FrameBuffer.wf fb ->
  renderTorus cosf sinf fuel fb Ax Ay = Done fb' ->
  FrameBuffer.wf fb' /\
  FrameBuffer.w fb' = FrameBuffer.w fb /\
  FrameBuffer.h fb' = FrameBuffer.h fb /\
  forall x y, in_bounds fb x y ->
    exists g d,
      FrameBuffer.get fb' x y = Some g /\
      FrameBuffer.depth fb' !! index fb x y = Some d /\
      In g shades /\ shown g = g /\
      above_sentinel d /\ d <> S754_nan /\
      valid_binary prec emax d = true.
Proof.
  intros Hf Hwf Hrun.
  pose proof (renderTorus_ramp_only cosf sinf fuel fb fb' Ax Ay Hf Hwf Hrun)
    as Hramp.
  rewrite renderTorus_run in Hrun by exact Hf.
  pose proof (wf_clear fb Hwf) as Hwfc.
  assert (Forall (fun d => above_sentinel d /\ valid_binary prec emax d = true)
                 (FrameBuffer.depth fb')) as Hdep.
  { apply (run_depths cosf sinf _ Ax Ay frame_angles (FrameBuffer.clear fb));
      [|exact Hwfc| |exact Hrun].
    - intros theta phi d0 [Ha _] Hlt.
      split; [exact (above_sentinel_next d0 _ Ha Hlt)|].
      unfold invZ. apply fdiv_valid.
    - simpl. apply Forall_replicate. split; [left|]; reflexivity. }
  apply run_plot_nearest in Hrun as (Hwf' & Hw' & Hh' & _); [|exact Hwfc].
  change (FrameBuffer.w (FrameBuffer.clear fb)) with (FrameBuffer.w fb) in Hw'.
  change (FrameBuffer.h (FrameBuffer.clear fb)) with (FrameBuffer.h fb) in Hh'.
  do 3 (split; [assumption|]).
  intros x y Hb.
  assert (in_bounds fb' x y) as Hb'
    by (unfold in_bounds; rewrite Hw', Hh'; exact Hb).
  assert (index fb' x y = index fb x y) as Hi
    by (unfold index; rewrite Hw'; reflexivity).
  destruct (get_in_bounds fb' x y Hwf' Hb') as (g & Hg & Hgl).
  destruct (lookup_lt_is_Some_2 _ _ (index_lt_depth fb' x y Hwf' Hb'))
    as [d Hd].
  rewrite Hi in Hd.
  assert (In g shades) as Hin.
  { unfold ramp_only in Hramp. rewrite Forall_forall in Hramp.
    apply Hramp. apply list_elem_of_lookup. eauto. }
  assert (above_sentinel d /\ valid_binary prec emax d = true) as [Hab Hv].
  { rewrite Forall_forall in Hdep. apply Hdep.
    apply list_elem_of_lookup. eauto. }
  exists g, d. do 3 (split; [assumption|]).
  split; [apply shown_ramp; exact Hin|].
  split; [exact Hab|]. split; [apply above_sentinel_not_nan; exact Hab|].
  exact Hv.
Qed.

Lemma frame_cells_are_sane_witness :
  exists g d,
    FrameBuffer.get (written (FrameBuffer.new 4 2) 7 (lit 1 3) blank) 3 1
      = Some g /\
    FrameBuffer.depth (written (FrameBuffer.new 4 2) 7 (lit 1 3) blank)
      !! index (FrameBuffer.new 4 2) 3 1 = Some d /\
    In g shades /\ shown g = g /\ above_sentinel d /\ d <> S754_nan /\
    valid_binary prec emax d = true.
Proof.
  apply (frame_cells_are_sane cos_at_zero sin_at_zero 315 (FrameBuffer.new 4 2)
           (written (FrameBuffer.new 4 2) 7 (lit 1 3) blank) fzero fzero).
  - lia.
  - apply wf_new; lia.
  - exact renderTorus_at_zero.
  - unfold in_bounds; simpl; lia.
Defined.

(** X9. The only undefined behaviour of [renderTorus] is a conversion
    to [int] that has no value: when the two casts of every sample are
    defined, and the cast of the luminance of every sample whose cell
    is in the buffer, the frame is produced; no access to the vectors
    is out of range. *)
Theorem frame_is_defined_when_casts_are
    (cosf sinf : float -> float) (fuel : nat) (fb : FrameBuffer.t)
    (Ax Ay : float) :
  (315 <= fuel)%nat -> FrameBuffer.wf fb ->
  (forall s, In s frame_angles ->
     exists x y,
       cell_x cosf sinf (FrameBuffer.w fb) (FrameBuffer.h fb) Ax Ay s.1 s.2
         = Some x /\
       cell_y cosf sinf (FrameBuffer.w fb) (FrameBuffer.h fb) Ax Ay s.1 s.2
         = Some y /\
       (in_bounds fb x y ->
        is_Some (sample_glyph cosf sinf Ax Ay s.1 s.2))) ->
  exists fb', renderTorus cosf sinf fuel fb Ax Ay = Done fb'.
Proof.
  intros Hf Hwf Hc. rewrite renderTorus_run by exact Hf.
  apply run_plot_defined; [apply wf_clear; exact Hwf|exact Hc].
Qed.

Lemma frame_is_defined_when_casts_are_witness :
  exists fb',
    renderTorus cos_at_zero sin_at_zero 315 (FrameBuffer.new 4 2) fzero fzero
      = Done fb'.
Proof.
  apply (frame_is_defined_when_casts_are cos_at_zero sin_at_zero 315
           (FrameBuffer.new 4 2) fzero fzero).
  - lia.
  - apply wf_new; lia.
  - intros s _. exists 3, 1.
    split; [vm_compute; reflexivity|].
    split; [vm_compute; reflexivity|].
    intros _. exists blank. vm_compute. reflexivity.
Defined.

(** X10. Plotting a sample a second time changes nothing: the second
    write has the depth the cell already holds and fails the strict
    depth test. *)
Theorem plot_is_idempotent
    (cosf sinf : float -> float) (Ax Ay theta phi : float)
    (fb fb1 : FrameBuffer.t) :
  FrameBuffer.wf fb ->
  plot cosf sinf Ax Ay theta phi fb = Done fb1 ->
  plot cosf sinf Ax Ay theta phi fb1 = Done fb1.
Proof.
  intros Hwf Hp. pose proof Hp as Hp0.
  apply plot_done in Hp as (x & y & Hx & Hy & [[_ ->]|(Hb & ch & Hch & Hs)]);
    [exact Hp0|].
  destruct (set_in_bounds fb x y (invZ cosf sinf Ax Ay theta phi) ch Hwf Hb)
    as (d0 & Hd0 & E).
  rewrite E in Hs. injection Hs as <-.
  destruct (flt d0 _) eqn:Hlt; [|exact Hp0].
  rewrite (plot_in_bounds cosf sinf Ax Ay theta phi _ x y ch);
    [|exact Hx|exact Hy|exact Hb|exact Hch].
  rewrite set_after_written by assumption.
  rewrite flt_irrefl. reflexivity.
Qed.

Lemma plot_is_idempotent_witness :
  plot cos_at_zero sin_at_zero fzero fzero fzero fzero
       (written (FrameBuffer.new 4 2) 7 (lit 1 3) blank)
  = Done (written (FrameBuffer.new 4 2) 7 (lit 1 3) blank).
Proof.
  apply (plot_is_idempotent cos_at_zero sin_at_zero fzero fzero fzero fzero
           (FrameBuffer.new 4 2)).
  - apply wf_new; lia.
  - vm_compute; reflexivity.
Defined.
(** ** Products in binary32 *)

Section Products.

Lemma fmul_finite (m c : positive) (e ec : Z) :
  fmul (S754_finite false m e) (S754_finite false c ec) =
  binary_round_aux prec emax false (Z.pos (m * c)) (e + ec) loc_Exact.
Proof. reflexivity. Qed.

(** A product has the digits the format needs as soon as one factor
    has a full mantissa. *)
Lemma target_exp_times (m c : positive) (e : Z) :
  Z.pos (digits2_pos m) = 24 \/ Z.pos (digits2_pos c) = 24 ->
  e <= target_exp (m * c) e.
Proof.
  intros Hd. unfold target_exp, fexp32.
  assert (24 <= Z.pos (digits2_pos (m * c))); [|lia].
  destruct Hd as [<-|<-]; apply digits2_pos_mono; nia.
Qed.

Lemma trunc_fmul_nonneg (m c : positive) (e ec z : Z) :
  Z.pos (digits2_pos m) = 24 \/ Z.pos (digits2_pos c) = 24 ->
  trunc_Z (fmul (S754_finite false m e) (S754_finite false c ec)) = Some z ->
  0 <= z.
Proof.
  intros Hd H. rewrite fmul_finite in H.
  pose proof (target_exp_times m c (e + ec) Hd) as Hn.
  apply trunc_Z_round in H; [|exact Hn]. subst z.
  pose proof (rounded_nonneg (m * c) (e + ec) Hn) as Hr.
  rewrite <- (Z.shiftl_0_l (e + ec)). apply shiftl_mono. lia.
Qed.

(** The integer part of [x * c] grows with [x], for a positive [c],
    when [c] or the two values of [x] have a full mantissa. *)
Lemma trunc_fmul_mono (c : positive) (ec : Z) (m1 m2 : positive)
    (e1 e2 z1 z2 : Z) :
  Z.pos (digits2_pos c) = 24 \/
  (Z.pos (digits2_pos m1) = 24 /\ Z.pos (digits2_pos m2) = 24) ->
  canonical m1 e1 -> canonical m2 e2 ->
  e1 < e2 \/ (e1 = e2 /\ (m1 <= m2)%positive) ->
  trunc_Z (fmul (S754_finite false m1 e1) (S754_finite false c ec)) = Some z1 ->
  trunc_Z (fmul (S754_finite false m2 e2) (S754_finite false c ec)) = Some z2 ->
  z1 <= z2.
Proof.
  intros Hd Hc1 Hc2 Hle H1 H2.
  rewrite fmul_finite in H1, H2.
  assert (e1 + ec <= target_exp (m1 * c) (e1 + ec)) as Hn1
    by (apply target_exp_times; tauto).
  assert (e2 + ec <= target_exp (m2 * c) (e2 + ec)) as Hn2
    by (apply target_exp_times; tauto).
  apply trunc_Z_round in H1; [|exact Hn1].
  destruct Hle as [Hlt|[<- Hm]].
  - destruct (canonical_digits m1 e1 Hc1) as (Hd1 & He1 & _).
    destruct (canonical_digits m2 e2 Hc2) as (_ & _ & Hd2).
    specialize (Hd2 ltac:(lia)).
    pose proof (digits2_pos_bounds m1) as [_ Hhi1].
    pose proof (digits2_pos_bounds m2) as [Hlo2 _].
    rewrite Hd2 in Hlo2. change (2 ^ (24 - 1)) with 8388608 in Hlo2.
    assert (Z.pos m1 < 16777216) as Hm1.
    { eapply Z.lt_le_trans; [exact Hhi1|].
      change 16777216 with (2 ^ 24). apply Z.pow_le_mono_r; lia. }
    set (j := e2 - e1).
    pose proof (pow2_pos j ltac:(lia)) as HPj.
    assert (2 <= 2 ^ j) as HPj2
      by (change 2 with (2 ^ 1) at 1; apply Z.pow_le_mono_r; lia).
    set (p := Z.to_pos (Z.pos (m2 * c) * 2 ^ j)).
    assert (Z.pos p = Z.pos (m2 * c) * 2 ^ j) as Hp
      by (unfold p; rewrite Z2Pos.id; lia).
    rewrite <- (binary_round_aux_scale (m2 * c) p (e2 + ec) j)
      in H2 by (try exact Hn2; try exact Hp; lia).
    replace (e2 + ec - j) with (e1 + ec) in H2 by lia.
    assert (Z.pos (m2 * c) <= Z.pos p) as Hpp by nia.
    assert (e1 + ec <= target_exp p (e1 + ec)) as Hnp.
    { unfold target_exp, fexp32.
      assert (24 <= Z.pos (digits2_pos p)); [|lia].
      assert (24 <= Z.pos (digits2_pos (m2 * c))) as H24.
      { rewrite <- Hd2. apply digits2_pos_mono. nia. }
      pose proof (digits2_pos_mono (m2 * c) p ltac:(lia)). lia. }
    apply trunc_Z_round in H2; [|exact Hnp].
    subst z1 z2. apply shiftl_mono.
    split; [apply rounded_nonneg; exact Hn1|].
    apply rounded_mono; [exact Hn1|].
    rewrite Pos2Z.inj_mul in Hp.
    assert (Z.pos m1 <= Z.pos m2 * 2 ^ j) as Hmm by nia.
    assert (Z.pos m1 * Z.pos c <= Z.pos m2 * 2 ^ j * Z.pos c)
      by (apply Z.mul_le_mono_nonneg_r; lia).
    assert (Z.pos (m1 * c) <= Z.pos p) by (rewrite Pos2Z.inj_mul; lia).
    lia.
  - apply trunc_Z_round in H2; [|exact Hn2].
    subst z1 z2. apply shiftl_mono.
    split; [apply rounded_nonneg; exact Hn1|].
    apply rounded_mono; [exact Hn1|]. nia.
Qed.

(** Integers below 2^24 are binary32 numbers, ordered as integers. *)
Lemma holds_canonical (m : positive) (e : Z) :
  Z.pos (digits2_pos m) = 24 -> -149 <= e <= 104 -> canonical m e.
Proof.
  intros Hd He. unfold canonical, valid_binary, bounded, canonical_mantissa.
  change (fexp prec emax) with fexp32. change (emax - prec) with 104.
  rewrite Hd. apply andb_true_iff.
  split; [apply Z.eqb_eq; unfold fexp32|apply Z.leb_le]; lia.
Qed.

Lemma of_int_order (x x' : Z) :
  0 < x <= x' -> x' < 2 ^ 24 ->
  exists (m m' : positive) (e e' : Z),
    of_int x = S754_finite false m e /\
    of_int x' = S754_finite false m' e' /\
    Z.pos (digits2_pos m) = 24 /\ Z.pos (digits2_pos m') = 24 /\
    canonical m e /\ canonical m' e' /\
    (e < e' \/ (e = e' /\ (m <= m')%positive)).
Proof.
  intros Hx Hx'.
  destruct (of_int_holds x ltac:(lia)) as (m & e & -> & Hd & He & Hm).
  destruct (of_int_holds x' ltac:(lia)) as (m' & e' & -> & Hd' & He' & Hm').
  exists m, m', e, e'. do 4 (split; [auto|]).
  split; [apply holds_canonical; [exact Hd|lia]|].
  split; [apply holds_canonical; [exact Hd'|lia]|].
  pose proof (digits2_pos_bounds m) as [Hlo _].
  pose proof (digits2_pos_bounds m') as [_ Hhi'].
  rewrite Hd in Hlo. rewrite Hd' in Hhi'.
  change (2 ^ (24 - 1)) with 8388608 in Hlo. change (2 ^ 24) with 16777216 in Hhi'.
  pose proof (pow2_pos (- e) ltac:(lia)) as HP.
  pose proof (pow2_pos (- e') ltac:(lia)) as HP'.
  destruct (Z_lt_le_dec e e') as [Hlt|Hge]; [left; exact Hlt|].
  right. destruct (Z.eq_dec e e') as [<-|Hne]; [split; [reflexivity|nia]|].
  exfalso.
  assert (2 ^ (- e') = 2 ^ (e - e') * 2 ^ (- e)) as Esplit
    by (rewrite <- Z.pow_add_r by lia; f_equal; lia).
  assert (2 <= 2 ^ (e - e'))
    by (change 2 with (2 ^ 1) at 1; apply Z.pow_le_mono_r; lia).
  nia.
Qed.

End Products.
(** ** The compositor on any terminal *)

Lemma clamp_range (v lo hi : Z) : lo <= hi -> lo <= clamp v lo hi <= hi.
Proof.
  intros H. unfold clamp.
  destruct (Z.ltb_spec v lo), (Z.ltb_spec hi v); lia.
Qed.

Lemma shown_not_nul (c : ascii) : shown c <> Ascii.zero.
Proof.
  unfold shown. destruct (Ascii.eqb c Ascii.zero) eqn:E; [discriminate|].
  apply Ascii.eqb_neq. exact E.
Qed.

Lemma sample_coord_range (fb : FrameBuffer.t) (rows cols origin i limit v : Z) :
  1 <= limit ->
  sample_coord fb rows cols origin i limit = Some v -> 0 <= v < limit.
Proof.
  intros Hl. unfold sample_coord.
  destruct (to_int _) as [k|]; [|discriminate].
  intros [= <-]. pose proof (clamp_range (origin + k) 0 (limit - 1)). lia.
Qed.

Lemma lookup_seqZ_0 (n i : Z) : 0 <= i < n -> seqZ 0 n !! Z.to_nat i = Some i.
Proof. intros Hi. rewrite lookup_seqZ_lt by lia. f_equal. lia. Qed.

(** X11. On any terminal for which it is defined, the compositor
    writes one row per terminal line and one glyph per column, and the
    glyph at line [y], column [x] is the glyph of the buffer cell
    [(fx x, fy y)], a cell of the buffer whose column depends on [x]
    only and whose row on [y] only (nearest-neighbour sampling); a NUL
    is never written. *)
Theorem blit_samples_the_buffer
    (fb : FrameBuffer.t) (rows cols : Z) (scr : screen) :
  1 <= FrameBuffer.w fb -> 1 <= FrameBuffer.h fb ->
  blitVirtualToCurses fb rows cols = Some scr ->
  length scr = Z.to_nat rows /\
  (forall row, In row scr -> length row = Z.to_nat cols) /\
  exists fx fy : Z -> Z,
    forall y x, 0 <= y < rows -> 0 <= x < cols ->
      in_bounds fb (fx x) (fy y) /\
      exists c,
        FrameBuffer.get fb (fx x) (fy y) = Some c /\
        cell_of scr y x = Some (shown c) /\
        shown c <> Ascii.zero.
Proof.
  intros Hw Hh H. unfold blitVirtualToCurses in H.
  destruct (x0 fb rows cols) as [ox|]; [|discriminate].
  destruct (y0 fb rows cols) as [oy|]; [|discriminate].
  cbn in H. apply mapM_Some in H.
  split; [|split].
  - rewrite <- (Forall2_length _ _ _ H). apply length_seqZ.
  - intros row Hrow.
    apply list_elem_of_In, list_elem_of_lookup in Hrow as [i Hi].
    destruct (Forall2_lookup_r _ _ _ _ _ H Hi) as (y & _ & Hy).
    destruct (sample_coord fb rows cols oy y (FrameBuffer.h fb)) as [vy|];
      [|discriminate].
    cbn in Hy. unfold blit_row in Hy. apply mapM_Some in Hy.
    rewrite <- (Forall2_length _ _ _ Hy). apply length_seqZ.
  - exists (fun x => default 0 (sample_coord fb rows cols ox x (FrameBuffer.w fb))),
           (fun y => default 0 (sample_coord fb rows cols oy y (FrameBuffer.h fb))).
    intros y x Hy Hx.
    destruct (Forall2_lookup_l _ _ _ _ _ H (lookup_seqZ_0 rows y Hy))
      as (row & Hrow & Hry).
    destruct (sample_coord fb rows cols oy y (FrameBuffer.h fb)) as [vy|] eqn:Evy;
      [|discriminate].
    cbn in Hry. unfold blit_row in Hry. apply mapM_Some in Hry.
    destruct (Forall2_lookup_l _ _ _ _ _ Hry (lookup_seqZ_0 cols x Hx))
      as (ch & Hch & Hc).
    destruct (sample_coord fb rows cols ox x (FrameBuffer.w fb)) as [vx|] eqn:Evx;
      [|discriminate].
    cbn in Hc.
    destruct (FrameBuffer.get fb vx vy) as [c|] eqn:Eg; [|discriminate].
    cbn in Hc. injection Hc as <-.
    apply sample_coord_range in Evx; [|exact Hw].
    apply sample_coord_range in Evy; [|exact Hh].
    split; [unfold in_bounds; simpl; lia|].
    exists c. simpl. split; [exact Eg|]. split; [|apply shown_not_nul].
    unfold cell_of.
    replace ((y <? 0) || (x <? 0)) with false
      by (symmetry; apply orb_false_iff; split; apply Z.ltb_ge; lia).
    rewrite Hrow. cbn. exact Hch.
Qed.

Lemma blit_samples_the_buffer_witness :
  exists scr : screen,
    blitVirtualToCurses (written (FrameBuffer.new 4 2) 7 fone "@") 4 8
      = Some scr /\
    length scr = 4%nat.
Proof.
  eexists. split; [vm_compute; reflexivity|].
  apply (blit_samples_the_buffer (written (FrameBuffer.new 4 2) 7 fone "@")
           4 8); [simpl; lia|simpl; lia|vm_compute; reflexivity].
Defined.

(** X12. The only undefined behaviour of the compositor is a
    conversion to [int] that has no value: on a buffer with at least
    one cell, when the casts of the view size and of the scaled
    terminal coordinates are defined, every read of the buffer is in
    range and the screen is produced. *)
Theorem blit_is_defined_when_casts_are
    (fb : FrameBuffer.t) (rows cols : Z) :
  FrameBuffer.wf fb ->
  1 <= FrameBuffer.w fb -> 1 <= FrameBuffer.h fb ->
  is_Some (viewW fb rows cols) -> is_Some (viewH fb rows cols) ->
  (forall i, 0 <= i < Z.max rows cols ->
     is_Some (to_int (fmul (of_int i) (invS fb rows cols)))) ->
  is_Some (blitVirtualToCurses fb rows cols).
Proof.
  intros Hwf Hw Hh [vw Evw] [vh Evh] Hcast.
  unfold blitVirtualToCurses, x0, y0. rewrite Evw, Evh. cbn.
  assert (forall origin i limit, 0 <= i < Z.max rows cols -> 1 <= limit ->
            exists v, sample_coord fb rows cols origin i limit = Some v /\
                      0 <= v < limit) as Hsc.
  { intros origin i limit Hi Hl. unfold sample_coord.
    destruct (Hcast i Hi) as [k ->]. cbn. eexists. split; [reflexivity|].
    pose proof (clamp_range (origin + k) 0 (limit - 1)). lia. }
  apply mapM_is_Some, Forall_forall. intros y Hy.
  apply elem_of_seqZ_0 in Hy. simpl.
  destruct (Hsc ((FrameBuffer.h fb - vh) ÷ 2) y (FrameBuffer.h fb))
    as (vy & -> & Hvy); [lia|exact Hh|].
  cbn. unfold blit_row.
  apply mapM_is_Some, Forall_forall. intros x Hx.
  apply elem_of_seqZ_0 in Hx. simpl.
  destruct (Hsc ((FrameBuffer.w fb - vw) ÷ 2) x (FrameBuffer.w fb))
    as (vx & -> & Hvx); [lia|exact Hw|].
  cbn.
  destruct (get_in_bounds fb vx vy Hwf) as (c & -> & _);
    [unfold in_bounds; lia|].
  cbn. eauto.
Qed.

Lemma blit_is_defined_when_casts_are_witness :
  is_Some (blitVirtualToCurses (FrameBuffer.new 4 2) 1 2).
Proof.
  apply (blit_is_defined_when_casts_are (FrameBuffer.new 4 2) 1 2).
  - apply wf_new; lia.
  - simpl; lia.
  - simpl; lia.
  - vm_compute. eauto.
  - vm_compute. eauto.
  - intros i Hi. assert (i = 0 \/ i = 1) as [-> | ->] by lia;
      vm_compute; eauto.
Defined.

(** X13. On a terminal of 0 lines and 0 columns the compositor is
    undefined, whatever the buffer: the scale is 0 or a NaN, its
    inverse an infinity or a NaN, and [cols * invS] is a NaN, which
    [static_cast<int>] cannot convert. *)
Theorem blit_on_empty_terminal_is_undefined (fb : FrameBuffer.t) :
  viewW fb 0 0 = None /\ blitVirtualToCurses fb 0 0 = None.
Proof.
  assert (viewW fb 0 0 = None) as E.
  { unfold viewW, invS, scale_s.
    destruct (of_int (FrameBuffer.w fb)) as [[]|[]| |[] mw ew];
      destruct (of_int (FrameBuffer.h fb)) as [[]|[]| |[] mh eh];
      reflexivity. }
  split; [exact E|].
  unfold blitVirtualToCurses, x0. rewrite E. reflexivity.
Qed.

Section Sampling.

Lemma of_int_small (x : Z) :
  0 <= x < 2 ^ 24 ->
  of_int x = S754_zero false \/
  exists (m : positive) (e : Z), of_int x = S754_finite false m e.
Proof.
  intros Hx. destruct (Z.eq_dec x 0) as [->|Hne]; [left; reflexivity|].
  destruct (of_int_holds x ltac:(lia)) as (m & e & -> & _). eauto.
Qed.

Lemma fdiv_plus_signed (a : float) (mb : positive) (eb : Z) :
  a = S754_zero false \/
  (exists (m : positive) (e : Z), a = S754_finite false m e) ->
  plus_signed (fdiv a (S754_finite false mb eb)).
Proof.
  intros [->|(m & e & ->)]; [exact I|].
  destruct (fdiv_finite_finish false false m mb e eb)
    as (M & E & Eq & _ & HM & _).
  change (xorb false false) with false in Eq. rewrite Eq.
  destruct (finish_nonneg M E ltac:(lia)) as [->|[->|(mr & er & ->)]]; exact I.
Qed.

Lemma fdiv_fone_plus_signed (s : float) :
  plus_signed s -> plus_signed (fdiv fone s).
Proof.
  change fone with (S754_finite false 8388608 (-23)).
  destruct s as [[]|[]| |[] m e]; try contradiction; intros _; try exact I.
  apply fdiv_plus_signed. eauto.
Qed.

(** The inverse scale is [+0], positive or [+inf]. *)
Lemma invS_plus_signed (fb : FrameBuffer.t) (rows cols : Z) :
  0 < FrameBuffer.w fb < 2 ^ 24 -> 0 < FrameBuffer.h fb < 2 ^ 24 ->
  0 <= rows < 2 ^ 24 -> 0 <= cols < 2 ^ 24 ->
  plus_signed (invS fb rows cols).
Proof.
  intros Hw Hh Hr Hc. unfold invS. apply fdiv_fone_plus_signed.
  unfold scale_s.
  destruct (of_int_holds (FrameBuffer.w fb) Hw) as (mw & ew & -> & _).
  destruct (of_int_holds (FrameBuffer.h fb) Hh) as (mh & eh & -> & _).
  pose proof (fdiv_plus_signed (of_int cols) mw ew (of_int_small cols Hc)).
  pose proof (fdiv_plus_signed (of_int rows) mh eh (of_int_small rows Hr)).
  unfold fmax. destruct (flt _ _); assumption.
Qed.

(** The integer part of [i * c] grows with the integer [i]. *)
Lemma scaled_index_mono (c : float) (i j zi zj : Z) :
  plus_signed c -> 0 <= i <= j -> j < 2 ^ 24 ->
  to_int (fmul (of_int i) c) = Some zi ->
  to_int (fmul (of_int j) c) = Some zj ->
  zi <= zj.
Proof.
  intros Hc Hij Hj Hi Hj'.
  destruct c as [[]|[]| |[] mc ec]; try contradiction.
  - (* c = +0 *)
    destruct (of_int_small i ltac:(lia)) as [Ei|(m & e & Ei)];
      destruct (of_int_small j ltac:(lia)) as [Ej|(m' & e' & Ej)];
      rewrite Ei in Hi; rewrite Ej in Hj';
      injection Hi as <-; injection Hj' as <-; lia.
  - (* c = +inf *)
    destruct (of_int_small i ltac:(lia)) as [Ei|(m & e & Ei)];
      rewrite Ei in Hi; discriminate.
  - apply to_int_trunc_Z in Hi, Hj'.
    destruct (Z.eq_dec i 0) as [->|Hi0].
    + injection Hi as <-.
      destruct (Z.eq_dec j 0) as [->|Hj0]; [injection Hj' as <-; lia|].
      destruct (of_int_holds j ltac:(lia)) as (m' & e' & Ej & Hd' & _).
      rewrite Ej in Hj'.
      apply (trunc_fmul_nonneg m' mc e' ec); [left; exact Hd'|exact Hj'].
    + destruct (of_int_order i j ltac:(lia) Hj)
        as (m & m' & e & e' & Ei & Ej & Hd & Hd' & Hcm & Hcm' & Hord).
      rewrite Ei in Hi. rewrite Ej in Hj'.
      apply (trunc_fmul_mono mc ec m m' e e' zi zj); auto.
Qed.

End Sampling.

(** X14. The compositor samples in order: for terminal and buffer
    sizes below 2^24, the buffer coordinate sampled for a terminal
    coordinate [i] is at most the one sampled for any [j >= i], on the
    rows as on the columns, so that the image is never mirrored or
    scrambled. *)
Theorem compositor_sampling_is_monotone
    (fb : FrameBuffer.t) (rows cols origin limit i j vi vj : Z) :
  0 < FrameBuffer.w fb < 2 ^ 24 -> 0 < FrameBuffer.h fb < 2 ^ 24 ->
  0 <= rows < 2 ^ 24 -> 0 <= cols < 2 ^ 24 ->
  0 <= i <= j -> j < 2 ^ 24 -> 1 <= limit ->
  sample_coord fb rows cols origin i limit = Some vi ->
  sample_coord fb rows cols origin j limit = Some vj ->
  vi <= vj.
Proof.
  intros Hw Hh Hr Hc Hij Hj Hl Hi Hj'.
  pose proof (invS_plus_signed fb rows cols Hw Hh Hr Hc) as Hs.
  unfold sample_coord in Hi, Hj'.
  destruct (to_int (fmul (of_int i) (invS fb rows cols))) as [zi|] eqn:Ei;
    [|discriminate].
  destruct (to_int (fmul (of_int j) (invS fb rows cols))) as [zj|] eqn:Ej;
    [|discriminate].
  injection Hi as <-. injection Hj' as <-.
  apply clamp_mono; [lia|].
  pose proof (scaled_index_mono _ i j zi zj Hs Hij Hj Ei Ej). lia.
Qed.

Lemma compositor_sampling_is_monotone_witness :
  sample_coord (FrameBuffer.new 4 2) 4 8 0 1 4 = Some 0 /\
  sample_coord (FrameBuffer.new 4 2) 4 8 0 5 4 = Some 2 /\
  0 <= 2.
Proof.
  split; [vm_compute; reflexivity|]. split; [vm_compute; reflexivity|].
  apply (compositor_sampling_is_monotone (FrameBuffer.new 4 2) 4 8 0 4 1 5 0 2);
    try (simpl; lia); vm_compute; reflexivity.
Defined.
(** ** Sizing of the virtual buffer *)

Section Sizing.

(** A base size times a factor that is at least 1 is at least the
    base size, or overflows. *)
Lemma fmul_ge_one (mb : positive) (eb : Z) (m : positive) (e : Z) :
  Z.pos (digits2_pos mb) = 24 -> -100 <= eb <= 50 ->
  canonical m e -> -23 < e \/ (e = -23 /\ 2 ^ 23 <= Z.pos m) ->
  fmul (S754_finite false mb eb) (S754_finite false m e) = S754_infinity false \/
  exists (mr : positive) (er : Z),
    fmul (S754_finite false mb eb) (S754_finite false m e)
      = S754_finite false mr er /\
    canonical mr er /\
    (eb < er \/ (er = eb /\ (mb <= mr)%positive)).
Proof.
  intros Hdb Heb Hc Hge.
  destruct (canonical_digits m e Hc) as (_ & _ & Hdm).
  specialize (Hdm ltac:(lia)).
  pose proof (digits2_pos_bounds mb) as [Hlob Hhib].
  pose proof (digits2_pos_bounds m) as [Hlom Hhim].
  rewrite Hdb in Hlob, Hhib. rewrite Hdm in Hlom, Hhim.
  change (2 ^ (24 - 1)) with (2 ^ 23) in Hlob, Hlom.
  rewrite fmul_finite.
  assert (eb + e <= target_exp (mb * m) (eb + e)) as Hn
    by (apply target_exp_times; left; exact Hdb).
  rewrite binary_round_aux_exact by exact Hn.
  pose proof (digits2_pos_bounds (mb * m)) as [HloP HhiP].
  set (P := Z.pos (mb * m)) in *.
  assert (2 ^ 46 <= P < 2 ^ 48) as HP.
  { unfold P. rewrite Pos2Z.inj_mul.
    change (2 ^ 46) with (2 ^ 23 * 2 ^ 23). change (2 ^ 48) with (2 ^ 24 * 2 ^ 24).
    nia. }
  set (dP := Z.pos (digits2_pos (mb * m))) in *.
  assert (47 <= dP <= 48) as HdP.
  { split.
    - assert (46 < dP); [|lia]. apply pow2_lt_inv; lia.
    - assert (dP - 1 < 48); [|lia]. apply pow2_lt_inv; lia. }
  assert (target_exp (mb * m) (eb + e) = dP + eb + e - 24) as HE
    by (unfold target_exp, fexp32; fold dP; lia).
  pose proof (rne_target_le (mb * m) (eb + e) Hn) as HMhi.
  fold P in HMhi. rewrite HE in *.
  replace (dP + eb + e - 24 - (eb + e)) with (dP - 24) in * by lia.
  pose proof (rne_bounds P (dP - 24) ltac:(lia) ltac:(lia)) as [HMlo _].
  assert (2 ^ 23 <= P / 2 ^ (dP - 24)) as Hq.
  { apply Z.div_le_lower_bound; [apply pow2_pos; lia|].
    rewrite <- Z.pow_add_r by lia.
    replace (dP - 24 + 23) with (dP - 1) by lia. exact HloP. }
  assert (dP + eb + e - 24 = eb -> Z.pos mb <= rne P (dP - 24)) as Hsame.
  { intros Heq. assert (dP = 47 /\ e = -23) as [EdP Ee] by lia.
    rewrite EdP. change (47 - 24) with 23.
    destruct Hge as [Hge|[_ Hge]]; [lia|].
    rewrite <- (rne_0 (Z.pos mb)), <- (rne_scale (Z.pos mb) 0 23) by lia.
    apply rne_mono; [|lia]. unfold P. rewrite Pos2Z.inj_mul. nia. }
  set (M := rne P (dP - 24)) in *.
  set (E := dP + eb + e - 24) in *.
  pose proof (finish_valid false M E ltac:(lia) ltac:(lia) ltac:(lia)) as Hv.
  unfold finish in *. destruct M as [|p|p] eqn:EM; [lia| |lia].
  destruct (Z.eqb_spec (Z.pos p) (2 ^ 24)) as [Ep|Ep].
  - destruct (Z.leb_spec (E + 1) 104); [|left; reflexivity].
    right. exists (2 ^ 23)%positive, (E + 1).
    split; [reflexivity|]. split; [exact Hv|]. left. lia.
  - destruct (Z.leb_spec E 104); [|left; reflexivity].
    right. exists p, E. split; [reflexivity|]. split; [exact Hv|].
    destruct (Z.eq_dec E eb) as [Heq|Hne]; [|left; lia].
    right. split; [exact Heq|]. specialize (Hsame Heq). lia.
Qed.

Lemma flt_fone (x : float) :
  flt fone x = true ->
  x = S754_infinity false \/
  exists (m : positive) (e : Z),
    x = S754_finite false m e /\
    (-23 < e \/ (e = -23 /\ 2 ^ 23 <= Z.pos m)).
Proof.
  change fone with (S754_finite false 8388608 (-23)).
  destruct x as [s|s| |s m e]; try destruct s; try discriminate.
  - left. reflexivity.
  - intros H. apply flt_finite_pos in H. right. exists m, e.
    split; [reflexivity|]. change (2 ^ 23) with 8388608. lia.
Qed.

(** The size computed from a base and a factor [max(1, x)]. *)
Lemma scaled_base_at_least (mb : positive) (eb : Z) (x : float) (z0 z : Z) :
  Z.pos (digits2_pos mb) = 24 -> -100 <= eb <= 50 ->
  canonical mb eb ->
  valid_binary prec emax x = true ->
  fmul (S754_finite false mb eb) fone = S754_finite false mb eb ->
  to_int (fmul (S754_finite false mb eb) overscan) = Some z0 ->
  to_int (fmul (fmul (S754_finite false mb eb) (fmax fone x)) overscan)
    = Some z ->
  z0 <= z.
Proof.
  intros Hdb Heb Hcb Hvx Hone H0 H.
  unfold fmax in H. destruct (flt fone x) eqn:Hx.
  - apply flt_fone in Hx as [->|(m & e & -> & Hge)]; [discriminate|].
    destruct (fmul_ge_one mb eb m e Hdb Heb Hvx Hge)
      as [E|(mr & er & E & Hcr & Hord)]; rewrite E in H; [discriminate|].
    change overscan with (S754_finite false 9646899 (-23)) in H0, H.
    apply to_int_trunc_Z in H0, H.
    apply (trunc_fmul_mono 9646899 (-23) mb mr eb er z0 z);
      try assumption; [left; reflexivity|lia].
  - rewrite Hone in H. assert (z = z0) by congruence. lia.
Qed.

Lemma aspect_valid (rows cols : Z) :
  valid_binary prec emax (aspect rows cols) = true.
Proof.
  unfold aspect. destruct (0 <? rows); [apply fdiv_valid|reflexivity].
Qed.

End Sizing.

(** X15. Whatever size the terminal reports, the virtual buffer is
    never smaller than the base size with its overscan: when the two
    casts of [main] are defined the buffer is at least 184 cells wide
    and 103 cells high, so that it is never empty; a terminal that
    reports no line gets exactly that size. *)
Theorem buffer_is_at_least_the_base_size (rows cols W H : Z) :
  fbW rows cols = Some W -> fbH rows cols = Some H ->
  184 <= W /\ 103 <= H /\ 18952 <= W * H /\
  (rows <= 0 -> W = 184 /\ H = 103).
Proof.
  intros HW HH.
  assert (184 <= W) as H1.
  { unfold fbW in HW.
    change (of_int baseW) with (S754_finite false 10485760 (-16)) in HW.
    apply (scaled_base_at_least 10485760 (-16) (aspect rows cols) 184 W);
      try reflexivity; try lia; [apply aspect_valid|exact HW]. }
  assert (103 <= H) as H2.
  { unfold fbH in HH.
    change (of_int baseH) with (S754_finite false 11796480 (-17)) in HH.
    apply (scaled_base_at_least 11796480 (-17)
             (fdiv fone (aspect rows cols)) 103 H);
      try reflexivity; try lia; [apply fdiv_valid|exact HH]. }
  do 2 (split; [assumption|]). split; [nia|].
  intros Hr. unfold fbW, fbH, aspect in HW, HH.
  replace (0 <? rows) with false in HW, HH by (symmetry; apply Z.ltb_ge; lia).
  vm_compute in HW, HH. split; congruence.
Qed.

Lemma buffer_is_at_least_the_base_size_witness :
  fbW 24 80 = Some 613 /\ fbH 24 80 = Some 103 /\
  184 <= 613 /\ 103 <= 103.
Proof.
  assert (fbW 24 80 = Some 613) as HW by (vm_compute; reflexivity).
  assert (fbH 24 80 = Some 103) as HH by (vm_compute; reflexivity).
  destruct (buffer_is_at_least_the_base_size 24 80 613 103 HW HH)
    as (H1 & H2 & _).
  auto.
Defined.

(** X16. A terminal that reports lines but no column makes the sizing
    of [main] undefined: the aspect ratio is 0, its inverse is
    [+inf], and so is the height [baseH * max(1, 1/aspect) * overscan],
    which [static_cast<int>] cannot convert; the width is the base
    width. *)
Theorem zero_columns_are_undefined (rows : Z) :
  0 < rows < 2 ^ 24 ->
  aspect rows 0 = fzero /\
  fdiv fone (aspect rows 0) = S754_infinity false /\
  fbW rows 0 = Some 184 /\
  fbH rows 0 = None.
Proof.
  intros Hr.
  assert (aspect rows 0 = fzero) as Ea.
  { unfold aspect.
    replace (0 <? rows) with true by (symmetry; apply Z.ltb_lt; lia).
    destruct (of_int_holds rows Hr) as (m & e & -> & _). reflexivity. }
  split; [exact Ea|].
  split; [rewrite Ea; reflexivity|].
  split; [unfold fbW; rewrite Ea; reflexivity|].
  unfold fbH. rewrite Ea. reflexivity.
Qed.

Lemma zero_columns_are_undefined_witness : fbH 24 0 = None.
Proof. apply (zero_columns_are_undefined 24). lia. Defined.

(** ** [normalize] at the edges of binary32 *)

(** X22. In binary32 [normalize] returns the zero vector not only for
    a vector of length 0: also when the squared length [dot(v, v)] is
    a NaN, when it underflows to 0, and, for finite components, when
    it overflows to [+inf] (then every component is divided by
    [+inf]); a vector as short as (2^-80, 0, 0) or as long as
    (2^64, 0, 0) is not scaled to unit length. *)
Theorem normalize_at_the_edges (v : Vec3) :
  (dot v v = S754_nan -> normalize v = mkVec3 fzero fzero fzero) /\
  (SFeqb (dot v v) fzero = true -> normalize v = mkVec3 fzero fzero fzero) /\
  (dot v v = S754_infinity false ->
   is_finite (vec_x v) -> is_finite (vec_y v) -> is_finite (vec_z v) ->
   SFeqb (vec_x (normalize v)) fzero = true /\
   SFeqb (vec_y (normalize v)) fzero = true /\
   SFeqb (vec_z (normalize v)) fzero = true /\
   dot (normalize v) (normalize v) = fzero) /\
  normalize (mkVec3 (S754_finite false 8388608 (-103)) fzero fzero)
    = mkVec3 fzero fzero fzero /\
  normalize (mkVec3 (of_int (2 ^ 64)) fzero fzero)
    = mkVec3 fzero fzero fzero.
Proof.
  split; [|split; [|split; [|split]]].
  - intros E. unfold normalize. rewrite E. reflexivity.
  - intros E. unfold normalize.
    destruct (dot v v) as [s|[]| |[] m e]; try discriminate. reflexivity.
  - intros E Hx Hy Hz. unfold normalize. rewrite E.
    change (fgt (fsqrt (S754_infinity false)) fzero) with true. cbv iota.
    change (fsqrt (S754_infinity false)) with (S754_infinity false).
    destruct v as [[sx|sx| |sx mx ex] [sy|sy| |sy my ey] [sz|sz| |sz mz ez]];
      try contradiction; simpl vec_x; simpl vec_y; simpl vec_z;
      destruct sx, sy, sz; repeat split; reflexivity.
  - vm_compute. reflexivity.
  - vm_compute. reflexivity.
Qed.

(** ** The main loop *)

Section MainLoop.

Lemma construct_new (W H : Z) (fb : FrameBuffer.t) :
  construct W H = Some fb -> fb = FrameBuffer.new W H.
Proof.
  unfold construct.
  destruct ((0 <=? W * H) && (W * H <=? int_max)); congruence.
Qed.

(** The buffer [main] builds for a terminal size has the size it
    computed. *)
Lemma sized_built (rows cols W H : Z) (fb : FrameBuffer.t) (Ax Ay : float) :
  fbW rows cols = Some W -> fbH rows cols = Some H ->
  construct W H = Some fb ->
  sized (mkLoop fb rows cols Ax Ay).
Proof.
  intros HW HH Hc. apply construct_new in Hc. subst fb.
  pose proof (scaled_base_at_least 10485760 (-16) (aspect rows cols) 184 W)
    as H1.
  pose proof (scaled_base_at_least 11796480 (-17)
                (fdiv fone (aspect rows cols)) 103 H) as H2.
  assert (184 <= W) as HW'
    by (apply H1; try reflexivity; try lia; [apply aspect_valid|exact HW]).
  assert (103 <= H) as HH'
    by (apply H2; try reflexivity; try lia; [apply fdiv_valid|exact HH]).
  unfold sized. simpl. split; [apply wf_new; lia|]. auto.
Qed.

Lemma resize_sized (st st1 : loop_state) (curRows curCols : Z) :
  sized st -> resize st curRows curCols = Some st1 ->
  sized st1 /\ lastRows st1 = curRows /\ lastCols st1 = curCols /\
  angleX st1 = angleX st /\ angleY st1 = angleY st.
Proof.
  intros Hs. unfold resize.
  destruct (Z.eqb_spec curRows (lastRows st)) as [Er|Er];
    destruct (Z.eqb_spec curCols (lastCols st)) as [Ec|Ec]; simpl;
    try (intros [= <-]; auto);
    (destruct (fbW curRows curCols) as [W|] eqn:EW; [|discriminate];
     destruct (fbH curRows curCols) as [H|] eqn:EH; [|discriminate];
     cbn;
     destruct (construct W H) as [fb|] eqn:Ef; [|discriminate];
     cbn; intros [= <-]; simpl;
     split; [exact (sized_built _ _ _ _ _ _ _ EW EH Ef)|auto]).
Qed.

(** A frame keeps the size of the buffer. *)
Lemma renderTorus_shape (cosf sinf : float -> float) (fuel : nat)
    (fb fb' : FrameBuffer.t) (Ax Ay : float) :
  (315 <= fuel)%nat -> FrameBuffer.wf fb ->
  renderTorus cosf sinf fuel fb Ax Ay = Done fb' ->
  FrameBuffer.wf fb' /\
  FrameBuffer.w fb' = FrameBuffer.w fb /\
  FrameBuffer.h fb' = FrameBuffer.h fb.
Proof.
  intros Hf Hwf Hrun. rewrite renderTorus_run in Hrun by exact Hf.
  apply run_plot_nearest in Hrun as (Hwf' & Hw' & Hh' & _);
    [auto|apply wf_clear; exact Hwf].
Qed.

End MainLoop.

(** X23. Invariant of the loop of [main]: the buffer always has the
    size computed from the terminal size seen last.  A state built by
    the initialisation has it, and a pass that runs to its end keeps
    it; after the pass the state records the terminal size just read,
    the buffer is at least 184 by 103 cells, and the two angles have
    advanced by [spinX * dt] and [spinY * dt]. *)
Theorem main_loop_keeps_the_buffer_sized
    (cosf sinf : float -> float) (fuel : nat) (st st' : loop_state)
    (key curRows curCols : Z) (dt : float) (rows cols : Z) (scr : screen) :
  (315 <= fuel)%nat -> sized st ->
  iteration cosf sinf fuel st key curRows curCols dt rows cols
    = Done (Some (st', scr)) ->
  sized st' /\
  lastRows st' = curRows /\ lastCols st' = curCols /\
  184 <= FrameBuffer.w (buffer st') /\ 103 <= FrameBuffer.h (buffer st') /\
  angleX st' = fadd (angleX st) (fmul spinX dt) /\
  angleY st' = fadd (angleY st) (fmul spinY dt) /\
  key <> key_q /\ key <> key_Q /\
  (forall initRows initCols st0,
     initial_state initRows initCols = Some st0 -> sized st0).
Proof.
  intros Hf Hs Hit. unfold iteration in Hit.
  destruct (Z.eqb_spec key key_q) as [|Hq]; [discriminate|].
  destruct (Z.eqb_spec key key_Q) as [|HQ]; [discriminate|].
  simpl in Hit.
  destruct (resize st curRows curCols) as [st1|] eqn:Er; [|discriminate].
  destruct (resize_sized st st1 curRows curCols Hs Er)
    as ((Hwf1 & HW1 & HH1) & Hr1 & Hc1 & Hax & Hay).
  cbn in Hit.
  destruct (renderTorus cosf sinf fuel (buffer st1) _ _) as [fb| |] eqn:Ert;
    try discriminate.
  cbn in Hit.
  destruct (blitVirtualToCurses fb rows cols) as [scr0|]; [|discriminate].
  cbn in Hit. injection Hit as <- <-.
  destruct (renderTorus_shape _ _ _ _ _ _ _ Hf Hwf1 Ert) as (Hwf' & Hw' & Hh').
  assert (sized (mkLoop fb (lastRows st1) (lastCols st1)
                   (fadd (angleX st1) (fmul spinX dt))
                   (fadd (angleY st1) (fmul spinY dt)))) as Hs'.
  { unfold sized. simpl. rewrite Hw', Hh'. auto. }
  split; [exact Hs'|]. simpl.
  split; [exact Hr1|]. split; [exact Hc1|].
  destruct Hs' as (_ & HW' & HH'). simpl in HW', HH'.
  pose proof (scaled_base_at_least 10485760 (-16)
                (aspect (lastRows st1) (lastCols st1)) 184 (FrameBuffer.w fb))
    as H1.
  pose proof (scaled_base_at_least 11796480 (-17)
                (fdiv fone (aspect (lastRows st1) (lastCols st1))) 103
                (FrameBuffer.h fb)) as H2.
  split; [apply H1; try reflexivity; try lia; [apply aspect_valid|exact HW']|].
  split; [apply H2; try reflexivity; try lia; [apply fdiv_valid|exact HH']|].
  rewrite Hax, Hay. do 4 (split; [auto|]).
  intros initRows initCols st0. unfold initial_state.
  destruct (fbW initRows initCols) as [W|] eqn:EW; [|discriminate].
  destruct (fbH initRows initCols) as [H|] eqn:EH; [|discriminate].
  cbn. destruct (construct W H) as [fb0|] eqn:Ef; [|discriminate].
  cbn. intros [= <-]. exact (sized_built _ _ _ _ _ _ _ EW EH Ef).
Qed.

(** A pass that runs to its end, from its parts. *)
Lemma iteration_runs (cosf sinf : float -> float) (fuel : nat)
    (st : loop_state) (key curRows curCols : Z) (dt : float) (rows cols : Z)
    (fb1 fb : FrameBuffer.t) (r1 c1 : Z) (ax ay : float) (scr : screen) :
  (key =? key_q) || (key =? key_Q) = false ->
  resize st curRows curCols = Some (mkLoop fb1 r1 c1 ax ay) ->
  renderTorus cosf sinf fuel fb1
    (fadd ax (fmul spinX dt)) (fadd ay (fmul spinY dt)) = Done fb ->
  blitVirtualToCurses fb rows cols = Some scr ->
  iteration cosf sinf fuel st key curRows curCols dt rows cols
  = Done (Some (mkLoop fb r1 c1 (fadd ax (fmul spinX dt))
                       (fadd ay (fmul spinY dt)), scr)).
Proof.
  intros Hk Hr Hrt Hb. unfold iteration. rewrite Hk, Hr. cbn.
  rewrite Hrt. cbn. rewrite Hb. reflexivity.
Qed.

(** The first pass on a terminal that reports no size, with no key
    pressed, at the angle 0. *)
Lemma renderTorus_base_at_zero (Ax Ay : float) :
  renderTorus cos_at_zero sin_at_zero 315 (FrameBuffer.new 184 103) Ax Ay
  = Done (written (FrameBuffer.new 184 103)
            (index (FrameBuffer.new 184 103) 161 51) (lit 1 3) blank).
Proof.
  rewrite renderTorus_run by lia.
  apply run_settles.
  - exact frame_angles_nonempty.
  - intros s. vm_compute. reflexivity.
  - intros s. vm_compute. reflexivity.
Qed.

Lemma blit_base_at_zero :
  blitVirtualToCurses
    (written (FrameBuffer.new 184 103)
       (index (FrameBuffer.new 184 103) 161 51) (lit 1 3) blank) 1 1
  = Some [[blank]].
Proof. vm_compute. reflexivity. Qed.

Lemma main_loop_keeps_the_buffer_sized_witness :
  exists (st' : loop_state) (scr : screen),
    iteration cos_at_zero sin_at_zero 315
      (mkLoop (FrameBuffer.new 184 103) 0 0 fzero fzero) (-1) 0 0 fzero 1 1
    = Done (Some (st', scr)) /\
    sized st' /\
    184 <= FrameBuffer.w (buffer st') /\ 103 <= FrameBuffer.h (buffer st').
Proof.
  pose proof (iteration_runs cos_at_zero sin_at_zero 315
                (mkLoop (FrameBuffer.new 184 103) 0 0 fzero fzero)
                (-1) 0 0 fzero 1 1 _ _ 0 0 fzero fzero _
                eq_refl eq_refl (renderTorus_base_at_zero _ _)
                blit_base_at_zero) as Hit.
  assert (sized (mkLoop (FrameBuffer.new 184 103) 0 0 fzero fzero)) as Hs0.
  { unfold sized. simpl. split; [apply wf_new; lia|]. split; reflexivity. }
  destruct (main_loop_keeps_the_buffer_sized cos_at_zero sin_at_zero 315
              _ _ _ _ _ _ _ _ _ ltac:(lia) Hs0 Hit)
    as (Hs & _ & _ & Hw & Hh & _).
  eexists _, _. split; [exact Hit|]. auto.
Defined.

(** ** What the terminal shows *)

(** Every glyph the compositor writes is the shown form of a glyph of
    the buffer. *)
Lemma blit_glyphs (fb : FrameBuffer.t) (rows cols : Z) (scr : screen)
    (row : list ascii) (g : ascii) :
  blitVirtualToCurses fb rows cols = Some scr ->
  In row scr -> In g row ->
  exists c, In c (FrameBuffer.chars fb) /\ g = shown c.
Proof.
  intros H Hrow Hg. unfold blitVirtualToCurses in H.
  destruct (x0 fb rows cols) as [ox|]; [|discriminate].
  destruct (y0 fb rows cols) as [oy|]; [|discriminate].
  cbn in H. apply mapM_Some in H.
  apply list_elem_of_In, list_elem_of_lookup in Hrow as [i Hi].
  destruct (Forall2_lookup_r _ _ _ _ _ H Hi) as (y & _ & Hy).
  destruct (sample_coord fb rows cols oy y (FrameBuffer.h fb)) as [vy|];
    [|discriminate].
  cbn in Hy. unfold blit_row in Hy. apply mapM_Some in Hy.
  apply list_elem_of_In, list_elem_of_lookup in Hg as [j Hj].
  destruct (Forall2_lookup_r _ _ _ _ _ Hy Hj) as (x & _ & Hx).
  destruct (sample_coord fb rows cols ox x (FrameBuffer.w fb)) as [vx|];
    [|discriminate].
  cbn in Hx. destruct (FrameBuffer.get fb vx vy) as [c|] eqn:Eg;
    [|discriminate].
  cbn in Hx. injection Hx as <-.
  exists c. split; [|reflexivity].
  unfold FrameBuffer.get in Eg.
  destruct (vy * FrameBuffer.w fb + vx <? 0); [discriminate|].
  apply list_elem_of_In. apply list_elem_of_lookup. eauto.
Qed.

(** X27. End to end: whatever the angles, the libm and the terminal,
    a frame put on the terminal by the compositor shows nothing but
    the ten glyphs of the ramp. *)
Theorem terminal_shows_ramp_glyphs_only
    (cosf sinf : float -> float) (fuel : nat) (fb fb' : FrameBuffer.t)
    (Ax Ay : float) (rows cols : Z) (scr : screen) :
  (315 <= fuel)%nat -> FrameBuffer.wf fb ->
  renderTorus cosf sinf fuel fb Ax Ay = Done fb' ->
  blitVirtualToCurses fb' rows cols = Some scr ->
  forall row g, In row scr -> In g row -> In g shades.
Proof.
  intros Hf Hwf Hrun Hb row g Hrow Hg.
  pose proof (renderTorus_ramp_only cosf sinf fuel fb fb' Ax Ay Hf Hwf Hrun)
    as Hramp.
  destruct (blit_glyphs fb' rows cols scr row g Hb Hrow Hg) as (c & Hc & ->).
  unfold ramp_only in Hramp. rewrite List.Forall_forall in Hramp.
  specialize (Hramp c Hc). rewrite (shown_ramp c Hramp). exact Hramp.
Qed.

Lemma terminal_shows_ramp_glyphs_only_witness : In blank shades.
Proof.
  apply (terminal_shows_ramp_glyphs_only cos_at_zero sin_at_zero 315
           (FrameBuffer.new 184 103)
           (written (FrameBuffer.new 184 103)
              (index (FrameBuffer.new 184 103) 161 51) (lit 1 3) blank)
           fzero fzero 1 1 [[blank]] ltac:(lia)
           (wf_new 184 103 ltac:(lia) ltac:(lia))
           (renderTorus_base_at_zero fzero fzero) blit_base_at_zero
           [blank] blank).
  - left. reflexivity.
  - left. reflexivity.
Defined.

(** ** The order of the samples *)

Section SampleOrder.

Variables cosf sinf : float -> float.

(** What a sample does depends on the size of the buffer only: its
    casts are undefined, or it is discarded, or it is handed to [set]
    at a cell of the buffer. *)
Lemma plot_kind (Ax Ay theta phi : float) (fb : FrameBuffer.t) :
  (forall fb2, FrameBuffer.w fb2 = FrameBuffer.w fb ->
               FrameBuffer.h fb2 = FrameBuffer.h fb ->
               plot cosf sinf Ax Ay theta phi fb2 = Undefined) \/
  (forall fb2, FrameBuffer.w fb2 = FrameBuffer.w fb ->
               FrameBuffer.h fb2 = FrameBuffer.h fb ->
               plot cosf sinf Ax Ay theta phi fb2 = Done fb2) \/
  (exists x y ch,
     cell_x cosf sinf (FrameBuffer.w fb) (FrameBuffer.h fb) Ax Ay theta phi
       = Some x /\
     cell_y cosf sinf (FrameBuffer.w fb) (FrameBuffer.h fb) Ax Ay theta phi
       = Some y /\
     in_bounds fb x y /\
     forall fb2, FrameBuffer.w fb2 = FrameBuffer.w fb ->
                 FrameBuffer.h fb2 = FrameBuffer.h fb ->
                 plot cosf sinf Ax Ay theta phi fb2 =
                 defined (FrameBuffer.set fb2 x y
                            (invZ cosf sinf Ax Ay theta phi) ch)).
Proof.
  destruct (cell_x cosf sinf (FrameBuffer.w fb) (FrameBuffer.h fb)
              Ax Ay theta phi) as [x|] eqn:Ex.
  2:{ left. intros fb2 Hw Hh. unfold plot. rewrite Hw, Hh, Ex. reflexivity. }
  destruct (cell_y cosf sinf (FrameBuffer.w fb) (FrameBuffer.h fb)
              Ax Ay theta phi) as [y|] eqn:Ey.
  2:{ left. intros fb2 Hw Hh. unfold plot. rewrite Hw, Hh, Ex, Ey.
      reflexivity. }
  destruct (out_of_bounds (FrameBuffer.w fb) (FrameBuffer.h fb) x y) eqn:Hoob.
  { right. left. intros fb2 Hw Hh. unfold plot.
    rewrite Hw, Hh, Ex, Ey. cbn. rewrite Hoob. reflexivity. }
  destruct (sample_glyph cosf sinf Ax Ay theta phi) as [ch|] eqn:Eg.
  2:{ left. intros fb2 Hw Hh. unfold plot.
      rewrite Hw, Hh, Ex, Ey. cbn. rewrite Hoob, Eg. reflexivity. }
  right. right. exists x, y, ch.
  split; [reflexivity|]. split; [reflexivity|].
  split; [apply out_of_bounds_false; exact Hoob|].
  intros fb2 Hw Hh. unfold plot.
  rewrite Hw, Hh, Ex, Ey. cbn. rewrite Hoob, Eg. reflexivity.
Qed.

Lemma plot_shape (Ax Ay theta phi : float) (fb fb' : FrameBuffer.t) :
  FrameBuffer.wf fb -> plot cosf sinf Ax Ay theta phi fb = Done fb' ->
  FrameBuffer.wf fb' /\
  FrameBuffer.w fb' = FrameBuffer.w fb /\
  FrameBuffer.h fb' = FrameBuffer.h fb.
Proof.
  intros Hwf Hp.
  apply plot_done in Hp as (x & y & _ & _ & [[_ ->]|(Hb & ch & _ & Hs)]);
    [auto|].
  exact (set_wf fb fb' x y _ ch Hwf Hb Hs).
Qed.

(** Writes to two distinct cells commute. *)
Lemma sets_commute (fb : FrameBuffer.t) (x1 y1 x2 y2 : Z) (d1 d2 : float)
    (c1 c2 : ascii) :
  FrameBuffer.wf fb -> in_bounds fb x1 y1 -> in_bounds fb x2 y2 ->
  (x1, y1) <> (x2, y2) ->
  (fb1 ← FrameBuffer.set fb x1 y1 d1 c1; FrameBuffer.set fb1 x2 y2 d2 c2) =
  (fb2 ← FrameBuffer.set fb x2 y2 d2 c2; FrameBuffer.set fb2 x1 y1 d1 c1).
Proof.
  intros Hwf Hb1 Hb2 Hne.
  assert (index fb x1 y1 <> index fb x2 y2) as Hi.
  { intros E. apply index_inj in E as [-> ->]; auto. }
  destruct (set_in_bounds fb x1 y1 d1 c1 Hwf Hb1) as (e1 & He1 & ->).
  destruct (set_in_bounds fb x2 y2 d2 c2 Hwf Hb2) as (e2 & He2 & ->).
  cbn.
  assert (forall (b : bool) (i : nat) (d : float) (c : ascii) x y e,
            in_bounds fb x y -> index fb x y <> i ->
            FrameBuffer.depth fb !! index fb x y = Some e ->
            FrameBuffer.depth (if b then written fb i d c else fb)
              !! index (if b then written fb i d c else fb) x y = Some e /\
            FrameBuffer.wf (if b then written fb i d c else fb) /\
            in_bounds (if b then written fb i d c else fb) x y /\
            index (if b then written fb i d c else fb) x y = index fb x y)
    as Hkeep.
  { intros b i d c x y e Hb Hix He. destruct b; [|auto].
    split; [|split; [apply wf_written; exact Hwf|split; [exact Hb|reflexivity]]].
    change (index (written fb i d c) x y) with (index fb x y). simpl.
    rewrite list_lookup_insert_ne by auto. exact He. }
  destruct (Hkeep (flt e1 d1) (index fb x1 y1) d1 c1 x2 y2 e2 Hb2
              ltac:(auto) He2) as (Ha & Hwa & Hba & Hia).
  destruct (Hkeep (flt e2 d2) (index fb x2 y2) d2 c2 x1 y1 e1 Hb1 Hi He1)
    as (Hb & Hwb & Hbb & Hib).
  rewrite (set_stored _ x2 y2 e2 d2 c2 Hwa Hba Ha).
  rewrite (set_stored _ x1 y1 e1 d1 c1 Hwb Hbb Hb).
  rewrite Hia, Hib. f_equal.
  destruct (flt e1 d1), (flt e2 d2); try reflexivity.
  unfold written; simpl. f_equal; apply list_insert_insert_ne; auto.
Qed.

Lemma defined_bind {A B : Type} (o : option A) (k : A -> option B) :
  (a ← defined o; defined (k a)) = defined (a ← o; k a).
Proof. destruct o; reflexivity. Qed.

End SampleOrder.

(** X28. Two samples can be plotted in either order, unless they land
    on the same cell with inverse depths that do not compare: when
    their cells differ, or one inverse depth is below the other, the
    two orders give the same buffer, or are both undefined. *)
Theorem samples_commute
    (cosf sinf : float -> float) (Ax Ay theta1 phi1 theta2 phi2 : float)
    (fb : FrameBuffer.t) :
  FrameBuffer.wf fb ->
  cell_x cosf sinf (FrameBuffer.w fb) (FrameBuffer.h fb) Ax Ay theta1 phi1
    <> cell_x cosf sinf (FrameBuffer.w fb) (FrameBuffer.h fb) Ax Ay theta2 phi2 \/
  cell_y cosf sinf (FrameBuffer.w fb) (FrameBuffer.h fb) Ax Ay theta1 phi1
    <> cell_y cosf sinf (FrameBuffer.w fb) (FrameBuffer.h fb) Ax Ay theta2 phi2 \/
  flt (invZ cosf sinf Ax Ay theta1 phi1) (invZ cosf sinf Ax Ay theta2 phi2)
    = true \/
  flt (invZ cosf sinf Ax Ay theta2 phi2) (invZ cosf sinf Ax Ay theta1 phi1)
    = true ->
  (fb1 ← plot cosf sinf Ax Ay theta1 phi1 fb;
   plot cosf sinf Ax Ay theta2 phi2 fb1) =
  (fb2 ← plot cosf sinf Ax Ay theta2 phi2 fb;
   plot cosf sinf Ax Ay theta1 phi1 fb2).
Proof.
  intros Hwf Hc.
  assert (forall t p t' p' (fb0 : FrameBuffer.t),
            FrameBuffer.wf fb0 ->
            FrameBuffer.w fb0 = FrameBuffer.w fb ->
            FrameBuffer.h fb0 = FrameBuffer.h fb ->
            forall r, plot cosf sinf Ax Ay t p fb0 = r ->
            (forall fb2, FrameBuffer.w fb2 = FrameBuffer.w fb ->
                         FrameBuffer.h fb2 = FrameBuffer.h fb ->
                         plot cosf sinf Ax Ay t' p' fb2 = Undefined) ->
            (fb1 ← r; plot cosf sinf Ax Ay t' p' fb1) = Undefined) as Hundef.
  { intros t p t' p' fb0 Hwf0 Hw0 Hh0 r Hr HU.
    destruct r as [fb1| |]; cbn; try reflexivity.
    - destruct (plot_shape cosf sinf Ax Ay t p fb0 fb1 Hwf0 Hr) as (_ & Hw & Hh).
      apply HU; congruence.
    - exfalso. exact (plot_not_out_of_fuel cosf sinf Ax Ay t p fb0 Hr). }
  destruct (plot_kind cosf sinf Ax Ay theta1 phi1 fb)
    as [U1|[D1|(x1 & y1 & c1 & Ex1 & Ey1 & Hb1 & S1)]];
    destruct (plot_kind cosf sinf Ax Ay theta2 phi2 fb)
    as [U2|[D2|(x2 & y2 & c2 & Ex2 & Ey2 & Hb2 & S2)]].
  - rewrite (U1 fb), (U2 fb) by reflexivity. reflexivity.
  - rewrite (U1 fb), (D2 fb) by reflexivity. cbn. symmetry.
    apply U1; reflexivity.
  - rewrite (U1 fb) by reflexivity. cbn. symmetry.
    apply (Hundef theta2 phi2 theta1 phi1 fb Hwf eq_refl eq_refl _ eq_refl U1).
  - rewrite (D1 fb), (U2 fb) by reflexivity. cbn. apply U2; reflexivity.
  - rewrite (D1 fb), (D2 fb) by reflexivity. cbn.
    rewrite (D1 fb), (D2 fb) by reflexivity. reflexivity.
  - rewrite (D1 fb) by reflexivity. cbn.
    destruct (plot cosf sinf Ax Ay theta2 phi2 fb) as [fb2| |] eqn:E2;
      cbn; try reflexivity.
    destruct (plot_shape cosf sinf Ax Ay theta2 phi2 fb fb2 Hwf E2)
      as (_ & Hw & Hh).
    symmetry. apply D1; assumption.
  - rewrite (U2 fb) by reflexivity. cbn.
    apply (Hundef theta1 phi1 theta2 phi2 fb Hwf eq_refl eq_refl _ eq_refl U2).
  - rewrite (D2 fb) by reflexivity. cbn.
    destruct (plot cosf sinf Ax Ay theta1 phi1 fb) as [fb1| |] eqn:E1;
      cbn; try reflexivity.
    destruct (plot_shape cosf sinf Ax Ay theta1 phi1 fb fb1 Hwf E1)
      as (_ & Hw & Hh).
    apply D2; assumption.
  - (* both samples reach [set] *)
    assert (forall t p x y c t' p' x' y' c',
              in_bounds fb x y ->
              (forall fb2, FrameBuffer.w fb2 = FrameBuffer.w fb ->
                 FrameBuffer.h fb2 = FrameBuffer.h fb ->
                 plot cosf sinf Ax Ay t p fb2 =
                 defined (FrameBuffer.set fb2 x y (invZ cosf sinf Ax Ay t p) c)) ->
              (forall fb2, FrameBuffer.w fb2 = FrameBuffer.w fb ->
                 FrameBuffer.h fb2 = FrameBuffer.h fb ->
                 plot cosf sinf Ax Ay t' p' fb2 =
                 defined (FrameBuffer.set fb2 x' y'
                            (invZ cosf sinf Ax Ay t' p') c')) ->
              (fb1 ← plot cosf sinf Ax Ay t p fb;
               plot cosf sinf Ax Ay t' p' fb1) =
              defined (fb1 ← FrameBuffer.set fb x y (invZ cosf sinf Ax Ay t p) c;
                       FrameBuffer.set fb1 x' y'
                         (invZ cosf sinf Ax Ay t' p') c')) as Hseq.
    { intros t p x y c t' p' x' y' c' Hb S S'.
      rewrite (S fb) by reflexivity.
      rewrite <- defined_bind.
      destruct (FrameBuffer.set fb x y (invZ cosf sinf Ax Ay t p) c)
        as [fb1|] eqn:Es; cbn; [|reflexivity].
      destruct (set_wf fb fb1 x y _ c Hwf Hb Es) as (_ & Hw & Hh).
      apply S'; assumption. }
    rewrite (Hseq theta1 phi1 x1 y1 c1 theta2 phi2 x2 y2 c2 Hb1 S1 S2).
    rewrite (Hseq theta2 phi2 x2 y2 c2 theta1 phi1 x1 y1 c1 Hb2 S2 S1).
    f_equal.
    destruct (decide ((x1, y1) = (x2, y2))) as [E|Hne];
      [|apply sets_commute; assumption].
    injection E as -> ->.
    rewrite Ex1, Ex2, Ey1, Ey2 in Hc.
    destruct Hc as [Hc|[Hc|[Hc|Hc]]]; try congruence.
    + destruct (two_writes_commute fb x2 y2 _ _ c1 c2 Hwf Hb1 Hc)
        as (fb' & -> & -> & _). reflexivity.
    + destruct (two_writes_commute fb x2 y2 _ _ c2 c1 Hwf Hb1 Hc)
        as (fb' & -> & -> & _). reflexivity.
Qed.

Lemma samples_commute_witness :
  (fb1 ← plot (fun a => fadd a fone) (fun _ => fzero) fzero fzero
           fzero fzero (FrameBuffer.new 4 2);
   plot (fun a => fadd a fone) (fun _ => fzero) fzero fzero
     fzero (fneg fone) fb1) =
  (fb2 ← plot (fun a => fadd a fone) (fun _ => fzero) fzero fzero
           fzero (fneg fone) (FrameBuffer.new 4 2);
   plot (fun a => fadd a fone) (fun _ => fzero) fzero fzero
     fzero fzero fb2).
Proof.
  apply (samples_commute (fun a => fadd a fone) (fun _ => fzero) fzero fzero
           fzero fzero fzero (fneg fone) (FrameBuffer.new 4 2)).
  - apply wf_new; lia.
  - left. vm_compute. discriminate.
Defined.

(** * Rounding errors

    What the binary32 operations of the code do to real numbers: the
    result of an operation is one of the two floats around the exact
    result of the operation on the values of its operands. *)

(** ** The real value of the results of binary32 operations *)

Section RealValue.

Local Open Scope R_scope.

Lemma p2_pos (e : Z) : 0 < powerRZ 2 e.
Proof. apply powerRZ_lt. lra. Qed.

Lemma p2_add (a b : Z) : powerRZ 2 (a + b) = powerRZ 2 a * powerRZ 2 b.
Proof. apply powerRZ_add. lra. Qed.

Lemma IZR_pow2 (n : Z) : (0 <= n)%Z -> IZR (2 ^ n) = powerRZ 2 n.
Proof.
  intros Hn. rewrite <- (Z2Nat.id n Hn) at 1 2.
  rewrite <- pow_IZR, pow_powerRZ. reflexivity.
Qed.

Lemma p2_le (a b : Z) : (a <= b)%Z -> powerRZ 2 a <= powerRZ 2 b.
Proof.
  intros H. replace b with (a + (b - a))%Z by lia. rewrite p2_add.
  rewrite <- (IZR_pow2 (b - a)) by lia.
  assert (1 <= IZR (2 ^ (b - a))).
  { apply IZR_le. pose proof (pow2_pos (b - a) ltac:(lia)). lia. }
  pose proof (p2_pos a). nra.
Qed.

Lemma p2_lt (a b : Z) : (a < b)%Z -> powerRZ 2 a < powerRZ 2 b.
Proof.
  intros H. replace b with (a + (b - a))%Z by lia. rewrite p2_add.
  rewrite <- (IZR_pow2 (b - a)) by lia.
  assert (2 <= IZR (2 ^ (b - a))).
  { apply IZR_le. replace (b - a)%Z with (Z.succ (b - a - 1)) by lia.
    rewrite Z.pow_succ_r by lia.
    pose proof (pow2_pos (b - a - 1) ltac:(lia)). lia. }
  pose proof (p2_pos a). nra.
Qed.

Lemma p2_lt_inv (a b : Z) : powerRZ 2 a < powerRZ 2 b -> (a < b)%Z.
Proof.
  intros H. destruct (Z_lt_le_dec a b) as [|Hle]; [assumption|].
  pose proof (p2_le b a Hle). lra.
Qed.

Lemma ulp_one_p2 : ulp_one = powerRZ 2 (-23).
Proof. unfold ulp_one. change (-23)%Z with (- (23))%Z.
  rewrite powerRZ_neg', <- IZR_pow2 by lia. reflexivity. Qed.

Lemma eta_pos : 0 < eta.
Proof. apply p2_pos. Qed.

Lemma eta_small : eta < / 1000000000000000000000000000000.
Proof.
  unfold eta. change (-149)%Z with (- (149))%Z.
  rewrite powerRZ_neg', <- IZR_pow2 by lia.
  apply Rinv_lt_contravar.
  - apply Rmult_lt_0_compat; [lra|]. apply IZR_lt. reflexivity.
  - apply IZR_lt. reflexivity.
Qed.

End RealValue.

Section Faithful.

Local Open Scope R_scope.

Lemma B2R_zero (s : bool) : B2R (S754_zero s) = 0.
Proof. unfold B2R. simpl. lra. Qed.

Lemma B2R_finite (s : bool) (m : positive) (e : Z) :
  B2R (S754_finite s m e) = signed s (IZR (Z.pos m) * powerRZ 2 e).
Proof.
  unfold B2R, signed. simpl. destruct s; [|reflexivity].
  change (Z.neg m) with (- Z.pos m)%Z. rewrite opp_IZR. ring.
Qed.

Lemma signed_abs (s : bool) (x y : R) :
  Rabs (signed s y - signed s x) = Rabs (y - x).
Proof.
  destruct s; simpl; [|reflexivity].
  replace (- y - - x) with (- (y - x)) by ring. apply Rabs_Ropp.
Qed.

Lemma Rabs_signed (s : bool) (x : R) : 0 <= x -> Rabs (signed s x) = x.
Proof.
  intros Hx. destruct s; simpl; [rewrite Rabs_Ropp|]; apply Rabs_pos_eq; exact Hx.
Qed.

Lemma signed_xorb (s t : bool) (x y : R) :
  signed s x * signed t y = signed (xorb s t) (x * y).
Proof. destruct s, t; simpl; ring. Qed.

Lemma number_zero (s : bool) : number (S754_zero s).
Proof. split; [exact I|reflexivity]. Qed.

Lemma number_canonical (s : bool) (m : positive) (e : Z) :
  number (S754_finite s m e) -> canonical m e.
Proof. intros [_ H]. exact H. Qed.

(** The value of the float [finish] builds. *)
Lemma finish_R (s : bool) (M E : Z) :
  (0 <= M <= 2 ^ 24)%Z -> (E <= 103)%Z ->
  is_finite (finish s M E) /\
  B2R (finish s M E) = signed s (IZR M * powerRZ 2 E).
Proof.
  intros HM HE. unfold finish. destruct M as [|p|p]; [| |lia].
  - split; [exact I|]. rewrite B2R_zero. destruct s; simpl; lra.
  - destruct (Z.eqb_spec (Z.pos p) (2 ^ 24)) as [Ep|Ep].
    + replace (E + 1 <=? 104)%Z with true by (symmetry; apply Z.leb_le; lia).
      split; [exact I|]. rewrite B2R_finite, Ep. f_equal.
      rewrite p2_add. change (powerRZ 2 1) with (2 * 1).
      change (Z.pos (2 ^ 23)) with 8388608%Z. change (2 ^ 24)%Z with 16777216%Z.
      lra.
    + replace (E <=? 104)%Z with true by (symmetry; apply Z.leb_le; lia).
      split; [exact I|]. apply B2R_finite.
Qed.

(** [binary_round_aux] on any location: the mantissa is divided by
    the power of two that brings it to the exponent of the format and
    moved up by at most one unit. *)
Lemma binary_round_aux_near (s : bool) (m e : Z) (l : location) :
  (0 <= m)%Z -> (e <= fexp32 (Zdigits2 m + e))%Z ->
  exists M : Z,
    binary_round_aux prec emax s m e l
      = finish s M (fexp32 (Zdigits2 m + e)) /\
    (0 <= M <= 2 ^ 24)%Z /\
    (m / 2 ^ (fexp32 (Zdigits2 m + e) - e) <= M
       <= m / 2 ^ (fexp32 (Zdigits2 m + e) - e) + 1)%Z /\
    (-149 < fexp32 (Zdigits2 m + e) ->
     2 ^ 23 <= m / 2 ^ (fexp32 (Zdigits2 m + e) - e))%Z.
Proof.
  intros Hm Hn. unfold binary_round_aux.
  destruct (shr_fexp_m m e l Hm Hn) as (mrs & -> & Hmrs).
  destruct (shifted_bounds m e Hm Hn) as [Hb Hnorm].
  rewrite <- Hmrs in Hb, Hnorm |- *.
  pose proof (round_nearest_even_bounds (shr_m mrs) (loc_of_shr_record mrs))
    as HM.
  set (M := round_nearest_even (shr_m mrs) (loc_of_shr_record mrs)) in *.
  assert (-149 <= fexp32 (Zdigits2 m + e))%Z as HE by (unfold fexp32; lia).
  exists M. rewrite renormalise by lia.
  split; [reflexivity|]. split; [lia|]. split; [lia|exact Hnorm].
Qed.

(** The result of [binary_round_aux] is one of the two floats around
    any real [x] that lies between the mantissa and its successor. *)
Lemma round_faithful (s : bool) (m e : Z) (l : location) (x : R) :
  (0 <= m)%Z -> (e <= fexp32 (Zdigits2 m + e))%Z ->
  IZR m * powerRZ 2 e <= x < (IZR m + 1) * powerRZ 2 e ->
  x < powerRZ 2 127 ->
  exists y : R,
    number (binary_round_aux prec emax s m e l) /\
    B2R (binary_round_aux prec emax s m e l) = signed s y /\
    0 <= y /\ Rabs (y - x) <= x * ulp_one + eta.
Proof.
  intros Hm Hn Hx Hbig.
  destruct (binary_round_aux_near s m e l Hm Hn) as (M & -> & HM & Hnear & Hnorm).
  set (E := fexp32 (Zdigits2 m + e)) in *.
  assert (-149 <= E)%Z as HElo by (unfold E, fexp32; lia).
  pose proof (p2_pos e) as HPe.
  assert (E <= 103)%Z as HEhi.
  { destruct m as [|p|p]; [| |lia].
    - simpl Zdigits2 in *. unfold E, fexp32 in *. lia.
    - simpl Zdigits2 in *. pose proof (digits2_pos_bounds p) as [Hlo _].
      set (d := Z.pos (digits2_pos p)) in *.
      assert (d - 1 + e < 127)%Z; [|unfold E, fexp32; lia].
      apply p2_lt_inv. eapply Rle_lt_trans; [|exact Hbig].
      eapply Rle_trans; [|apply Hx]. rewrite p2_add.
      apply Rmult_le_compat_r; [lra|].
      rewrite <- IZR_pow2 by (unfold d; lia). apply IZR_le. exact Hlo. }
  destruct (finish_R s M E HM HEhi) as [Hfin HB].
  exists (IZR M * powerRZ 2 E).
  split; [split; [exact Hfin|]|split; [exact HB|]].
  { apply finish_valid; [exact HElo|exact HM|].
    intros H. specialize (Hnorm H). lia. }
  set (n := (E - e)%Z) in *.
  assert (0 <= n)%Z as Hn0 by (unfold n; lia).
  pose proof (pow2_pos n Hn0) as HPn.
  assert (powerRZ 2 E = IZR (2 ^ n) * powerRZ 2 e) as HEn.
  { rewrite IZR_pow2 by exact Hn0. rewrite <- p2_add. f_equal. unfold n. lia. }
  set (m1 := (m / 2 ^ n)%Z) in *.
  pose proof (Z.div_mod m (2 ^ n) ltac:(lia)) as Hdm.
  pose proof (Z.mod_pos_bound m (2 ^ n) HPn) as Hmod.
  fold m1 in Hdm.
  assert (IZR m1 * IZR (2 ^ n) <= IZR m) as Hlo1.
  { rewrite <- mult_IZR. apply IZR_le. lia. }
  assert (IZR m + 1 <= (IZR m1 + 1) * IZR (2 ^ n)) as Hhi1.
  { rewrite <- (plus_IZR m 1), <- (plus_IZR m1 1), <- mult_IZR.
    apply IZR_le. lia. }
  assert (0 <= IZR m1) as Hm1.
  { apply IZR_le. unfold m1. apply Z.div_pos; lia. }
  assert (IZR m1 <= IZR M <= IZR m1 + 1) as HMR.
  { rewrite <- (plus_IZR m1 1). split; apply IZR_le; lia. }
  set (Q := IZR (2 ^ n)) in *. set (P := powerRZ 2 e) in *.
  assert (0 < Q) as HQ by (apply IZR_lt; exact HPn).
  rewrite HEn.
  assert (IZR m1 * (Q * P) <= x) as Hxlo.
  { apply Rle_trans with (IZR m * P); [|apply Hx].
    rewrite <- Rmult_assoc. apply Rmult_le_compat_r; lra. }
  assert (x <= (IZR m1 + 1) * (Q * P)) as Hxhi.
  { apply Rle_trans with ((IZR m + 1) * P); [apply Rlt_le, Hx|].
    rewrite <- Rmult_assoc. apply Rmult_le_compat_r; lra. }
  assert (0 < Q * P) as HQP by (apply Rmult_lt_0_compat; assumption).
  set (U := Q * P) in *.
  assert (IZR m1 * U <= IZR M * U <= (IZR m1 + 1) * U) as HyU.
  { split; apply Rmult_le_compat_r; lra. }
  replace (IZR M * (Q * P)) with (IZR M * U) by reflexivity.
  assert (0 <= x) as Hx0 by nra.
  split; [nra|].
  assert (Rabs (IZR M * U - x) <= U) as Habs.
  { apply Rabs_le. lra. }
  eapply Rle_trans; [exact Habs|].
  destruct (Z.eq_dec E (-149)%Z) as [EE|NE].
  - assert (U = eta) as ->.
    { rewrite <- HEn, EE. reflexivity. }
    unfold ulp_one. nra.
  - assert (2 ^ 23 <= m1)%Z as H23 by (apply Hnorm; lia).
    apply IZR_le in H23. change (IZR (2 ^ 23)) with 8388608 in H23.
    pose proof eta_pos. unfold ulp_one. nra.
Qed.

End Faithful.

Section Operations.

Local Open Scope R_scope.

Lemma rounds_exact (f : float) : number f -> rounds f (B2R f).
Proof.
  intros H. split; [exact H|].
  replace (B2R f - B2R f) with 0 by ring. rewrite Rabs_R0.
  pose proof (Rabs_pos (B2R f)). pose proof eta_pos. unfold ulp_one. nra.
Qed.

Lemma rounds_signed (s : bool) (f : float) (x y : R) :
  number f -> B2R f = signed s y -> 0 <= x ->
  Rabs (y - x) <= x * ulp_one + eta ->
  rounds f (signed s x).
Proof.
  intros Hn HB Hx Hy. split; [exact Hn|].
  rewrite HB, signed_abs, Rabs_signed by exact Hx. exact Hy.
Qed.

(** *** Multiplication *)

Lemma product_digits (ma mb : positive) (ea eb : Z) :
  canonical ma ea -> canonical mb eb ->
  (ea + eb <= fexp32 (Zdigits2 (Z.pos (ma * mb)) + (ea + eb)))%Z.
Proof.
  intros Ha Hb. apply canonical_digits in Ha as (Hda & Hea & Hna).
  apply canonical_digits in Hb as (Hdb & Heb & Hnb).
  destruct (Z.eq_dec ea (-149)%Z) as [Ea|Na].
  - destruct (Z.eq_dec eb (-149)%Z) as [Eb|Nb]; [unfold fexp32; lia|].
    apply (target_exp_times ma mb). right. apply Hnb. lia.
  - apply (target_exp_times ma mb). left. apply Hna. lia.
Qed.

Lemma fmul_rounds (a b : float) :
  number a -> number b -> Rabs (B2R a * B2R b) < powerRZ 2 127 ->
  rounds (fmul a b) (B2R a * B2R b).
Proof.
  intros Ha Hb Hbig.
  destruct a as [sa|sa| |sa ma ea]; try (exfalso; exact (proj1 Ha));
    destruct b as [sb|sb| |sb mb eb]; try (exfalso; exact (proj1 Hb)).
  - rewrite !B2R_zero, Rmult_0_l.
    rewrite <- (B2R_zero (xorb sa sb)). apply rounds_exact, number_zero.
  - rewrite B2R_zero, Rmult_0_l.
    rewrite <- (B2R_zero (xorb sa sb)). apply rounds_exact, number_zero.
  - rewrite B2R_zero, Rmult_0_r.
    rewrite <- (B2R_zero (xorb sa sb)). apply rounds_exact, number_zero.
  - rewrite !B2R_finite, signed_xorb in Hbig |- *.
    apply number_canonical in Ha, Hb.
    set (x := IZR (Z.pos ma) * powerRZ 2 ea * (IZR (Z.pos mb) * powerRZ 2 eb)) in *.
    assert (x = IZR (Z.pos (ma * mb)) * powerRZ 2 (ea + eb)) as Ex.
    { unfold x. rewrite Pos2Z.inj_mul, mult_IZR, p2_add. ring. }
    assert (0 < x) as Hx0.
    { rewrite Ex. apply Rmult_lt_0_compat; [apply IZR_lt; lia|apply p2_pos]. }
    rewrite Rabs_signed in Hbig by lra.
    destruct (round_faithful (xorb sa sb) (Z.pos (ma * mb)) (ea + eb) loc_Exact x)
      as (y & Hn & HB & Hy0 & Hy).
    + lia.
    + apply product_digits; assumption.
    + rewrite <- Ex. pose proof (p2_pos (ea + eb)). nra.
    + exact Hbig.
    + exact (rounds_signed _ _ x y Hn HB ltac:(lra) Hy).
Qed.

(** *** Rounding of an exact number *)

Lemma digits_shift (p q : positive) (j : Z) :
  (0 <= j)%Z -> Z.pos q = (Z.pos p * 2 ^ j)%Z ->
  Z.pos (digits2_pos q) = (Z.pos (digits2_pos p) + j)%Z.
Proof.
  intros Hj Hq. apply digits2_pos_unique. rewrite Hq.
  pose proof (digits2_pos_bounds p) as [Hlo Hhi].
  pose proof (pow2_pos j Hj).
  replace (Z.pos (digits2_pos p) + j - 1)%Z
    with (Z.pos (digits2_pos p) - 1 + j)%Z by lia.
  rewrite !Z.pow_add_r by lia. nia.
Qed.

Lemma binary_round_rounds (s : bool) (p : positive) (e : Z) :
  IZR (Z.pos p) * powerRZ 2 e < powerRZ 2 127 ->
  rounds (binary_round prec emax s p e) (signed s (IZR (Z.pos p) * powerRZ 2 e)).
Proof.
  intros Hbig. unfold binary_round.
  change (fexp prec emax) with fexp32.
  set (d := Z.pos (digits2_pos p)). set (e' := fexp32 (d + e)).
  set (x := IZR (Z.pos p) * powerRZ 2 e) in *.
  assert (0 < x) as Hx0
    by (apply Rmult_lt_0_compat; [apply IZR_lt; lia|apply p2_pos]).
  destruct (Z_le_gt_dec e' e) as [Hle|Hgt].
  - destruct (shl_align_spec p e e' Hle) as (mz & -> & Hmz).
    assert (x = IZR (Z.pos mz) * powerRZ 2 e') as Ex.
    { unfold x. rewrite Hmz, mult_IZR, IZR_pow2 by lia.
      rewrite Rmult_assoc, <- p2_add. f_equal. f_equal. lia. }
    destruct (round_faithful s (Z.pos mz) e' loc_Exact x)
      as (y & Hn & HB & Hy0 & Hy).
    + lia.
    + simpl Zdigits2. rewrite (digits_shift p mz (e - e')) by (lia || exact Hmz).
      fold d. replace (d + (e - e') + e')%Z with (d + e)%Z by lia.
      fold e'. lia.
    + rewrite <- Ex. pose proof (p2_pos e'). nra.
    + exact Hbig.
    + exact (rounds_signed _ _ x y Hn HB ltac:(lra) Hy).
  - assert (shl_align p e e' = (p, e)) as ->.
    { unfold shl_align. destruct (e' - e)%Z eqn:Ed; try reflexivity. lia. }
    destruct (round_faithful s (Z.pos p) e loc_Exact x)
      as (y & Hn & HB & Hy0 & Hy).
    + lia.
    + simpl Zdigits2. fold d. fold e'. lia.
    + unfold x. pose proof (p2_pos e). nra.
    + exact Hbig.
    + exact (rounds_signed _ _ x y Hn HB ltac:(lra) Hy).
Qed.

Lemma binary_normalize_rounds (n e : Z) :
  Rabs (IZR n * powerRZ 2 e) < powerRZ 2 127 ->
  rounds (binary_normalize prec emax n e false) (IZR n * powerRZ 2 e).
Proof.
  intros Hbig. destruct n as [|p|p]; simpl binary_normalize.
  - rewrite Rmult_0_l. rewrite <- (B2R_zero false).
    apply rounds_exact, number_zero.
  - apply (binary_round_rounds false p e).
    rewrite Rabs_pos_eq in Hbig; [exact Hbig|].
    apply Rmult_le_pos; [apply IZR_le; lia|apply Rlt_le, p2_pos].
  - change (Z.neg p) with (- Z.pos p)%Z in *. rewrite opp_IZR in *.
    replace (- IZR (Z.pos p) * powerRZ 2 e)
      with (signed true (IZR (Z.pos p) * powerRZ 2 e)) in * by (simpl; ring).
    apply (binary_round_rounds true p e).
    rewrite Rabs_signed in Hbig; [exact Hbig|].
    apply Rmult_le_pos; [apply IZR_le; lia|apply Rlt_le, p2_pos].
Qed.

(** *** Addition *)

Lemma fadd_rounds (a b : float) :
  number a -> number b -> Rabs (B2R a + B2R b) < powerRZ 2 127 ->
  rounds (fadd a b) (B2R a + B2R b).
Proof.
  intros Ha Hb Hbig.
  destruct a as [sa|sa| |sa ma ea]; try (exfalso; exact (proj1 Ha));
    destruct b as [sb|sb| |sb mb eb]; try (exfalso; exact (proj1 Hb)).
  - rewrite !B2R_zero, Rplus_0_l.
    assert (exists s, fadd (S754_zero sa) (S754_zero sb) = S754_zero s)
      as [s ->] by (destruct sa, sb; eexists; reflexivity).
    rewrite <- (B2R_zero s). apply rounds_exact, number_zero.
  - rewrite B2R_zero, Rplus_0_l. apply rounds_exact. exact Hb.
  - rewrite B2R_zero, Rplus_0_r. apply rounds_exact. exact Ha.
  - unfold fadd, SFadd.
    set (ez := Z.min ea eb).
    destruct (shl_align_spec ma ea ez ltac:(unfold ez; lia)) as (pa & Epa & Hpa).
    destruct (shl_align_spec mb eb ez ltac:(unfold ez; lia)) as (pb & Epb & Hpb).
    rewrite Epa, Epb. cbn [fst].
    assert (forall (s : bool) (m p : positive) (e : Z),
              (ez <= e)%Z -> Z.pos p = (Z.pos m * 2 ^ (e - ez))%Z ->
              B2R (S754_finite s m e) = IZR (cond_Zopp s (Z.pos p)) * powerRZ 2 ez)
      as Hal.
    { intros s m p e Hle Hp. rewrite B2R_finite.
      assert (IZR (Z.pos p) * powerRZ 2 ez = IZR (Z.pos m) * powerRZ 2 e) as <-.
      { rewrite Hp, mult_IZR, IZR_pow2 by lia.
        rewrite Rmult_assoc, <- p2_add. f_equal. f_equal. lia. }
      destruct s; simpl; [|reflexivity].
      change (Z.neg p) with (- Z.pos p)%Z. rewrite opp_IZR. ring. }
    rewrite (Hal sa ma pa ea ltac:(unfold ez; lia) Hpa) in *.
    rewrite (Hal sb mb pb eb ltac:(unfold ez; lia) Hpb) in *.
    rewrite <- Rmult_plus_distr_r, <- plus_IZR in *.
    apply binary_normalize_rounds. exact Hbig.
Qed.

(** *** Negation *)

Lemma fneg_R (a : float) : B2R (fneg a) = - B2R a.
Proof.
  destruct a as [s|s| |s m e]; unfold fneg; simpl SFopp;
    rewrite ?B2R_zero, ?B2R_finite; unfold B2R; simpl; try lra.
  destruct s; simpl; lra.
Qed.

Lemma fneg_number (a : float) : number a -> number (fneg a).
Proof.
  destruct a as [s|s| |s m e]; intros [Hf Hv]; try destruct Hf;
    split; try exact I; exact Hv.
Qed.

End Operations.

Section OrderAndCasts.

Local Open Scope R_scope.

Lemma p2_neg (n : Z) : (0 <= n)%Z -> powerRZ 2 (- n) = / IZR (2 ^ n).
Proof. intros Hn. rewrite powerRZ_neg', <- IZR_pow2 by exact Hn. reflexivity. Qed.

(** *** The order of floats is the order of their values *)

Lemma canonical_lt (m1 m2 : positive) (e1 e2 : Z) :
  canonical m1 e1 -> canonical m2 e2 -> (e1 < e2)%Z ->
  IZR (Z.pos m1) * powerRZ 2 e1 < IZR (Z.pos m2) * powerRZ 2 e2.
Proof.
  intros H1 H2 He.
  apply canonical_digits in H1 as (Hd1 & He1 & _).
  apply canonical_digits in H2 as (_ & _ & Hn2).
  pose proof (digits2_pos_bounds m1) as [_ Hhi].
  pose proof (digits2_pos_bounds m2) as [Hlo _].
  rewrite Hn2 in Hlo by lia. change (2 ^ (24 - 1))%Z with 8388608%Z in Hlo.
  assert (Z.pos m1 < 2 ^ 24)%Z as Hm1.
  { eapply Z.lt_le_trans; [exact Hhi|]. apply Z.pow_le_mono_r; lia. }
  change (2 ^ 24)%Z with 16777216%Z in Hm1.
  apply IZR_lt in Hm1. apply IZR_le in Hlo.
  pose proof (p2_pos e1) as P1.
  pose proof (p2_le (e1 + 1) e2 ltac:(lia)) as P2.
  rewrite p2_add in P2. change (powerRZ 2 1) with (2 * 1) in P2.
  assert (0 < IZR (Z.pos m1)) by (apply IZR_lt; lia).
  nra.
Qed.

Lemma positive_order (m1 m2 : positive) (e1 e2 : Z) :
  canonical m1 e1 -> canonical m2 e2 ->
  ((e1 < e2)%Z \/ (e1 = e2 /\ (m1 < m2)%positive)) <->
  IZR (Z.pos m1) * powerRZ 2 e1 < IZR (Z.pos m2) * powerRZ 2 e2.
Proof.
  intros H1 H2.
  assert (forall m m' e, (m < m')%positive ->
            IZR (Z.pos m) * powerRZ 2 e < IZR (Z.pos m') * powerRZ 2 e) as Hm.
  { intros m m' e H. apply Rmult_lt_compat_r; [apply p2_pos|].
    apply IZR_lt. lia. }
  split.
  - intros [He|[-> Hlt]]; [apply canonical_lt; assumption|apply Hm, Hlt].
  - intros Hv. destruct (Z.compare_spec e1 e2) as [E|E|E]; [|left; exact E|].
    + subst e2. right. split; [reflexivity|].
      destruct (Pos.compare_spec m1 m2) as [E'|E'|E']; [|exact E'|].
      * subst m2. lra.
      * pose proof (Hm m2 m1 e1 E'). lra.
    + pose proof (canonical_lt m2 m1 e2 e1 H2 H1 E). lra.
Qed.

Lemma flt_R (a b : float) :
  number a -> number b -> (flt a b = true <-> B2R a < B2R b).
Proof.
  intros Ha Hb.
  assert (forall m e, 0 < IZR (Z.pos m) * powerRZ 2 e) as Hpos.
  { intros m e. apply Rmult_lt_0_compat; [apply IZR_lt; lia|apply p2_pos]. }
  destruct a as [sa|sa| |sa ma ea]; try (exfalso; exact (proj1 Ha));
    destruct b as [sb|sb| |sb mb eb]; try (exfalso; exact (proj1 Hb));
    rewrite ?B2R_zero, ?B2R_finite.
  - split; [discriminate|lra].
  - pose proof (Hpos mb eb). destruct sb; simpl; split;
      try discriminate; try reflexivity; lra.
  - pose proof (Hpos ma ea). destruct sa; simpl; split;
      try discriminate; try reflexivity; lra.
  - apply number_canonical in Ha, Hb.
    pose proof (Hpos ma ea). pose proof (Hpos mb eb).
    destruct sa, sb; simpl signed.
    + rewrite flt_finite_neg.
      pose proof (positive_order mb ma eb ea Hb Ha) as HO.
      split; intros HH.
      * apply Ropp_lt_contravar. apply HO.
        destruct HH as [?|[? ?]]; [left; lia|right; split; [lia|assumption]].
      * apply Ropp_lt_cancel in HH. apply HO in HH.
        destruct HH as [?|[? ?]]; [left; lia|right; split; [lia|assumption]].
    + split; [intros _; lra|reflexivity].
    + split; [discriminate|lra].
    + rewrite flt_finite_pos. apply positive_order; assumption.
Qed.


Lemma fmax_R (a b : float) :
  number a -> number b ->
  number (fmax a b) /\ B2R (fmax a b) = Rmax (B2R a) (B2R b).
Proof.
  intros Ha Hb. unfold fmax. pose proof (flt_R a b Ha Hb) as H.
  destruct (flt a b).
  - split; [exact Hb|]. symmetry. apply Rmax_right.
    apply Rlt_le. apply H. reflexivity.
  - split; [exact Ha|]. symmetry. apply Rmax_left.
    destruct (Rle_dec (B2R b) (B2R a)) as [|Hn]; [assumption|].
    exfalso. assert (true = false); [|discriminate].
    symmetry. apply H. lra.
Qed.

(** *** Conversions between [int] and [float] *)

Lemma of_int_R (n : Z) :
  (0 <= n < 2 ^ 24)%Z -> number (of_int n) /\ B2R (of_int n) = IZR n.
Proof.
  intros Hn. destruct (Z.eq_dec n 0%Z) as [->|Hne].
  - split; [apply number_zero|]. apply B2R_zero.
  - destruct (of_int_holds n ltac:(lia)) as (m & e & -> & Hd & He & Hm).
    split.
    + split; [exact I|]. apply (holds_canonical m e Hd). lia.
    + rewrite B2R_finite. simpl signed. rewrite Hm, mult_IZR.
      rewrite IZR_pow2 by lia. rewrite Rmult_assoc, <- p2_add.
      replace (- e + e)%Z with 0%Z by lia. simpl. ring.
Qed.



End OrderAndCasts.

Section DivisionAndRoot.

Local Open Scope R_scope.

Lemma signed_div (s t : bool) (x y : R) :
  y <> 0 -> signed s x / signed t y = signed (xorb s t) (x / y).
Proof. intros Hy. destruct s, t; simpl; field; exact Hy. Qed.

Lemma value_pos (m : positive) (e : Z) : 0 < IZR (Z.pos m) * powerRZ 2 e.
Proof. apply Rmult_lt_0_compat; [apply IZR_lt; lia|apply p2_pos]. Qed.

(** *** Division *)

Lemma fdiv_rounds (a b : float) :
  number a -> number b -> B2R b <> 0 ->
  Rabs (B2R a / B2R b) < powerRZ 2 127 ->
  rounds (fdiv a b) (B2R a / B2R b).
Proof.
  intros Ha Hb Hnz Hbig.
  destruct b as [sb|sb| |sb mb eb]; try (exfalso; exact (proj1 Hb));
    [rewrite B2R_zero in Hnz; lra|].
  destruct a as [sa|sa| |sa ma ea]; try (exfalso; exact (proj1 Ha)).
  { rewrite B2R_zero. unfold Rdiv. rewrite Rmult_0_l.
    rewrite <- (B2R_zero (xorb sa sb)). apply rounds_exact, number_zero. }
  pose proof (value_pos ma ea) as Hva. pose proof (value_pos mb eb) as Hvb.
  rewrite !B2R_finite, signed_div in Hbig |- * by lra.
  set (x := IZR (Z.pos ma) * powerRZ 2 ea / (IZR (Z.pos mb) * powerRZ 2 eb)) in *.
  assert (0 < x) as Hx0 by (apply Rdiv_lt_0_compat; assumption).
  rewrite Rabs_signed in Hbig by lra.
  unfold fdiv, SFdiv, SFdiv_core_binary. change (fexp prec emax) with fexp32.
  simpl Zdigits2.
  pose proof (digits2_pos_bounds ma) as [Hloa Hhia].
  pose proof (digits2_pos_bounds mb) as [Hlob Hhib].
  set (d1 := Z.pos (digits2_pos ma)) in *.
  set (d2 := Z.pos (digits2_pos mb)) in *.
  set (e' := Z.min (fexp32 (d1 + ea - (d2 + eb))) (ea - eb)).
  set (sh := (ea - eb - e')%Z).
  assert (0 <= sh)%Z as Hsh by (unfold sh, e'; lia).
  assert ((match sh with
           | 0%Z => Z.pos ma
           | Z.pos _ => Z.shiftl (Z.pos ma) sh
           | Z.neg _ => 0%Z
           end) = (Z.pos ma * 2 ^ sh)%Z) as ->.
  { destruct sh as [|p|p] eqn:Es; [simpl; lia| |lia].
    rewrite Z.shiftl_mul_pow2 by lia. reflexivity. }
  pose proof (pow2_pos sh Hsh) as HPs.
  set (N := (Z.pos ma * 2 ^ sh)%Z) in *.
  pose proof (Z.div_mod N (Z.pos mb) ltac:(lia)) as Hdm.
  pose proof (Z.mod_pos_bound N (Z.pos mb) ltac:(lia)) as Hmod.
  destruct (Z.div_eucl N (Z.pos mb)) as [q r] eqn:Ediv.
  assert (q = N / Z.pos mb)%Z as Eq
    by (unfold Z.div; rewrite Ediv; reflexivity).
  rewrite <- Eq in Hdm.
  assert (0 <= q)%Z as Hq by (rewrite Eq; apply Z.div_pos; lia).
  assert (e' <= fexp32 (Zdigits2 q + e'))%Z as Hn.
  { destruct (Z_le_gt_dec e' (-149)) as [Hlow|Hhigh];
      [unfold fexp32; lia|].
    assert (24 + d2 - d1 <= sh)%Z as Hs24 by (unfold sh, e', fexp32 in *; lia).
    assert (2 ^ 23 <= q)%Z as Hq23.
    { rewrite Eq. apply Z.div_le_lower_bound; [lia|].
      assert (2 ^ (d2 + 23) <= N)%Z as Hbg.
      { apply Z.le_trans with (2 ^ (d1 - 1) * 2 ^ sh)%Z.
        - rewrite <- Z.pow_add_r by lia. apply Z.pow_le_mono_r; lia.
        - apply Z.mul_le_mono_nonneg_r; lia. }
      rewrite Z.pow_add_r in Hbg by lia.
      pose proof (pow2_pos 23 ltac:(lia)). nia. }
    destruct q as [|qp|qp]; [simpl in Hq23; lia| |lia].
    simpl Zdigits2.
    assert (24 <= Z.pos (digits2_pos qp))%Z.
    { pose proof (digits2_pos_bounds qp) as [_ Hhi].
      assert (23 < Z.pos (digits2_pos qp))%Z; [|lia].
      apply pow2_lt_inv; lia. }
    unfold fexp32. lia. }
  assert (x = IZR N / IZR (Z.pos mb) * powerRZ 2 e') as Ex.
  { unfold x, N. rewrite mult_IZR, IZR_pow2 by exact Hsh.
    replace ea with (sh + e' + eb)%Z at 1 by (unfold sh; lia).
    rewrite !p2_add. field.
    split; apply Rgt_not_eq; first [apply p2_pos|apply IZR_lt; lia]. }
  assert (0 < IZR (Z.pos mb)) as Hmb by (apply IZR_lt; lia).
  assert (IZR q * IZR (Z.pos mb) <= IZR N) as Hlo1
    by (rewrite <- mult_IZR; apply IZR_le; lia).
  assert (IZR N < (IZR q + 1) * IZR (Z.pos mb)) as Hhi1
    by (rewrite <- (plus_IZR q 1), <- mult_IZR; apply IZR_lt; lia).
  assert (IZR q <= IZR N / IZR (Z.pos mb) < IZR q + 1) as Hquo.
  { split.
    - apply Rmult_le_reg_r with (IZR (Z.pos mb)); [exact Hmb|].
      unfold Rdiv. rewrite Rmult_assoc, Rinv_l by lra. lra.
    - apply Rmult_lt_reg_r with (IZR (Z.pos mb)); [exact Hmb|].
      unfold Rdiv. rewrite Rmult_assoc, Rinv_l by lra. lra. }
  destruct (round_faithful (xorb sa sb) q e' (new_location (Z.pos mb) (N mod Z.pos mb)) x)
    as (y & Hy1 & HB & Hy0 & Hy).
  - exact Hq.
  - exact Hn.
  - rewrite Ex. pose proof (p2_pos e') as HP.
    split; [apply Rmult_le_compat_r; lra|apply Rmult_lt_compat_r; lra].
  - exact Hbig.
  - assert (r = N mod Z.pos mb)%Z as ->
      by (unfold Z.modulo; rewrite Ediv; reflexivity).
    exact (rounds_signed _ _ x y Hy1 HB ltac:(lra) Hy).
Qed.

(** *** Square root *)

Lemma sqrt_between (n q : Z) :
  (0 <= q)%Z -> (q * q <= n < (q + 1) * (q + 1))%Z ->
  IZR q <= sqrt (IZR n) < IZR q + 1.
Proof.
  intros Hq [Hlo Hhi].
  assert (0 <= IZR q) as Hq0 by (apply IZR_le; exact Hq).
  apply IZR_le in Hlo. apply IZR_lt in Hhi.
  rewrite mult_IZR in Hlo. rewrite mult_IZR, plus_IZR in Hhi.
  split.
  - rewrite <- (sqrt_square (IZR q)) by exact Hq0.
    apply sqrt_le_1_alt. exact Hlo.
  - rewrite <- (sqrt_square (IZR q + 1)) by lra.
    apply sqrt_lt_1_alt. split; [nra|exact Hhi].
Qed.

Lemma sqrt_p2 (x : R) (e : Z) :
  0 <= x -> sqrt (x * powerRZ 2 (2 * e)) = sqrt x * powerRZ 2 e.
Proof.
  intros Hx. pose proof (p2_pos e) as HP.
  replace (2 * e)%Z with (e + e)%Z by lia. rewrite p2_add.
  rewrite sqrt_mult_alt by exact Hx. f_equal.
  apply sqrt_square. lra.
Qed.

Lemma fsqrt_rounds (a : float) :
  number a -> 0 <= B2R a -> rounds (fsqrt a) (sqrt (B2R a)).
Proof.
  intros Ha H0.
  destruct a as [s|s| |s m e]; try (exfalso; exact (proj1 Ha)).
  { rewrite B2R_zero, sqrt_0. rewrite <- (B2R_zero s).
    apply rounds_exact, number_zero. }
  pose proof (value_pos m e) as Hv.
  rewrite B2R_finite in *. destruct s; [simpl in H0; lra|]. simpl signed in *.
  apply number_canonical in Ha.
  destruct (canonical_digits m e Ha) as (Hd24 & He149 & _).
  assert (e <= 104)%Z as He104.
  { unfold canonical, valid_binary, bounded in Ha.
    apply andb_true_iff in Ha as [_ Ha]. apply Z.leb_le in Ha. exact Ha. }
  unfold fsqrt, SFsqrt, SFsqrt_core_binary. change (fexp prec emax) with fexp32.
  simpl Zdigits2.
  pose proof (digits2_pos_bounds m) as [Hlo Hhi].
  set (d := Z.pos (digits2_pos m)) in *.
  rewrite !Z.div2_div.
  set (e' := Z.min (fexp32 ((d + e + 1) / 2)) (e / 2)).
  set (sh := (e - 2 * e')%Z).
  pose proof (Z.div_mod e 2 ltac:(lia)) as Hem.
  pose proof (Z.mod_pos_bound e 2 ltac:(lia)) as Hemb.
  pose proof (Z.div_mod (d + e + 1) 2 ltac:(lia)) as Hdm.
  pose proof (Z.mod_pos_bound (d + e + 1) 2 ltac:(lia)) as Hdmb.
  assert (0 <= sh)%Z as Hsh by (unfold sh, e'; lia).
  assert ((match sh with
           | 0%Z => Z.pos m
           | Z.pos _ => Z.shiftl (Z.pos m) sh
           | Z.neg _ => 0%Z
           end) = (Z.pos m * 2 ^ sh)%Z) as ->.
  { destruct sh as [|p|p] eqn:Es; [simpl; lia| |lia].
    rewrite Z.shiftl_mul_pow2 by lia. reflexivity. }
  pose proof (pow2_pos sh Hsh) as HPs.
  set (N := (Z.pos m * 2 ^ sh)%Z) in *.
  assert (0 < N)%Z as HN by (unfold N; lia).
  pose proof (Z.sqrtrem_spec N ltac:(lia)) as Hsq.
  destruct (Z.sqrtrem N) as [q r] eqn:Esq.
  destruct Hsq as [HNq Hr].
  assert (0 <= q)%Z as Hq by lia.
  assert (q * q <= N < (q + 1) * (q + 1))%Z as Hqq by lia.
  assert (e' <= fexp32 (Zdigits2 q + e'))%Z as Hn.
  { assert (-149 < e')%Z as Hhigh by (unfold e', fexp32; lia).
    assert (47 - d <= sh)%Z as Hs47 by (unfold sh, e', fexp32 in *; lia).
    assert (2 ^ 46 <= N)%Z as HN46.
    { apply Z.le_trans with (2 ^ (d - 1) * 2 ^ sh)%Z.
      - rewrite <- Z.pow_add_r by lia. apply Z.pow_le_mono_r; lia.
      - apply Z.mul_le_mono_nonneg_r; lia. }
    assert (2 ^ 23 <= q)%Z as Hq23.
    { destruct (Z_le_gt_dec (2 ^ 23) q) as [|Hlt]; [assumption|].
      exfalso. change (2 ^ 46)%Z with (2 ^ 23 * 2 ^ 23)%Z in HN46.
      assert (q + 1 <= 2 ^ 23)%Z by lia.
      pose proof (pow2_pos 23 ltac:(lia)). nia. }
    destruct q as [|qp|qp]; [simpl in Hq23; lia| |lia].
    simpl Zdigits2.
    assert (24 <= Z.pos (digits2_pos qp))%Z.
    { pose proof (digits2_pos_bounds qp) as [_ Hhi'].
      assert (23 < Z.pos (digits2_pos qp))%Z; [|lia].
      apply pow2_lt_inv; lia. }
    unfold fexp32. lia. }
  set (x := sqrt (IZR (Z.pos m) * powerRZ 2 e)).
  assert (x = sqrt (IZR N) * powerRZ 2 e') as Ex.
  { unfold x. rewrite <- sqrt_p2 by (apply IZR_le; lia). f_equal.
    unfold N. rewrite mult_IZR, IZR_pow2 by exact Hsh.
    rewrite Rmult_assoc, <- p2_add. f_equal. f_equal. unfold sh. lia. }
  pose proof (sqrt_between N q Hq Hqq) as Hsb.
  pose proof (p2_pos e') as HP.
  assert (x < powerRZ 2 127) as Hbig.
  { assert (x * x = IZR (Z.pos m) * powerRZ 2 e) as Hxx
      by (apply sqrt_sqrt; lra).
    assert (IZR (Z.pos m) * powerRZ 2 e < powerRZ 2 128) as Hv128.
    { assert (Z.pos m < 2 ^ 24)%Z as Hm24.
      { eapply Z.lt_le_trans; [exact Hhi|]. apply Z.pow_le_mono_r; lia. }
      apply IZR_lt in Hm24. rewrite IZR_pow2 in Hm24 by lia.
      pose proof (p2_le e 104 He104) as H104.
      replace 128%Z with (24 + 104)%Z by lia. rewrite p2_add.
      pose proof (p2_pos e). pose proof (p2_pos 24). nra. }
    pose proof (p2_lt 64 127 ltac:(lia)) as H64.
    assert (powerRZ 2 128 = powerRZ 2 64 * powerRZ 2 64) as E128
      by (rewrite <- p2_add; reflexivity).
    pose proof (p2_pos 64) as P64.
    pose proof (sqrt_pos (IZR (Z.pos m) * powerRZ 2 e)) as Hsp.
    fold x in Hsp.
    destruct (Rlt_dec x (powerRZ 2 64)) as [|Hge]; [lra|]. exfalso. nra. }
  destruct (round_faithful false q e'
              (if (r =? 0)%Z then loc_Exact
               else loc_Inexact (if (r <=? q)%Z then Lt else Gt)) x)
    as (y & Hy1 & HB & Hy0 & Hy).
  - exact Hq.
  - exact Hn.
  - rewrite Ex. split; [apply Rmult_le_compat_r; lra|apply Rmult_lt_compat_r; lra].
  - exact Hbig.
  - assert (0 <= x) by (apply sqrt_pos).
    exact (rounds_signed false _ x y Hy1 HB ltac:(lra) Hy).
Qed.

End DivisionAndRoot.

Section ErrorBounds.

Local Open Scope R_scope.

Lemma million_small : 1000000000000 < powerRZ 2 127.
Proof.
  rewrite <- IZR_pow2 by lia. apply IZR_lt. reflexivity.
Qed.

Lemma Rabs_bounds (x b : R) : Rabs x <= b -> - b <= x <= b.
Proof.
  intros H. pose proof (Rle_abs x). pose proof (Rle_abs (- x)) as H'.
  rewrite Rabs_Ropp in H'. lra.
Qed.

Lemma near_weaken (f : float) (x e e' : R) : near f x e -> e <= e' -> near f x e'.
Proof. intros [Hn H] He. split; [exact Hn|lra]. Qed.

Lemma near_exact (f : float) : number f -> near f (B2R f) 0.
Proof.
  intros H. split; [exact H|]. rewrite Rminus_diag, Rabs_R0. lra.
Qed.

Lemma near_bound (f : float) (x e B : R) :
  near f x e -> Rabs x <= B -> Rabs (B2R f) <= B + e.
Proof.
  intros [_ H] HB.
  replace (B2R f) with (x + (B2R f - x)) by ring.
  eapply Rle_trans; [apply Rabs_triang|]. lra.
Qed.

Lemma near_range (f : float) (x e : R) :
  near f x e -> x - e <= B2R f <= x + e.
Proof.
  intros [_ H]. apply Rabs_bounds in H. lra.
Qed.

Lemma near_neg (a : float) (ra ea : R) :
  near a ra ea -> near (fneg a) (- ra) ea.
Proof.
  intros [Hn H]. split; [apply fneg_number, Hn|].
  rewrite fneg_R. replace (- B2R a - - ra) with (- (B2R a - ra)) by ring.
  rewrite Rabs_Ropp. exact H.
Qed.

Lemma near_mul (a b : float) (ra rb ea eb Ba Bb : R) :
  near a ra ea -> near b rb eb -> Rabs ra <= Ba -> Rabs rb <= Bb ->
  (Ba + ea) * (Bb + eb) <= 1000000000000 ->
  near (fmul a b) (ra * rb)
       (Ba * eb + Bb * ea + ea * eb + (Ba + ea) * (Bb + eb) * ulp_one + eta).
Proof.
  intros Ha Hb HBa HBb Hsmall.
  pose proof (near_bound a ra ea Ba Ha HBa) as HA.
  pose proof (near_bound b rb eb Bb Hb HBb) as HB.
  destruct Ha as [Hna Ha], Hb as [Hnb Hb].
  pose proof (Rabs_pos (B2R a)) as PA. pose proof (Rabs_pos (B2R b)) as PB.
  pose proof (Rabs_pos ra) as Pra. pose proof (Rabs_pos rb) as Prb.
  pose proof (Rabs_pos (B2R a - ra)) as Pea.
  pose proof (Rabs_pos (B2R b - rb)) as Peb.
  assert (Rabs (B2R a * B2R b) <= (Ba + ea) * (Bb + eb)) as Hprod.
  { rewrite Rabs_mult. apply Rmult_le_compat; lra. }
  destruct (fmul_rounds a b Hna Hnb) as [Hn Hr].
  { pose proof million_small. lra. }
  split; [exact Hn|].
  replace (B2R (fmul a b) - ra * rb)
    with ((B2R (fmul a b) - B2R a * B2R b)
          + (B2R a * (B2R b - rb) + rb * (B2R a - ra))) by ring.
  eapply Rle_trans; [apply Rabs_triang|].
  assert (Rabs (B2R a * (B2R b - rb) + rb * (B2R a - ra))
          <= (Ba + ea) * eb + Bb * ea) as H2.
  { eapply Rle_trans; [apply Rabs_triang|]. rewrite !Rabs_mult.
    apply Rplus_le_compat; apply Rmult_le_compat; lra. }
  unfold ulp_one in *. nra.
Qed.

Lemma near_add (a b : float) (ra rb ea eb Ba Bb : R) :
  near a ra ea -> near b rb eb -> Rabs ra <= Ba -> Rabs rb <= Bb ->
  Ba + ea + (Bb + eb) <= 1000000000000 ->
  near (fadd a b) (ra + rb)
       (ea + eb + (Ba + ea + (Bb + eb)) * ulp_one + eta).
Proof.
  intros Ha Hb HBa HBb Hsmall.
  pose proof (near_bound a ra ea Ba Ha HBa) as HA.
  pose proof (near_bound b rb eb Bb Hb HBb) as HB.
  destruct Ha as [Hna Ha], Hb as [Hnb Hb].
  assert (Rabs (B2R a + B2R b) <= Ba + ea + (Bb + eb)) as Hsum.
  { eapply Rle_trans; [apply Rabs_triang|]. lra. }
  destruct (fadd_rounds a b Hna Hnb) as [Hn Hr].
  { pose proof million_small. lra. }
  split; [exact Hn|].
  replace (B2R (fadd a b) - (ra + rb))
    with ((B2R (fadd a b) - (B2R a + B2R b))
          + ((B2R a - ra) + (B2R b - rb))) by ring.
  eapply Rle_trans; [apply Rabs_triang|].
  assert (Rabs (B2R a - ra + (B2R b - rb)) <= ea + eb) as H2.
  { eapply Rle_trans; [apply Rabs_triang|]. lra. }
  unfold ulp_one in *. nra.
Qed.

(** The value of a float with a negative exponent. *)
Lemma B2R_ratio (s : bool) (m : positive) (k : Z) :
  (0 <= k)%Z ->
  B2R (S754_finite s m (- k)) = signed s (IZR (Z.pos m) / IZR (2 ^ k)).
Proof.
  intros Hk. rewrite B2R_finite, p2_neg by exact Hk. reflexivity.
Qed.

Lemma half_R : number (lit 1 2) /\ B2R (lit 1 2) = 1 / 2.
Proof.
  split; [split; [exact I|reflexivity]|].
  change (lit 1 2) with (S754_finite false 8388608 (- (24))).
  rewrite B2R_ratio by lia. change (2 ^ 24)%Z with 16777216%Z. simpl. lra.
Qed.


End ErrorBounds.

(** ** The first sample of the frame on any buffer *)

Section ScenarioOperands.

Local Open Scope R_scope.

Variables w h : Z.
Hypothesis w_range : (0 < w < 2 ^ 24)%Z.
Hypothesis h_range : (0 < h < 2 ^ 24)%Z.

Local Abbreviation width := (IZR w).
Local Abbreviation height := (IZR h).












End ScenarioOperands.





(** ** The depth of a sample *)

Section Depth.

Local Open Scope R_scope.

Lemma sin2_cos2' (a : R) : sin a * sin a + cos a * cos a = 1.
Proof. pose proof (sin2_cos2 a) as H. unfold Rsqr in H. exact H. Qed.

Lemma cos_abs (a : R) : Rabs (cos a) <= 1.
Proof. apply Rabs_le. pose proof (COS_bound a). lra. Qed.

Lemma sin_abs (a : R) : Rabs (sin a) <= 1.
Proof. apply Rabs_le. pose proof (SIN_bound a). lra. Qed.

Lemma abs_mul_le (x y Bx By : R) :
  Rabs x <= Bx -> Rabs y <= By -> Rabs (x * y) <= Bx * By.
Proof.
  intros Hx Hy. rewrite Rabs_mult.
  pose proof (Rabs_pos x). pose proof (Rabs_pos y).
  apply Rmult_le_compat; lra.
Qed.

Lemma abs_add_le (x y Bx By : R) :
  Rabs x <= Bx -> Rabs y <= By -> Rabs (x + y) <= Bx + By.
Proof.
  intros Hx Hy. eapply Rle_trans; [apply Rabs_triang|]. lra.
Qed.

(** A point of the torus stays within 3/2 of the origin along the view
    axis, whatever the two rotations. *)
Lemma rotated_z_real (A B t p : R) :
  Rabs (- sin B * ((1 + 1 / 2 * cos t) * cos p)
        + cos B * (sin A * ((1 + 1 / 2 * cos t) * sin p)
                   + cos A * (1 / 2 * sin t))) <= 3 / 2.
Proof.
  pose proof (sin2_cos2' A) as HA. pose proof (sin2_cos2' B) as HB.
  pose proof (sin2_cos2' t) as HT. pose proof (sin2_cos2' p) as HP.
  pose proof (COS_bound t) as [_ Hct].
  set (a := (1 + 1 / 2 * cos t) * cos p).
  set (b := (1 + 1 / 2 * cos t) * sin p).
  set (c := 1 / 2 * sin t).
  set (u := sin A * b + cos A * c).
  assert (u * u + (cos A * b - sin A * c) * (cos A * b - sin A * c)
          = b * b + c * c) as Hu.
  { unfold u.
    transitivity ((sin A * sin A + cos A * cos A) * (b * b + c * c));
      [ring|rewrite HA; ring]. }
  assert ((- sin B * a + cos B * u) * (- sin B * a + cos B * u)
          + (cos B * a + sin B * u) * (cos B * a + sin B * u)
          = a * a + u * u) as Hz.
  { transitivity ((sin B * sin B + cos B * cos B) * (a * a + u * u));
      [ring|rewrite HB; ring]. }
  assert (a * a + b * b + c * c = 5 / 4 + cos t) as Hn.
  { unfold a, b, c.
    transitivity ((1 + 1 / 2 * cos t) * (1 + 1 / 2 * cos t)
                    * (sin p * sin p + cos p * cos p)
                  + 1 / 4 * (sin t * sin t)); [field|].
    rewrite HP.
    replace (sin t * sin t) with (1 - cos t * cos t) by lra.
    field. }
  pose proof (Rle_0_sqr (cos B * a + sin B * u)) as H1.
  pose proof (Rle_0_sqr (cos A * b - sin A * c)) as H2.
  unfold Rsqr in H1, H2.
  set (z := - sin B * a + cos B * u) in *.
  assert (z * z <= 3 / 2 * (3 / 2)) as Hzz by lra.
  apply Rabs_le. split; nra.
Qed.

Lemma one_R : number fone /\ B2R fone = 1.
Proof. apply (of_int_R 1). lia. Qed.

Lemma three_R : number (of_int 3) /\ B2R (of_int 3) = 3.
Proof. apply (of_int_R 3). lia. Qed.

Lemma near_literal (f : float) (x : R) :
  number f /\ B2R f = x -> near f x 0.
Proof. intros [Hn <-]. apply near_exact, Hn. Qed.

Variables cosf sinf : float -> float.
Variables Ax Ay theta phi : float.
Hypothesis libm_Ax : accurate cosf sinf Ax.
Hypothesis libm_Ay : accurate cosf sinf Ay.
Hypothesis libm_theta : accurate cosf sinf theta.
Hypothesis libm_phi : accurate cosf sinf phi.

Local Abbreviation ax := (B2R Ax).
Local Abbreviation ay := (B2R Ay).
Local Abbreviation th := (B2R theta).
Local Abbreviation ph := (B2R phi).

(** The rotated [z] of a sample is within 2/100000 of its exact
    value. *)
Lemma rotated_z_near :
  near (vec_z (rotated_p cosf sinf Ax Ay theta phi))
       (- sin ay * ((1 + 1 / 2 * cos th) * cos ph)
        + cos ay * (sin ax * ((1 + 1 / 2 * cos th) * sin ph)
                   + cos ax * (1 / 2 * sin th)))
       (/ 50000).
Proof.
  destruct libm_Ax as (_ & CA & SA). destruct libm_Ay as (_ & CB & SB).
  destruct libm_theta as (_ & Ct & St). destruct libm_phi as (_ & Cp & Sp).
  pose proof eta_small as Heta. pose proof eta_pos as Heta0.
  pose proof (cos_abs ax) as HcA. pose proof (sin_abs ax) as HsA.
  pose proof (cos_abs ay) as HcB. pose proof (sin_abs ay) as HsB.
  pose proof (cos_abs th) as Hct. pose proof (sin_abs th) as Hst.
  pose proof (cos_abs ph) as Hcp. pose proof (sin_abs ph) as Hsp.
  assert (Rabs (1 / 2) <= 1 / 2) as Hhalf by (rewrite Rabs_pos_eq; lra).
  assert (Rabs 1 <= 1) as Hone by (rewrite Rabs_pos_eq; lra).
  pose proof (near_literal _ _ half_R) as Nhalf.
  pose proof (near_literal _ _ one_R) as None.
  unfold rotated_p, rotateY, rotateX, pObj. cbn [vec_x vec_y vec_z].
  change R_minor with (lit 1 2). change R_major with fone.
  (* 0.5 * cos theta  and  0.5 * sin theta *)
  pose proof (near_mul _ _ _ _ _ _ (1 / 2) 1 Nhalf Ct Hhalf Hct
                ltac:(unfold libm_error; lra)) as Nt1.
  apply (near_weaken _ _ _ (/ 1500000)) in Nt1;
    [|unfold ulp_one, libm_error; lra].
  pose proof (abs_mul_le _ _ _ _ Hhalf Hct) as Bt1.
  pose proof (near_mul _ _ _ _ _ _ (1 / 2) 1 Nhalf St Hhalf Hst
                ltac:(unfold libm_error; lra)) as Npz.
  apply (near_weaken _ _ _ (/ 1500000)) in Npz;
    [|unfold ulp_one, libm_error; lra].
  pose proof (abs_mul_le _ _ _ _ Hhalf Hst) as Bpz.
  (* circle *)
  pose proof (near_add _ _ _ _ _ _ 1 (1 / 2 * 1) None Nt1 Hone Bt1
                ltac:(lra)) as Nci.
  apply (near_weaken _ _ _ (/ 1000000)) in Nci; [|unfold ulp_one; lra].
  pose proof (abs_add_le _ _ _ _ Hone Bt1) as Bci.
  (* the point of the torus *)
  pose proof (near_mul _ _ _ _ _ _ _ 1 Nci Cp Bci Hcp
                ltac:(unfold libm_error; lra)) as Npx.
  apply (near_weaken _ _ _ (/ 350000)) in Npx;
    [|unfold ulp_one, libm_error; lra].
  pose proof (abs_mul_le _ _ _ _ Bci Hcp) as Bpx.
  pose proof (near_mul _ _ _ _ _ _ _ 1 Nci Sp Bci Hsp
                ltac:(unfold libm_error; lra)) as Npy.
  apply (near_weaken _ _ _ (/ 350000)) in Npy;
    [|unfold ulp_one, libm_error; lra].
  pose proof (abs_mul_le _ _ _ _ Bci Hsp) as Bpy.
  (* rotation about x *)
  pose proof (near_mul _ _ _ _ _ _ 1 _ SA Npy HsA Bpy
                ltac:(unfold libm_error; lra)) as Nm1.
  apply (near_weaken _ _ _ (/ 200000)) in Nm1;
    [|unfold ulp_one, libm_error; lra].
  pose proof (abs_mul_le _ _ _ _ HsA Bpy) as Bm1.
  pose proof (near_mul _ _ _ _ _ _ 1 _ CA Npz HcA Bpz
                ltac:(unfold libm_error; lra)) as Nm2.
  apply (near_weaken _ _ _ (/ 800000)) in Nm2;
    [|unfold ulp_one, libm_error; lra].
  pose proof (abs_mul_le _ _ _ _ HcA Bpz) as Bm2.
  pose proof (near_add _ _ _ _ _ _ _ _ Nm1 Nm2 Bm1 Bm2 ltac:(lra)) as Nz1.
  apply (near_weaken _ _ _ (/ 150000)) in Nz1; [|unfold ulp_one; lra].
  pose proof (abs_add_le _ _ _ _ Bm1 Bm2) as Bz1.
  (* rotation about y *)
  pose proof (near_neg _ _ _ SB) as NsB.
  assert (Rabs (- sin ay) <= 1) as HnsB by (rewrite Rabs_Ropp; exact HsB).
  pose proof (near_mul _ _ _ _ _ _ 1 _ NsB Npx HnsB Bpx
                ltac:(unfold libm_error; lra)) as Nm3.
  apply (near_weaken _ _ _ (/ 200000)) in Nm3;
    [|unfold ulp_one, libm_error; lra].
  pose proof (abs_mul_le _ _ _ _ HnsB Bpx) as Bm3.
  pose proof (near_mul _ _ _ _ _ _ 1 _ CB Nz1 HcB Bz1
                ltac:(unfold libm_error; lra)) as Nm4.
  apply (near_weaken _ _ _ (/ 110000)) in Nm4;
    [|unfold ulp_one, libm_error; lra].
  pose proof (abs_mul_le _ _ _ _ HcB Bz1) as Bm4.
  pose proof (near_add _ _ _ _ _ _ _ _ Nm3 Nm4 Bm3 Bm4 ltac:(lra)) as Nz2.
  eapply near_weaken; [exact Nz2|]. unfold ulp_one. lra.
Qed.

Lemma denominator_near :
  number (denominator cosf sinf Ax Ay theta phi) /\
  14999 / 10000 <= B2R (denominator cosf sinf Ax Ay theta phi)
    <= 45001 / 10000.
Proof.
  pose proof rotated_z_near as Nz.
  pose proof (rotated_z_real ax ay th ph) as Bz.
  pose proof eta_small as Heta. pose proof eta_pos as Heta0.
  assert (Rabs 3 <= 3) as H3 by (rewrite Rabs_pos_eq; lra).
  pose proof (near_add _ _ _ _ _ _ 3 _ (near_literal _ _ three_R) Nz H3 Bz
                ltac:(lra)) as Nd.
  fold K2 in Nd. fold (denominator cosf sinf Ax Ay theta phi) in Nd.
  split; [apply Nd|].
  apply near_range in Nd. apply Rabs_bounds in Bz.
  unfold ulp_one in Nd. lra.
Qed.

End Depth.

Lemma positive_not_zero (d : float) : flt fzero d = true -> SFeqb d fzero = false.
Proof.
  destruct d as [s|s| |s m e]; try destruct s; try discriminate; reflexivity.
Qed.

Lemma accurate_at_zero : accurate cos_at_zero sin_at_zero fzero.
Proof.
  unfold accurate, cos_at_zero, sin_at_zero.
  change (B2R fzero) with (B2R (S754_zero false)). rewrite B2R_zero.
  rewrite cos_0, sin_0.
  split; [exact I|]. split.
  - destruct one_R as [Hn Hv]. split; [exact Hn|].
    rewrite Hv, Rminus_diag, Rabs_R0. unfold libm_error. lra.
  - split; [apply number_zero|].
    change fzero with (S754_zero false). rewrite B2R_zero, Rminus_diag, Rabs_R0.
    unfold libm_error. lra.
Qed.

(** C4, as the code has it.  For a libm whose [cos] and [sin] are
    within 2^-20 of the true values at the four angles of a sample,
    the binary32 denominator [cameraDistance + rotatedPosition.z] is a
    number between 1.4999 and 4.5001: it can be as low as half the
    camera distance, but it is positive and never zero, and the
    division gives a positive number, the inverse depth, between
    0.2222 and 0.6668, within one unit in the last place of
    [1 / denominator]. *)
Theorem denominator_is_positive
    (cosf sinf : float -> float) (Ax Ay theta phi : float) :
  accurate cosf sinf Ax -> accurate cosf sinf Ay ->
  accurate cosf sinf theta -> accurate cosf sinf phi ->
  let d := denominator cosf sinf Ax Ay theta phi in
  let iz := invZ cosf sinf Ax Ay theta phi in
  number d /\
  (14999 / 10000 <= B2R d <= 45001 / 10000)%R /\
  flt fzero d = true /\ SFeqb d fzero = false /\
  number iz /\ rounds iz (1 / B2R d) /\
  (2222 / 10000 <= B2R iz <= 6668 / 10000)%R /\
  flt fzero iz = true.
Proof.
  intros HAx HAy Ht Hp d iz.
  destruct (denominator_near cosf sinf Ax Ay theta phi HAx HAy Ht Hp)
    as [Hn Hd].
  fold d in Hn, Hd.
  assert (B2R fzero = 0%R) as Hz by apply (B2R_zero false).
  assert (flt fzero d = true) as Hpos.
  { apply (flt_R fzero d (number_zero false) Hn). rewrite Hz. lra. }
  destruct one_R as [Hn1 Hv1].
  pose proof eta_small as Heta. pose proof eta_pos as Heta0.
  pose proof million_small as Hbig.
  assert (10000 / 45001 <= 1 / B2R d <= 10000 / 14999)%R as Hq.
  { split.
    - apply Rmult_le_reg_r with (B2R d); [lra|].
      unfold Rdiv at 2. rewrite Rmult_assoc, Rinv_l by lra. lra.
    - apply Rmult_le_reg_r with (B2R d); [lra|].
      unfold Rdiv at 1. rewrite Rmult_assoc, Rinv_l by lra. lra. }
  destruct (fdiv_rounds fone d Hn1 Hn) as [Hniz Hriz].
  { lra. }
  { rewrite Hv1, Rabs_pos_eq; lra. }
  change (fdiv fone d) with iz in Hniz, Hriz.
  rewrite Hv1 in Hriz.
  assert (2222 / 10000 <= B2R iz <= 6668 / 10000)%R as Hiz.
  { pose proof Hriz as H. rewrite (Rabs_pos_eq (1 / B2R d)) in H by lra.
    apply Rabs_bounds in H. unfold ulp_one in H. lra. }
  split; [exact Hn|]. split; [exact Hd|]. split; [exact Hpos|].
  split; [apply positive_not_zero, Hpos|].
  split; [exact Hniz|]. split; [split; [exact Hniz|exact Hriz]|].
  split; [exact Hiz|].
  apply (flt_R fzero iz (number_zero false) Hniz). rewrite Hz. lra.
Qed.

Lemma denominator_is_positive_witness :
  flt fzero (denominator cos_at_zero sin_at_zero fzero fzero fzero fzero) = true /\
  flt fzero (invZ cos_at_zero sin_at_zero fzero fzero fzero fzero) = true.
Proof.
  destruct (denominator_is_positive cos_at_zero sin_at_zero
              fzero fzero fzero fzero
              accurate_at_zero accurate_at_zero accurate_at_zero
              accurate_at_zero)
    as (_ & _ & Hd & _ & _ & _ & _ & Hi).
  split; [exact Hd|exact Hi].
Defined.

(** C4, counterexample.  The denominator is not bounded below by the
    camera distance: at [Ax = 0] and [Ay] the binary32 nearest to
    pi/2, the first sample [theta = phi = 0] of the frame is rotated
    to [z = -1.5], and its denominator is 1.5, below the camera
    distance 3. *)
Lemma denominator_below_camera_distance :
  vec_z (rotated_p cos_table sin_table fzero half_pi fzero fzero)
    = fneg (lit 3 2) /\
  denominator cos_table sin_table fzero half_pi fzero fzero = lit 3 2 /\
  flt (denominator cos_table sin_table fzero half_pi fzero fzero) K2 = true /\
  fle K2 (denominator cos_table sin_table fzero half_pi fzero fzero) = false.
Proof. vm_compute. auto. Qed.

(** ** The length of a normalised vector *)

Section UnitLength.

Local Open Scope R_scope.

Lemma eta_tiny : eta < / 100000000000000000000000000000000000000000000.
Proof.
  unfold eta. change (-149)%Z with (- (149))%Z.
  rewrite powerRZ_neg', <- IZR_pow2 by lia.
  apply Rinv_lt_contravar.
  - apply Rmult_lt_0_compat; [lra|]. apply IZR_lt. reflexivity.
  - apply IZR_lt. reflexivity.
Qed.

Lemma large_small : 1000000000000000000000000000000000 < powerRZ 2 127.
Proof.
  rewrite <- IZR_pow2 by lia. apply IZR_lt. reflexivity.
Qed.

Lemma sqrt_scaled (s c : R) : 0 <= s -> 0 <= c -> sqrt (s * (c * c)) = sqrt s * c.
Proof.
  intros HS Hc. rewrite sqrt_mult_alt by exact HS.
  rewrite sqrt_square by exact Hc. reflexivity.
Qed.

(** The square root keeps a relative error. *)
Lemma sqrt_rel (s D k : R) :
  0 <= s -> 0 <= k <= 1 -> s * (1 - k) <= D <= s * (1 + k) ->
  sqrt s * (1 - k) <= sqrt D <= sqrt s * (1 + k).
Proof.
  intros HS Hk HD. split.
  - rewrite <- sqrt_scaled by lra. apply sqrt_le_1_alt.
    apply Rle_trans with (s * (1 - k)); [|apply HD].
    apply Rmult_le_compat_l; [exact HS|]. nra.
  - rewrite <- sqrt_scaled by lra. apply sqrt_le_1_alt.
    apply Rle_trans with (s * (1 + k)); [apply HD|].
    apply Rmult_le_compat_l; [exact HS|]. nra.
Qed.

(** Three numbers close to the components of a unit vector scaled by
    a factor close to 1 have a sum of squares close to 1. *)
Lemma unit_length_real (c1 c2 c3 rho n1 n2 n3 : R) :
  c1 * c1 + c2 * c2 + c3 * c3 = 1 ->
  Rabs (rho - 1) <= / 500000 ->
  Rabs (n1 - c1 * rho) <= / 4000000 ->
  Rabs (n2 - c2 * rho) <= / 4000000 ->
  Rabs (n3 - c3 * rho) <= / 4000000 ->
  Rabs (n1 * n1 + n2 * n2 + n3 * n3 - 1) <= / 100000.
Proof.
  intros Hc Hr H1 H2 H3.
  assert (forall c, c * c <= 1 -> Rabs c <= 1) as Hsq.
  { intros c H. apply Rabs_le. split; nra. }
  assert (Rabs c1 <= 1) as A1 by (apply Hsq; nra).
  assert (Rabs c2 <= 1) as A2 by (apply Hsq; nra).
  assert (Rabs c3 <= 1) as A3 by (apply Hsq; nra).
  set (e1 := n1 - c1 * rho) in *. set (e2 := n2 - c2 * rho) in *.
  set (e3 := n3 - c3 * rho) in *.
  pose proof (abs_mul_le _ _ _ _ A1 H1) as P1.
  pose proof (abs_mul_le _ _ _ _ A2 H2) as P2.
  pose proof (abs_mul_le _ _ _ _ A3 H3) as P3.
  pose proof (abs_mul_le _ _ _ _ H1 H1) as Q1.
  pose proof (abs_mul_le _ _ _ _ H2 H2) as Q2.
  pose proof (abs_mul_le _ _ _ _ H3 H3) as Q3.
  assert (Rabs (c1 * e1 + c2 * e2 + c3 * e3) <= 3 * (1 * / 4000000)) as HT.
  { pose proof (Rabs_triang (c1 * e1 + c2 * e2) (c3 * e3)).
    pose proof (Rabs_triang (c1 * e1) (c2 * e2)). lra. }
  set (T := c1 * e1 + c2 * e2 + c3 * e3) in *.
  assert (Rabs rho <= 1 + / 500000) as Hrho.
  { replace rho with (1 + (rho - 1)) by ring.
    eapply Rle_trans; [apply Rabs_triang|].
    rewrite (Rabs_pos_eq 1) by lra. lra. }
  pose proof (abs_mul_le _ _ _ _ Hrho HT) as HrT.
  pose proof (abs_mul_le _ _ _ _ Hr Hrho) as Hrr.
  replace (n1 * n1 + n2 * n2 + n3 * n3 - 1)
    with ((c1 * c1 + c2 * c2 + c3 * c3) * (rho * rho) - 1
          + 2 * (rho * T) + (e1 * e1 + e2 * e2 + e3 * e3))
    by (unfold T, e1, e2, e3; ring).
  rewrite Hc.
  replace (1 * (rho * rho) - 1) with ((rho - 1) * rho + (rho - 1)) by ring.
  apply Rabs_bounds in Hr, HrT, Hrr, Q1, Q2, Q3.
  apply Rabs_le. lra.
Qed.

Variable v : Vec3.
Hypothesis x_number : number (vec_x v).
Hypothesis y_number : number (vec_y v).
Hypothesis z_number : number (vec_z v).

Local Abbreviation vx := (B2R (vec_x v)).
Local Abbreviation vy := (B2R (vec_y v)).
Local Abbreviation vz := (B2R (vec_z v)).
Local Abbreviation len2 := (vx * vx + vy * vy + vz * vz).

Hypothesis len2_range :
  / 1000000000000000000000000000000 <= len2 <= 1000000000000000000000000000000.

Lemma squares_nonneg : 0 <= vx * vx /\ 0 <= vy * vy /\ 0 <= vz * vz.
Proof. repeat split; nra. Qed.

(** The squared length [dot(v, v)] has a relative error below 5e-7. *)
Lemma dot_self_near :
  number (dot v v) /\
  len2 * (1 - / 2000000) <= B2R (dot v v) <= len2 * (1 + / 2000000).
Proof.
  destruct squares_nonneg as (Hx & Hy & Hz).
  pose proof eta_tiny as Heta. pose proof eta_pos as Heta0.
  pose proof large_small as Hbig.
  destruct (fmul_rounds _ _ x_number x_number) as [N1 R1].
  { rewrite Rabs_pos_eq by exact Hx. lra. }
  destruct (fmul_rounds _ _ y_number y_number) as [N2 R2].
  { rewrite Rabs_pos_eq by exact Hy. lra. }
  destruct (fmul_rounds _ _ z_number z_number) as [N3 R3].
  { rewrite Rabs_pos_eq by exact Hz. lra. }
  rewrite (Rabs_pos_eq (vx * vx)) in R1 by exact Hx.
  rewrite (Rabs_pos_eq (vy * vy)) in R2 by exact Hy.
  rewrite (Rabs_pos_eq (vz * vz)) in R3 by exact Hz.
  apply Rabs_bounds in R1, R2, R3. unfold ulp_one in R1, R2, R3.
  set (P1 := B2R (fmul (vec_x v) (vec_x v))) in *.
  set (P2 := B2R (fmul (vec_y v) (vec_y v))) in *.
  set (P3 := B2R (fmul (vec_z v) (vec_z v))) in *.
  assert (Rabs (P1 + P2) <= (vx * vx + vy * vy) * (1 + / 8388608) + 2 * eta) as B12
    by (apply Rabs_le; lra).
  destruct (fadd_rounds _ _ N1 N2) as [N12 R12].
  { fold P1 P2. lra. }
  fold P1 P2 in R12. apply Rabs_bounds in R12. unfold ulp_one in R12.
  set (A := B2R (fadd (fmul (vec_x v) (vec_x v)) (fmul (vec_y v) (vec_y v)))) in *.
  assert (Rabs (A + P3) <= len2 * (1 + / 4000000) + 4 * eta) as B123
    by (apply Rabs_le; lra).
  destruct (fadd_rounds _ _ N12 N3) as [ND RD].
  { fold A P3. lra. }
  fold A P3 in RD. apply Rabs_bounds in RD. unfold ulp_one in RD.
  split; [exact ND|]. unfold dot.
  set (D := B2R (fadd (fadd (fmul (vec_x v) (vec_x v)) (fmul (vec_y v) (vec_y v)))
                      (fmul (vec_z v) (vec_z v)))) in *.
  lra.
Qed.

Lemma length_pos : / 1000000000000000 <= sqrt len2 /\ sqrt len2 * sqrt len2 = len2.
Proof.
  assert (0 <= len2) as HS by lra.
  pose proof (sqrt_sqrt len2 HS) as Hrr. pose proof (sqrt_pos len2) as Hr.
  split; [|exact Hrr].
  destruct (Rle_dec (/ 1000000000000000) (sqrt len2)) as [|Hn]; [assumption|].
  exfalso. assert (sqrt len2 * sqrt len2 < / 1000000000000000 * / 1000000000000000)
    by nra. lra.
Qed.

(** The magnitude [sqrt(dot(v, v))] has a relative error below 1e-6. *)
Lemma magnitude_near :
  number (fsqrt (dot v v)) /\
  sqrt len2 * (1 - / 1000000) <= B2R (fsqrt (dot v v)) <= sqrt len2 * (1 + / 1000000).
Proof.
  destruct dot_self_near as [ND HD].
  destruct length_pos as [Hr Hrr].
  pose proof eta_tiny as Heta. pose proof eta_pos as Heta0.
  assert (0 <= B2R (dot v v)) as HD0 by nra.
  destruct (fsqrt_rounds _ ND HD0) as [NM RM].
  pose proof (sqrt_rel len2 (B2R (dot v v)) (/ 2000000) ltac:(lra) ltac:(lra) HD)
    as Hs.
  pose proof (sqrt_pos (B2R (dot v v))) as Hsp.
  rewrite (Rabs_pos_eq (sqrt (B2R (dot v v)))) in RM by exact Hsp.
  apply Rabs_bounds in RM. unfold ulp_one in RM.
  split; [exact NM|]. lra.
Qed.


Lemma magnitude_pos : 0 < B2R (fsqrt (dot v v)).
Proof.
  destruct magnitude_near as [_ HM]. destruct length_pos as [Hr _]. lra.
Qed.

Lemma scale_near_one :
  Rabs (sqrt len2 / B2R (fsqrt (dot v v)) - 1) <= / 500000.
Proof.
  destruct magnitude_near as [_ HM]. destruct length_pos as [Hr _].
  pose proof magnitude_pos as HM0.
  set (M := B2R (fsqrt (dot v v))) in *. set (r := sqrt len2) in *.
  assert (r / M * M = r) as E by (field; lra).
  apply Rabs_le. split.
  - apply Rmult_le_reg_r with M; [exact HM0|].
    replace ((r / M - 1) * M) with (r / M * M - M) by ring. rewrite E. lra.
  - apply Rmult_le_reg_r with M; [exact HM0|].
    replace ((r / M - 1) * M) with (r / M * M - M) by ring. rewrite E. lra.
Qed.

Lemma component_near (c : float) :
  number c -> B2R c * B2R c <= len2 ->
  number (fdiv c (fsqrt (dot v v))) /\
  Rabs (B2R (fdiv c (fsqrt (dot v v)))
        - B2R c / sqrt len2 * (sqrt len2 / B2R (fsqrt (dot v v)))) <= / 4000000.
Proof.
  intros Hc HcS.
  destruct magnitude_near as [NM HM]. destruct length_pos as [Hr Hrr].
  pose proof magnitude_pos as HM0.
  pose proof eta_tiny as Heta. pose proof eta_pos as Heta0.
  pose proof large_small as Hbig.
  set (M := B2R (fsqrt (dot v v))) in *. set (r := sqrt len2) in *.
  set (C := B2R c) in *.
  assert (Rabs C <= r) as HC.
  { apply Rabs_le. split; nra. }
  assert (Rabs (C / M) <= 2) as HCM.
  { unfold Rdiv. rewrite Rabs_mult, (Rabs_pos_eq (/ M))
      by (apply Rlt_le, Rinv_0_lt_compat; exact HM0).
    apply Rmult_le_reg_r with M; [exact HM0|].
    rewrite Rmult_assoc, Rinv_l by lra. lra. }
  destruct (fdiv_rounds c (fsqrt (dot v v)) Hc NM) as [NQ RQ].
  { fold M. lra. }
  { fold C M. lra. }
  fold C M in RQ.
  split; [exact NQ|].
  replace (C / r * (r / M)) with (C / M) by (field; lra).
  eapply Rle_trans; [exact RQ|]. unfold ulp_one. lra.
Qed.

Lemma guard_passes : fgt (fsqrt (dot v v)) fzero = true.
Proof.
  rewrite fgt_flt.
  apply (flt_R fzero _ (number_zero false) (proj1 magnitude_near)).
  change (B2R fzero) with (B2R (S754_zero false)). rewrite B2R_zero.
  apply magnitude_pos.
Qed.

Lemma direction_real (c rho n : R) :
  Rabs c <= 1 -> Rabs (rho - 1) <= / 500000 ->
  Rabs (n - c * rho) <= / 4000000 -> Rabs (n - c) <= / 100000.
Proof.
  intros Hc Hr Hn. pose proof (abs_mul_le _ _ _ _ Hc Hr) as H.
  replace (n - c) with ((n - c * rho) + c * (rho - 1)) by ring.
  eapply Rle_trans; [apply Rabs_triang|]. lra.
Qed.

Lemma normalize_near :
  let n := normalize v in
  n = mkVec3 (fdiv (vec_x v) (fsqrt (dot v v)))
             (fdiv (vec_y v) (fsqrt (dot v v)))
             (fdiv (vec_z v) (fsqrt (dot v v))) /\
  number (vec_x n) /\ number (vec_y n) /\ number (vec_z n) /\
  Rabs (B2R (vec_x n) * B2R (vec_x n) + B2R (vec_y n) * B2R (vec_y n)
        + B2R (vec_z n) * B2R (vec_z n) - 1) <= / 100000 /\
  Rabs (B2R (vec_x n) - vx / sqrt len2) <= / 100000 /\
  Rabs (B2R (vec_y n) - vy / sqrt len2) <= / 100000 /\
  Rabs (B2R (vec_z n) - vz / sqrt len2) <= / 100000.
Proof.
  intros n.
  assert (n = mkVec3 (fdiv (vec_x v) (fsqrt (dot v v)))
                     (fdiv (vec_y v) (fsqrt (dot v v)))
                     (fdiv (vec_z v) (fsqrt (dot v v)))) as En
    by (unfold n, normalize; rewrite guard_passes; reflexivity).
  destruct squares_nonneg as (Hx & Hy & Hz).
  destruct length_pos as [Hr Hrr].
  destruct (component_near (vec_x v) x_number) as [Nx Rx]; [lra|].
  destruct (component_near (vec_y v) y_number) as [Ny Ry]; [lra|].
  destruct (component_near (vec_z v) z_number) as [Nz Rz]; [lra|].
  pose proof scale_near_one as Hrho.
  set (r := sqrt len2) in *.
  assert (vx / r * (vx / r) + vy / r * (vy / r) + vz / r * (vz / r) = 1) as Hunit.
  { transitivity ((vx * vx + vy * vy + vz * vz) / (r * r)); [field; lra|].
    rewrite Hrr. field. lra. }
  assert (forall c, c * c <= len2 -> Rabs (c / r) <= 1) as Hdir.
  { intros c Hc. unfold Rdiv.
    rewrite Rabs_mult, (Rabs_pos_eq (/ r))
      by (apply Rlt_le, Rinv_0_lt_compat; lra).
    apply Rmult_le_reg_r with r; [lra|].
    rewrite Rmult_assoc, Rinv_l by lra.
    assert (Rabs c <= r) by (apply Rabs_le; split; nra). lra. }
  rewrite En. cbn [vec_x vec_y vec_z].
  split; [reflexivity|].
  split; [exact Nx|]. split; [exact Ny|]. split; [exact Nz|].
  split; [exact (unit_length_real _ _ _ _ _ _ _ Hunit Hrho Rx Ry Rz)|].
  split; [apply (direction_real _ _ _ (Hdir vx ltac:(lra)) Hrho Rx)|].
  split; [apply (direction_real _ _ _ (Hdir vy ltac:(lra)) Hrho Ry)|].
  apply (direction_real _ _ _ (Hdir vz ltac:(lra)) Hrho Rz).
Qed.

End UnitLength.

Lemma zero_value (f : float) :
  number f -> B2R f = 0%R -> exists s, f = S754_zero s.
Proof.
  intros Hn Hv. destruct f as [s|s| |s m e]; try (exfalso; exact (proj1 Hn)).
  - exists s. reflexivity.
  - exfalso. rewrite B2R_finite in Hv. pose proof (value_pos m e).
    destruct s; simpl in Hv; lra.
Qed.

Lemma normalize_zero (sx sy sz : bool) :
  normalize (mkVec3 (S754_zero sx) (S754_zero sy) (S754_zero sz))
    = mkVec3 fzero fzero fzero.
Proof. destruct sx, sy, sz; reflexivity. Qed.

(** C8, as the code has it.  [normalize] never divides by zero: it
    divides the components by [m = sqrt(dot(v, v))] only when [m]
    compares above 0, and returns the zero vector otherwise.  For a
    vector of numbers, a zero magnitude gives the zero vector; and when
    the squared magnitude is between 1e-30 and 1e30 (so that it neither
    underflows nor overflows in binary32) the result is [v] scaled to
    unit length up to rounding: its components are numbers within 1e-5
    of those of [v / |v|] and its squared length is within 1e-5 of
    1. *)
Theorem normalize_is_unit_up_to_rounding (v : Vec3) :
  number (vec_x v) -> number (vec_y v) -> number (vec_z v) ->
  let x := B2R (vec_x v) in
  let y := B2R (vec_y v) in
  let z := B2R (vec_z v) in
  let len2 := (x * x + y * y + z * z)%R in
  let m := fsqrt (dot v v) in
  let n := normalize v in
  (fgt m fzero = true ->
   SFeqb m fzero = false /\
   n = mkVec3 (fdiv (vec_x v) m) (fdiv (vec_y v) m) (fdiv (vec_z v) m)) /\
  (fgt m fzero = false -> n = mkVec3 fzero fzero fzero) /\
  (len2 = 0%R -> n = mkVec3 fzero fzero fzero) /\
  ((/ 1000000000000000000000000000000 <= len2
      <= 1000000000000000000000000000000)%R ->
   fgt m fzero = true /\
   number (vec_x n) /\ number (vec_y n) /\ number (vec_z n) /\
   (Rabs (B2R (vec_x n) * B2R (vec_x n) + B2R (vec_y n) * B2R (vec_y n)
          + B2R (vec_z n) * B2R (vec_z n) - 1) <= / 100000)%R /\
   (Rabs (B2R (vec_x n) - x / sqrt len2) <= / 100000)%R /\
   (Rabs (B2R (vec_y n) - y / sqrt len2) <= / 100000)%R /\
   (Rabs (B2R (vec_z n) - z / sqrt len2) <= / 100000)%R).
Proof.
  intros Hx Hy Hz x y z len2 m n.
  pose proof (normalize_guard v) as [G1 G2]. fold m in G1, G2.
  split; [intros H; destruct (G1 H) as (? & _ & ?); auto|].
  split; [exact G2|].
  split.
  - intros HS.
    assert (x = 0 /\ y = 0 /\ z = 0)%R as (EX & EY & EZ).
    { unfold len2 in HS. repeat split; nra. }
    destruct (zero_value _ Hx EX) as [sx Ex].
    destruct (zero_value _ Hy EY) as [sy Ey].
    destruct (zero_value _ Hz EZ) as [sz Ez].
    unfold n. destruct v as [cx cy cz]. simpl in Ex, Ey, Ez. subst cx cy cz.
    apply normalize_zero.
  - intros HS.
    split; [exact (guard_passes v Hx Hy Hz HS)|].
    destruct (normalize_near v Hx Hy Hz HS) as (_ & H). exact H.
Qed.

Lemma normalize_is_unit_up_to_rounding_witness :
  (Rabs (B2R (vec_x (normalize (mkVec3 (of_int 1) (of_int 2) (of_int 3))))
         * B2R (vec_x (normalize (mkVec3 (of_int 1) (of_int 2) (of_int 3))))
         + B2R (vec_y (normalize (mkVec3 (of_int 1) (of_int 2) (of_int 3))))
           * B2R (vec_y (normalize (mkVec3 (of_int 1) (of_int 2) (of_int 3))))
         + B2R (vec_z (normalize (mkVec3 (of_int 1) (of_int 2) (of_int 3))))
           * B2R (vec_z (normalize (mkVec3 (of_int 1) (of_int 2) (of_int 3))))
         - 1) <= / 100000)%R.
Proof.
  destruct (normalize_is_unit_up_to_rounding
              (mkVec3 (of_int 1) (of_int 2) (of_int 3))
              (proj1 (of_int_R 1 ltac:(lia)))
              (proj1 (of_int_R 2 ltac:(lia)))
              (proj1 (of_int_R 3 ltac:(lia))))
    as (_ & _ & _ & H).
  destruct H as (_ & _ & _ & _ & H & _).
  - cbn [vec_x vec_y vec_z].
    rewrite (proj2 (of_int_R 1 ltac:(lia))), (proj2 (of_int_R 2 ltac:(lia))),
      (proj2 (of_int_R 3 ltac:(lia))).
    lra.
  - exact H.
Defined.

(** C8, counterexample.  The vector (2^-80, 0, 0) has a magnitude that
    is not zero, yet its squared magnitude underflows and [normalize]
    returns the zero vector; and [normalize(1, 2, 3)] is not of unit
    length: the sum of the squares of its components is below 1, and
    [dot] computes 16777214 * 2^-24 for it, below [1.0f]. *)
Lemma normalize_is_not_exact :
  (0 < B2R (S754_finite false 8388608 (-103)))%R /\
  normalize (mkVec3 (S754_finite false 8388608 (-103)) fzero fzero)
    = mkVec3 fzero fzero fzero /\
  normalize (mkVec3 (of_int 1) (of_int 2) (of_int 3))
    = mkVec3 (S754_finite false 8967799 (-25))
             (S754_finite false 8967799 (-24))
             (S754_finite false 13451698 (-24)) /\
  (B2R (S754_finite false 8967799 (-25)) * B2R (S754_finite false 8967799 (-25))
   + B2R (S754_finite false 8967799 (-24)) * B2R (S754_finite false 8967799 (-24))
   + B2R (S754_finite false 13451698 (-24)) * B2R (S754_finite false 13451698 (-24))
   < 1)%R /\
  dot (normalize (mkVec3 (of_int 1) (of_int 2) (of_int 3)))
      (normalize (mkVec3 (of_int 1) (of_int 2) (of_int 3)))
    = S754_finite false 16777214 (-24) /\
  flt (dot (normalize (mkVec3 (of_int 1) (of_int 2) (of_int 3)))
           (normalize (mkVec3 (of_int 1) (of_int 2) (of_int 3)))) fone = true.
Proof.
  split; [rewrite B2R_finite; apply value_pos|].
  split; [vm_compute; reflexivity|].
  split; [vm_compute; reflexivity|].
  split; [|split; vm_compute; reflexivity].
  change (-25)%Z with (- (25))%Z. change (-24)%Z with (- (24))%Z.
  rewrite !B2R_ratio by lia.
  change (2 ^ 25)%Z with 33554432%Z. change (2 ^ 24)%Z with 16777216%Z.
  simpl signed. lra.
Qed.
